(** * A shallow embedding of the Lox tree-walking interpreter

    The development follows the Go sources: [token.go] (token types and the
    keyword table), the scanner, and the interpreter (statement execution and
    expression evaluation over a chain of environments).

    Go values of type [interface{}] become the inductive [Value]; pointers
    ([*Environment], [*LoxFunction], [*LoxClass], [*LoxInstance] and the
    AST nodes) become addresses into explicit stores, so that aliasing and
    pointer identity are what they are in the program; [float64] is the
    primitive IEEE-754 binary64 type; functions returning [(value, error)]
    return an [Outcome] that also threads the interpreter. *)

From Stdlib Require Import ZArith List String Ascii Bool Lia PrimFloat FloatOps.
From Stdlib Require Import DecimalString.
From stdpp Require Import base option list gmap strings.

Import ListNotations.
Set Warnings "-register-all".
Local Open Scope string_scope.
Local Open Scope list_scope.

(** ** Small Go helpers *)

(** [fmt.Sprintf("%d", n)] *)
Definition Sprintf_d (n : Z) : string :=
  NilZero.string_of_int (Z.to_int n).

(** The byte string of one character. *)
Definition str1 (c : ascii) : string := String c EmptyString.

Definition DQUOTE : string := str1 (ascii_of_nat 34).
Definition NEWLINE : string := str1 (ascii_of_nat 10).
Definition CR : string := str1 (ascii_of_nat 13).
Definition TAB : string := str1 (ascii_of_nat 9).

(** Go slice expression [s[lo:hi]] on a string, for [lo <= hi <= len(s)]. *)
Definition slice (s : string) (lo hi : nat) : string :=
  String.substring lo (hi - lo) s.

(** [c[0]] seen as a number; the scanner only indexes non-empty strings. *)
Definition byte0 (c : string) : nat :=
  match c with
  | EmptyString => 0
  | String a _ => nat_of_ascii a
  end.

(** ** token.go *)

Definition TokenType := string.

Definition LEFT_PAREN : TokenType := "LEFT_PAREN".
Definition RIGHT_PAREN : TokenType := "RIGHT_PAREN".
Definition LEFT_BRACE : TokenType := "LEFT_BRACE".
Definition RIGHT_BRACE : TokenType := "RIGHT_BRACE".
Definition COMMA : TokenType := "COMMA".
Definition DOT : TokenType := "DOT".
Definition MINUS : TokenType := "MINUS".
Definition PLUS : TokenType := "PLUS".
Definition SEMICOLON : TokenType := "SEMICOLON".
Definition SLASH : TokenType := "SLASH".
Definition STAR : TokenType := "STAR".

Definition BANG : TokenType := "BANG".
Definition BANG_EQUAL : TokenType := "BANG_EQUAL".
Definition EQUAL : TokenType := "EQUAL".
Definition EQUAL_EQUAL : TokenType := "EQUAL_EQUAL".
Definition GREATER : TokenType := "GREATER".
Definition GREATER_EQUAL : TokenType := "GREATER_EQUAL".
Definition LESS : TokenType := "LESS".
Definition LESS_EQUAL : TokenType := "LESS_EQUAL".

Definition IDENTIFIER : TokenType := "IDENTIFIER".
Definition STRING : TokenType := "STRING".
Definition NUMBER : TokenType := "NUMBER".

Definition AND : TokenType := "ADD".
Definition CLASS : TokenType := "CLASS".
Definition ELSE : TokenType := "ELSE".
Definition FALSE : TokenType := "FALSE".
Definition FUN : TokenType := "FUN".
Definition FOR : TokenType := "FOR".
Definition IF : TokenType := "IF".
Definition NIL : TokenType := "NIL".
Definition OR : TokenType := "OR".
Definition PRINT : TokenType := "PRINT".
Definition RETURN : TokenType := "RETURN".
Definition SUPER : TokenType := "SUPER".
Definition THIS : TokenType := "THIS".
Definition TRUE : TokenType := "TRUE".
Definition VAR : TokenType := "VAR".
Definition WHILE : TokenType := "WHILE".

Definition EOF : TokenType := "EOF".

(** [KeywordsMap]: the table as the source has it, keys included. *)
Definition KeywordsMap : gmap string TokenType :=
  <["AND" := AND]> (<["CLASS" := CLASS]> (<["ELSE" := ELSE]> (<["FALSE" := FALSE]>
  (<["FOR" := FOR]> (<["FUN" := FUN]> (<["IF" := IF]> (<["NIL" := NIL]>
  (<["OR" := OR]> (<["PRINT" := PRINT]> (<["RETURN" := RETURN]> (<["SUPER" := SUPER]>
  (<["THIS" := THIS]> (<["TRUE" := TRUE]> (<["VAR" := VAR]> (<["WHILE" := WHILE]>
  ∅))))))))))))))).

(** The [Literal any] field of a token holds nothing, a [float64] or a
    [string]. *)
Inductive Literal : Type :=
| LitNil
| LitNumber (f : float)
| LitString (s : string).

Record Token : Type := mkToken {
  Type_ : TokenType;
  Lexeme : string;
  Literal_ : Literal;
  LineNumber : nat
}.

(** The zero value [Token{}]. *)
Definition Token_zero : Token := mkToken "" "" LitNil 0.

(** ** The scanner *)

Record Scanner : Type := mkScanner {
  Source : string;
  Tokens : list Token;
  start : nat;
  current : nat;
  line : nat
}.

(** Modelled from the spec: the constructor [NewScanner] is not among the
    sources; lines are 1-based and scanning starts at offset 0 with no
    tokens. *)
Definition NewScanner (source : string) : Scanner :=
  mkScanner source [] 0 0 1.

Definition set_start (s : Scanner) (n : nat) : Scanner :=
  mkScanner (Source s) (Tokens s) n (current s) (line s).
Definition set_current (s : Scanner) (n : nat) : Scanner :=
  mkScanner (Source s) (Tokens s) (start s) n (line s).
Definition set_line (s : Scanner) (n : nat) : Scanner :=
  mkScanner (Source s) (Tokens s) (start s) (current s) n.
Definition set_Tokens (s : Scanner) (ts : list Token) : Scanner :=
  mkScanner (Source s) ts (start s) (current s) (line s).

Definition isAtEnd (s : Scanner) : bool :=
  (String.length (Source s) <=? current s)%nat.

Definition peekNext (s : Scanner) : string :=
  if (String.length (Source s) <=? current s + 1)%nat then "\0"
  else slice (Source s) (current s + 1) (current s + 2).

Definition peek (s : Scanner) : string :=
  if isAtEnd s then "\0"
  else slice (Source s) (current s) (current s + 1).

Definition match_ (s : Scanner) (next : string) : bool * Scanner :=
  if isAtEnd s then (false, s)
  else if negb (String.eqb (slice (Source s) (current s) (current s + 1)) next)
       then (false, s)
       else (true, set_current s (current s + 1)).

Definition advance (s : Scanner) : string * Scanner :=
  (slice (Source s) (current s) (current s + 1), set_current s (current s + 1)).

Definition addToken (s : Scanner) (tokenType : TokenType) (literal : Literal)
  : Scanner :=
  let text := slice (Source s) (start s) (current s) in
  set_Tokens s (Tokens s ++ [mkToken tokenType text literal (line s)]).

Definition isAlphabet (c : string) : bool :=
  let b := byte0 c in
  (((97 <=? b) && (b <=? 122)) || ((65 <=? b) && (b <=? 90)) || (b =? 95))%nat.

Definition isDigit (c : string) : bool :=
  let b := byte0 c in ((48 <=? b) && (b <=? 57))%nat.

Definition isAlphaNumeric (c : string) : bool :=
  isAlphabet c || isDigit c.

(** [for cond(s) { s.advance() }]: every round consumes one byte, so the
    number of bytes left bounds the number of rounds. *)
Fixpoint advanceWhile (cond : Scanner -> bool) (rounds : nat) (s : Scanner)
  : Scanner :=
  match rounds with
  | 0 => s
  | S n => if cond s then advanceWhile cond n (snd (advance s)) else s
  end.

Definition remaining (s : Scanner) : nat :=
  String.length (Source s) - current s.

Definition identifier (s : Scanner) : Scanner :=
  let s := advanceWhile (fun s => isAlphaNumeric (peek s)) (remaining s) s in
  let text := slice (Source s) (start s) (current s) in
  match KeywordsMap !! text with
  | Some keywordType => addToken s keywordType LitNil
  | None => addToken s IDENTIFIER LitNil
  end.

(** The loop of [Scanner.string]: it also counts the newlines it passes. *)
Fixpoint stringLoop (rounds : nat) (s : Scanner) : Scanner :=
  match rounds with
  | 0 => s
  | S n =>
      if negb (String.eqb (peek s) DQUOTE) && negb (isAtEnd s) then
        let s := if String.eqb (peek s) NEWLINE then set_line s (line s + 1)
                 else s in
        stringLoop n (snd (advance s))
      else s
  end.

(** [Scanner.string]; the first component is the returned [error]. *)
Definition Scanner_string (s : Scanner) : option string * Scanner :=
  let s := stringLoop (remaining s) s in
  if isAtEnd s then
    (Some ("Unterminated string - " +:+ Sprintf_d (Z.of_nat (line s)) +:+ ": "
           +:+ slice (Source s) (start s) (current s)), s)
  else
    let s := snd (advance s) in
    (None, addToken s STRING
             (LitString (slice (Source s) (start s + 1) (current s - 1)))).

Section Scanning.

(** [strconv.ParseFloat(text, 64)] of the Go library. *)
Variable ParseFloat : string -> option float.

Definition number (s : Scanner) : option string * Scanner :=
  let s := advanceWhile (fun s => isDigit (peek s)) (remaining s) s in
  let s :=
    if String.eqb (peek s) "." && isDigit (peekNext s) then
      let s := snd (advance s) in
      advanceWhile (fun s => isDigit (peek s)) (remaining s) s
    else s in
  match ParseFloat (slice (Source s) (start s) (current s)) with
  | None => (Some "strconv.ParseFloat: parsing error", s)
  | Some f => (None, addToken s NUMBER (LitNumber f))
  end.

(** A two-character operator: [typ := one; if s.match("=") { typ = two }]. *)
Definition oneOrTwo (s : Scanner) (one two : TokenType) : Scanner :=
  let '(m, s) := match_ s "=" in
  addToken s (if m then two else one) LitNil.

(** [Scanner.scanToken]; the first component is the returned [error].
    The results of [s.string()] and [s.number()] are dropped, as in the
    source. *)
Definition scanToken (s : Scanner) : option string * Scanner :=
  let '(c, s) := advance s in
  if String.eqb c "(" then (None, addToken s LEFT_PAREN LitNil)
  else if String.eqb c ")" then (None, addToken s RIGHT_PAREN LitNil)
  else if String.eqb c "{" then (None, addToken s LEFT_BRACE LitNil)
  else if String.eqb c "}" then (None, addToken s RIGHT_BRACE LitNil)
  else if String.eqb c "," then (None, addToken s COMMA LitNil)
  else if String.eqb c "." then (None, addToken s DOT LitNil)
  else if String.eqb c "-" then (None, addToken s MINUS LitNil)
  else if String.eqb c "+" then (None, addToken s PLUS LitNil)
  else if String.eqb c ";" then (None, addToken s SEMICOLON LitNil)
  else if String.eqb c "*" then (None, addToken s STAR LitNil)
  else if String.eqb c "!" then (None, oneOrTwo s BANG BANG_EQUAL)
  else if String.eqb c "=" then (None, oneOrTwo s EQUAL EQUAL_EQUAL)
  else if String.eqb c "<" then (None, oneOrTwo s LESS LESS_EQUAL)
  else if String.eqb c ">" then (None, oneOrTwo s GREATER GREATER_EQUAL)
  else if String.eqb c "/" then
    let '(m, s) := match_ s "/" in
    if m then
      (None, advanceWhile
               (fun s => negb (String.eqb (peek s) NEWLINE) && negb (isAtEnd s))
               (remaining s) s)
    else (None, addToken s SLASH LitNil)
  else if String.eqb c " " then (None, s)
  else if String.eqb c CR then (None, s)
  else if String.eqb c TAB then (None, s)
  else if String.eqb c NEWLINE then (None, set_line s (line s + 1))
  else if String.eqb c DQUOTE then (None, snd (Scanner_string s))
  else if String.eqb c "o" then
    let '(m, s) := match_ s "r" in
    if m then (None, addToken s OR LitNil) else (None, s)
  else
    if isDigit c then (None, snd (number s))
    else if isAlphabet c then (None, identifier s)
    else (Some ("Unexpected Character. - " +:+ Sprintf_d (Z.of_nat (line s))
                +:+ ": " +:+ c), s).

(** The loop of [ScanTokens]: [for !s.isAtEnd() { s.start = s.current;
    s.scanToken() }].  Every [scanToken] consumes at least one byte. *)
Fixpoint scanLoop (rounds : nat) (s : Scanner) : Scanner :=
  match rounds with
  | 0 => s
  | S n =>
      if negb (isAtEnd s) then
        scanLoop n (snd (scanToken (set_start s (current s))))
      else s
  end.

(** [Scanner.ScanTokens() []Token]: the only result is the token list. *)
Definition ScanTokens (s : Scanner) : list Token * Scanner :=
  let s := scanLoop (remaining s) s in
  let s := set_Tokens s (Tokens s ++ [mkToken EOF "" LitNil (line s)]) in
  (Tokens s, s).

End Scanning.

(** ** The syntax tree

    The AST declarations are not among the sources; the constructors and
    field names below are the ones the interpreter uses ([expr.left],
    [stmt.superClass.name], ...).  Every expression node is a heap object
    in Go and is used through its pointer (the depth map is keyed by it, a
    field can hold it), so every node carries its address [p].  The field
    [mapExpr] of a dictionary literal is a Go map from key tokens to
    expressions: the list holds its entries, and the order in which they
    are visited is the runtime's (see [rangeOrder]), not the list's. *)

Definition ptr := nat.

(** What a literal node holds: nil, a bool, a float64 or a string. *)
Inductive LiteralValue : Type :=
| LNil
| LBool (b : bool)
| LNumber (f : float)
| LString (s : string).

Inductive Expr : Type :=
| LiteralExpr (p : ptr) (value : LiteralValue)
| GroupingExpr (p : ptr) (expression : Expr)
| UnaryExpr (p : ptr) (operator : Token) (right : Expr)
| BinaryExpr (p : ptr) (left : Expr) (operator : Token) (right : Expr)
| LogicalExpr (p : ptr) (left : Expr) (operator : Token) (right : Expr)
| TernaryExpr (p : ptr) (condition left right : Expr)
| VariableExpr (p : ptr) (name : Token)
| AssignExpr (p : ptr) (name : Token) (value : Expr)
| CallExpr (p : ptr) (callee : Expr) (paren : Token) (arguments : list Expr)
| GetExpr (p : ptr) (object : Expr) (name : Token)
| SetExpr (p : ptr) (object : Expr) (name : Token) (value : Expr)
| ThisExpr (p : ptr) (keyword : Token)
| SuperExpr (p : ptr) (keyword method : Token)
| ListExpr (p : ptr) (values : list Expr)
| DictionaryExpr (p : ptr) (mapExpr : list (Token * Expr))
| SelectExpr (p : ptr) (object name : Expr).

(** The address of a node: the key of [map[Expr]int]. *)
Definition Expr_ptr (e : Expr) : ptr :=
  match e with
  | LiteralExpr p _ | GroupingExpr p _ | UnaryExpr p _ _ | BinaryExpr p _ _ _
  | LogicalExpr p _ _ _ | TernaryExpr p _ _ _ | VariableExpr p _
  | AssignExpr p _ _ | CallExpr p _ _ _ | GetExpr p _ _ | SetExpr p _ _ _
  | ThisExpr p _ | SuperExpr p _ _ | ListExpr p _ | DictionaryExpr p _
  | SelectExpr p _ _ => p
  end.

(** The dynamic type of a node, as a tag. *)
Definition Expr_kind (e : Expr) : nat :=
  match e with
  | LiteralExpr _ _ => 0 | GroupingExpr _ _ => 1 | UnaryExpr _ _ _ => 2
  | BinaryExpr _ _ _ _ => 3 | LogicalExpr _ _ _ _ => 4
  | TernaryExpr _ _ _ _ => 5 | VariableExpr _ _ => 6 | AssignExpr _ _ _ => 7
  | CallExpr _ _ _ _ => 8 | GetExpr _ _ _ => 9 | SetExpr _ _ _ _ => 10
  | ThisExpr _ _ => 11 | SuperExpr _ _ _ => 12 | ListExpr _ _ => 13
  | DictionaryExpr _ _ => 14 | SelectExpr _ _ _ => 15
  end.

Inductive Stmt : Type :=
| ExpressionStmt (expression : Expr)
| PrintStmt (expression : Expr)
| VarStmt (name : Token) (initializer : option Expr)
| BlockStmt (statements : list Stmt)
| IfStmt (condition : Expr) (thenBranch : Stmt) (elseBranch : option Stmt)
| WhileStmt (condition : Expr) (body : Stmt)
| BreakStmt
| FunStmt (f : FunDecl)
| ReturnStmt (keyword : Token) (value : option Expr)
| ClassStmt (name : Token) (superClass : option (ptr * Token))
    (methods : list FunDecl)
with FunDecl : Type :=
| mkFunDecl (name : Token) (params : list Token) (body : list Stmt).

Definition fun_name (f : FunDecl) : Token :=
  match f with mkFunDecl name _ _ => name end.
Definition fun_params (f : FunDecl) : list Token :=
  match f with mkFunDecl _ params _ => params end.
Definition fun_body (f : FunDecl) : list Stmt :=
  match f with mkFunDecl _ _ body => body end.

(** ** Run-time values: what an [interface{}] of the interpreter holds *)

Inductive Value : Type :=
| VNil
| VBool (b : bool)
| VNumber (f : float)
| VString (s : string)
| VList (l : list Value)                (* listType *)
| VDict (d : list (string * Value))     (* dictType, keys unique *)
| VClock                                (* *Clock *)
| VFunction (p : ptr)                   (* *LoxFunction *)
| VClass (p : ptr)                      (* *LoxClass *)
| VInstance (p : ptr)                   (* *LoxInstance *)
| VExpr (e : Expr).                     (* a pointer to an AST node *)

Definition Value_of_literal (l : LiteralValue) : Value :=
  match l with
  | LNil => VNil
  | LBool b => VBool b
  | LNumber f => VNumber f
  | LString s => VString s
  end.

(** [_, ok := v.(Callable)] *)
Definition isCallable (v : Value) : bool :=
  match v with
  | VClock | VFunction _ | VClass _ => true
  | _ => false
  end.

(** Go's [==] on two [interface{}] values: different dynamic types are
    unequal; pointers compare by address; floats by IEEE-754 equality;
    slices and maps are not comparable and the comparison panics at run
    time ([None]). *)
Definition interface_eq (l r : Value) : option bool :=
  match l, r with
  | VNil, VNil => Some true
  | VBool a, VBool b => Some (Bool.eqb a b)
  | VNumber a, VNumber b => Some (PrimFloat.eqb a b)
  | VString a, VString b => Some (String.eqb a b)
  | VList _, VList _ => None
  | VDict _, VDict _ => None
  | VClock, VClock => Some true
  | VFunction p, VFunction q => Some (Nat.eqb p q)
  | VClass p, VClass q => Some (Nat.eqb p q)
  | VInstance p, VInstance q => Some (Nat.eqb p q)
  | VExpr a, VExpr b =>
      Some (Nat.eqb (Expr_kind a) (Expr_kind b)
            && Nat.eqb (Expr_ptr a) (Expr_ptr b))
  | _, _ => Some false
  end.

(** ** Heap objects

    A Go pointer is never dangling.  The stores below are lists indexed by
    address, a new object gets the next address, and the accessors
    ([the_env], [the_function], ...) answer a zero object at an address
    that was never handed out. *)

Record Environment : Type := mkEnvironment {
  Values : gmap string Value;
  Enclosing : option ptr
}.

Record LoxFunction : Type := mkLoxFunction {
  declaration : FunDecl;
  closure : ptr;
  isInitializer : bool
}.

Record LoxClass : Type := mkLoxClass {
  class_name : string;
  superclass : option ptr;
  class_methods : gmap string ptr
}.

Record LoxInstance : Type := mkLoxInstance {
  class : ptr;
  fields : gmap string Value
}.

(** ** The interpreter

    The first seven fields are the fields of the Go struct.  The others are
    the part of the world the methods act on: the stores the pointers point
    into, the lines written to standard output, the number of times the
    clock was read, and the number of times a map was ranged over. *)
Record Interpreter : Type := mkInterpreter {
  env : ptr;
  globals : ptr;
  currentLoop : option Stmt;
  breakCurrentLoop : bool;
  isReturningValue : bool;
  localsTable : gmap ptr Z;
  callStack : list Value;
  environments : list Environment;
  functions : list LoxFunction;
  classes : list LoxClass;
  instances : list LoxInstance;
  stdout : list string;
  clockReads : nat;
  mapRanges : nat
}.

Definition set_env (i : Interpreter) (e : ptr) : Interpreter :=
  mkInterpreter e (globals i) (currentLoop i) (breakCurrentLoop i)
    (isReturningValue i) (localsTable i) (callStack i) (environments i)
    (functions i) (classes i) (instances i) (stdout i) (clockReads i) (mapRanges i).
Definition set_currentLoop (i : Interpreter) (l : option Stmt) : Interpreter :=
  mkInterpreter (env i) (globals i) l (breakCurrentLoop i)
    (isReturningValue i) (localsTable i) (callStack i) (environments i)
    (functions i) (classes i) (instances i) (stdout i) (clockReads i) (mapRanges i).
Definition set_breakCurrentLoop (i : Interpreter) (b : bool) : Interpreter :=
  mkInterpreter (env i) (globals i) (currentLoop i) b
    (isReturningValue i) (localsTable i) (callStack i) (environments i)
    (functions i) (classes i) (instances i) (stdout i) (clockReads i) (mapRanges i).
Definition set_isReturningValue (i : Interpreter) (b : bool) : Interpreter :=
  mkInterpreter (env i) (globals i) (currentLoop i) (breakCurrentLoop i)
    b (localsTable i) (callStack i) (environments i)
    (functions i) (classes i) (instances i) (stdout i) (clockReads i) (mapRanges i).
Definition set_localsTable (i : Interpreter) (t : gmap ptr Z) : Interpreter :=
  mkInterpreter (env i) (globals i) (currentLoop i) (breakCurrentLoop i)
    (isReturningValue i) t (callStack i) (environments i)
    (functions i) (classes i) (instances i) (stdout i) (clockReads i) (mapRanges i).
Definition set_callStack (i : Interpreter) (c : list Value) : Interpreter :=
  mkInterpreter (env i) (globals i) (currentLoop i) (breakCurrentLoop i)
    (isReturningValue i) (localsTable i) c (environments i)
    (functions i) (classes i) (instances i) (stdout i) (clockReads i) (mapRanges i).
Definition set_environments (i : Interpreter) (h : list Environment)
  : Interpreter :=
  mkInterpreter (env i) (globals i) (currentLoop i) (breakCurrentLoop i)
    (isReturningValue i) (localsTable i) (callStack i) h
    (functions i) (classes i) (instances i) (stdout i) (clockReads i) (mapRanges i).
Definition set_functions (i : Interpreter) (h : list LoxFunction)
  : Interpreter :=
  mkInterpreter (env i) (globals i) (currentLoop i) (breakCurrentLoop i)
    (isReturningValue i) (localsTable i) (callStack i) (environments i)
    h (classes i) (instances i) (stdout i) (clockReads i) (mapRanges i).
Definition set_classes (i : Interpreter) (h : list LoxClass) : Interpreter :=
  mkInterpreter (env i) (globals i) (currentLoop i) (breakCurrentLoop i)
    (isReturningValue i) (localsTable i) (callStack i) (environments i)
    (functions i) h (instances i) (stdout i) (clockReads i) (mapRanges i).
Definition set_instances (i : Interpreter) (h : list LoxInstance)
  : Interpreter :=
  mkInterpreter (env i) (globals i) (currentLoop i) (breakCurrentLoop i)
    (isReturningValue i) (localsTable i) (callStack i) (environments i)
    (functions i) (classes i) h (stdout i) (clockReads i) (mapRanges i).
Definition set_stdout (i : Interpreter) (o : list string) : Interpreter :=
  mkInterpreter (env i) (globals i) (currentLoop i) (breakCurrentLoop i)
    (isReturningValue i) (localsTable i) (callStack i) (environments i)
    (functions i) (classes i) (instances i) o (clockReads i) (mapRanges i).
Definition set_clockReads (i : Interpreter) (n : nat) : Interpreter :=
  mkInterpreter (env i) (globals i) (currentLoop i) (breakCurrentLoop i)
    (isReturningValue i) (localsTable i) (callStack i) (environments i)
    (functions i) (classes i) (instances i) (stdout i) n (mapRanges i).
Definition set_mapRanges (i : Interpreter) (n : nat) : Interpreter :=
  mkInterpreter (env i) (globals i) (currentLoop i) (breakCurrentLoop i)
    (isReturningValue i) (localsTable i) (callStack i) (environments i)
    (functions i) (classes i) (instances i) (stdout i) (clockReads i) n.

(** ** Errors and outcomes *)

(** A Go [error]: a [*RuntimeError] or a plain error carrying a message. *)
Inductive error : Type :=
| RuntimeError (token : Token) (message : string) (callstack : list Value)
| errorString (message : string).

Definition NewRuntimeError (token : Token) (message : string)
  (callstack : list Value) : error :=
  RuntimeError token message callstack.

(** What a call of a method returning [(A, error)] leads to: it returns
    a value and a nil error, or an error; or the Go run time panics; or the
    model ran out of fuel before the call returned.  A return comes with the
    interpreter as the call left it. *)
Inductive Outcome (A : Type) : Type :=
| Ok (a : A) (i : Interpreter)
| Err (e : error) (i : Interpreter)
| Panic (msg : string)
| OutOfFuel.

Arguments Ok {A} a i.
Arguments Err {A} e i.
Arguments Panic {A} msg.
Arguments OutOfFuel {A}.

(** [v, err := r; if err != nil { return nil, err }; k v] *)
Definition bind {A B : Type} (r : Outcome A)
  (k : A -> Interpreter -> Outcome B) : Outcome B :=
  match r with
  | Ok a i => k a i
  | Err e i => Err e i
  | Panic msg => Panic msg
  | OutOfFuel => OutOfFuel
  end.

(** [defer func() { f }()]: [f] runs when the function returns, whatever it
    returns. *)
Definition defer {A : Type} (f : Interpreter -> Interpreter) (r : Outcome A)
  : Outcome A :=
  match r with
  | Ok a i => Ok a (f i)
  | Err e i => Err e (f i)
  | Panic msg => Panic msg
  | OutOfFuel => OutOfFuel
  end.

Notation "'let*' x , i := r 'in' k" := (bind r (fun x i => k))
  (at level 10, x name, i name, r at level 100, k at level 200).

(** ** Numbers *)

(** Go's conversion [int(d)] of a [float64]: the fraction is discarded; for
    a NaN, an infinity or a value outside the 64-bit range Go leaves the
    result to the implementation, and amd64 gives the smallest integer. *)
Definition float64_to_int (d : float) : Z :=
  match Prim2SF d with
  | SpecFloat.S754_zero _ => 0
  | SpecFloat.S754_finite sign m e =>
      let a := if (0 <=? e)%Z then (Z.pos m * 2 ^ e)%Z
               else (Z.pos m / 2 ^ (- e))%Z in
      let v := if sign then (- a)%Z else a in
      if ((- 2 ^ 63 <=? v) && (v <? 2 ^ 63))%Z then v else (- 2 ^ 63)%Z
  | _ => (- 2 ^ 63)%Z
  end.

(** Go's conversion [float64(n)] of an [int]: the nearest double. *)
Definition int_to_float64 (n : Z) : float :=
  SF2Prim (SpecFloat.binary_normalize prec emax n 0 false).

(** ** Environments

    [Environment] is not among the sources: the interpreter uses its field
    [Enclosing] and its methods, which are modelled from the spec. *)

Definition the_env (i : Interpreter) (e : ptr) : Environment :=
  default (mkEnvironment ∅ None) (environments i !! e).

(** Modelled from the spec: [NewEnvironment(enclosing)] allocates an empty
    frame whose parent is [enclosing]. *)
Definition NewEnvironment (enclosing : option ptr) (i : Interpreter)
  : ptr * Interpreter :=
  (length (environments i),
   set_environments i (environments i ++ [mkEnvironment ∅ enclosing])).

(** Modelled from the spec: [define(name, value)] unconditionally binds in
    the frame. *)
Definition Define (e : ptr) (name : string) (value : Value) (i : Interpreter)
  : Interpreter :=
  let E := the_env i e in
  set_environments i
    (<[e := mkEnvironment (<[name := value]> (Values E)) (Enclosing E)]>
       (environments i)).

(** The nearest frame of the chain of [e] that binds [name].  A frame is
    allocated after its parent, so a chain never visits a frame twice and
    has at most as many frames as were allocated. *)
Fixpoint bindingFrame (hops : nat) (i : Interpreter) (e : ptr) (name : string)
  : option ptr :=
  match hops with
  | 0 => None
  | S n =>
      match Values (the_env i e) !! name with
      | Some _ => Some e
      | None =>
          match Enclosing (the_env i e) with
          | Some parent => bindingFrame n i parent name
          | None => None
          end
      end
  end.

Definition undefinedVariable (name : string) : error :=
  errorString ("Undefined variable '" +:+ name +:+ "'").

(** Modelled from the spec: [get(name_token)] walks the chain and returns
    the first binding; if none, it fails [Undefined variable '<name>']. *)
Definition Get (e : ptr) (name : Token) (i : Interpreter) : Outcome Value :=
  match bindingFrame (length (environments i)) i e (Lexeme name) with
  | Some f =>
      match Values (the_env i f) !! Lexeme name with
      | Some v => Ok v i
      | None => Err (undefinedVariable (Lexeme name)) i
      end
  | None => Err (undefinedVariable (Lexeme name)) i
  end.

(** Modelled from the spec: [assign(name_token, value)] walks the chain and
    assigns to the first binding found; if none, it fails; it does not
    define. *)
Definition Assign (e : ptr) (name : Token) (value : Value) (i : Interpreter)
  : Outcome unit :=
  match bindingFrame (length (environments i)) i e (Lexeme name) with
  | Some f => Ok tt (Define f (Lexeme name) value i)
  | None => Err (undefinedVariable (Lexeme name)) i
  end.

(** Exactly [distance] hops along [Enclosing]; [None] when the chain ends
    before. *)
Fixpoint ancestor (i : Interpreter) (e : ptr) (distance : nat) : option ptr :=
  match distance with
  | 0 => Some e
  | S n =>
      match Enclosing (the_env i e) with
      | Some parent => ancestor i parent n
      | None => None
      end
  end.

(** Modelled from the spec: [get_at(depth, name)] hops exactly [depth]
    links and reads that frame without further search; a binding missing in
    that frame is surfaced as an error.  Hopping past the end of the chain
    dereferences a nil pointer. *)
Definition GetAtWithString (e : ptr) (distance : Z) (name : string)
  (i : Interpreter) : Outcome Value :=
  match ancestor i e (Z.to_nat distance) with
  | Some f =>
      match Values (the_env i f) !! name with
      | Some v => Ok v i
      | None => Err (undefinedVariable name) i
      end
  | None => Panic "invalid memory address or nil pointer dereference"
  end.

(** Modelled from the spec: [GetAt] is [get_at] on the lexeme of a token. *)
Definition GetAt (e : ptr) (distance : Z) (name : Token) (i : Interpreter)
  : Outcome Value :=
  GetAtWithString e distance (Lexeme name) i.

(** Modelled from the spec: [assign_at(depth, name, v)] hops exactly
    [depth] links and writes that frame; a binding missing in that frame is
    surfaced as an error. *)
Definition AssignAt (e : ptr) (distance : Z) (name : Token) (value : Value)
  (i : Interpreter) : Outcome unit :=
  match ancestor i e (Z.to_nat distance) with
  | Some f =>
      match Values (the_env i f) !! Lexeme name with
      | Some _ => Ok tt (Define f (Lexeme name) value i)
      | None => Err (undefinedVariable (Lexeme name)) i
      end
  | None => Panic "invalid memory address or nil pointer dereference"
  end.

(** ** Functions, classes and instances

    [LoxFunction], [LoxClass] and [LoxInstance] are not among the sources;
    their constructors and methods are modelled from the spec. *)

Definition the_function (i : Interpreter) (f : ptr) : LoxFunction :=
  default (mkLoxFunction (mkFunDecl Token_zero [] []) 0 false)
    (functions i !! f).

Definition the_class (i : Interpreter) (c : ptr) : LoxClass :=
  default (mkLoxClass "" None ∅) (classes i !! c).

Definition the_instance (i : Interpreter) (o : ptr) : LoxInstance :=
  default (mkLoxInstance 0 ∅) (instances i !! o).

(** Modelled from the spec: a function captures the declaring environment,
    the declaration and the [is_initializer] flag. *)
Definition NewFunction (decl : FunDecl) (closure : ptr) (isInitializer : bool)
  (i : Interpreter) : ptr * Interpreter :=
  (length (functions i),
   set_functions i (functions i ++ [mkLoxFunction decl closure isInitializer])).

(** Modelled from the spec: [Bind(instance)] returns a new function whose
    captured environment is a child of the original, containing
    [this -> instance]. *)
Definition Bind (f : ptr) (instance : ptr) (i : Interpreter)
  : ptr * Interpreter :=
  let F := the_function i f in
  let '(e, i) := NewEnvironment (Some (closure F)) i in
  let i := Define e "this" (VInstance instance) i in
  NewFunction (declaration F) e (isInitializer F) i.

(** Modelled from the spec: a class has a name, an optional superclass and
    a method table. *)
Definition NewLoxClass (name : string) (superclass : option ptr)
  (methods : gmap string ptr) (i : Interpreter) : ptr * Interpreter :=
  (length (classes i),
   set_classes i (classes i ++ [mkLoxClass name superclass methods])).

(** Modelled from the spec: method lookup searches the class, then its
    superclass chain.  A class is allocated after its superclass. *)
Fixpoint findMethodFrom (hops : nat) (i : Interpreter) (c : ptr)
  (name : string) : option ptr :=
  match hops with
  | 0 => None
  | S n =>
      match class_methods (the_class i c) !! name with
      | Some m => Some m
      | None =>
          match superclass (the_class i c) with
          | Some parent => findMethodFrom n i parent name
          | None => None
          end
      end
  end.

Definition findMethod (c : ptr) (name : string) (i : Interpreter)
  : option ptr :=
  findMethodFrom (length (classes i)) i c name.

(** Modelled from the spec: [arity()] of the three callables: the clock
    takes no argument, a function as many as it declares parameters, a
    class as many as its [init] method if any, else none. *)
Definition Arity (callable : Value) (i : Interpreter) : nat :=
  match callable with
  | VFunction f => length (fun_params (declaration (the_function i f)))
  | VClass c =>
      match findMethod c "init" i with
      | Some f => length (fun_params (declaration (the_function i f)))
      | None => 0
      end
  | _ => 0
  end.

Definition undefinedProperty (name : Token) (callstack : list Value) : error :=
  NewRuntimeError name ("Undefined property '" +:+ Lexeme name +:+ "'.")
    callstack.

(** Modelled from the spec: [instance.get(name)] returns a field if
    present, else searches methods on the class chain and returns the
    method bound to this instance; otherwise it errors
    [Undefined property]. *)
Definition LoxInstance_Get (o : ptr) (name : Token) (i : Interpreter)
  : Outcome Value :=
  match fields (the_instance i o) !! Lexeme name with
  | Some v => Ok v i
  | None =>
      match findMethod (class (the_instance i o)) (Lexeme name) i with
      | Some m => let '(f, i) := Bind m o i in Ok (VFunction f) i
      | None => Err (undefinedProperty name []) i
      end
  end.

(** Modelled from the spec: [instance.set(name, value)] unconditionally
    writes the field; the returned error is nil. *)
Definition LoxInstance_Set (o : ptr) (name : Token) (value : Value)
  (i : Interpreter) : Interpreter :=
  let O := the_instance i o in
  set_instances i
    (<[o := mkLoxInstance (class O) (<[Lexeme name := value]> (fields O))]>
       (instances i)).

(** Modelled from the spec: a new instance holds a reference to its class
    and an empty field map. *)
Definition NewLoxInstance (c : ptr) (i : Interpreter) : ptr * Interpreter :=
  (length (instances i), set_instances i (instances i ++ [mkLoxInstance c ∅])).

(** ** The interpreter's methods *)

(** Modelled from the spec: the [ToString] methods of the callables and of
    instances give [<native fn>], [<fn name>], [<class Name>] and
    [<Name instance>]. *)
Definition ToString (i : Interpreter) (v : Value) : string :=
  match v with
  | VClock => "<native fn>"
  | VFunction f =>
      "<fn " +:+ Lexeme (fun_name (declaration (the_function i f))) +:+ ">"
  | VClass c => "<class " +:+ class_name (the_class i c) +:+ ">"
  | VInstance o =>
      "<" +:+ class_name (the_class i (class (the_instance i o)))
      +:+ " instance>"
  | _ => ""
  end.

(** [RuntimeError.callstackToString], over the entries [n-1] down to 0 of
    the call stack: one line per entry, indented by its index.  The type
    assertion on each entry panics ([None]) when the callable is not a
    user function. *)
Fixpoint callstackToString (i : Interpreter) (n : nat) (callstack : list Value)
  : option string :=
  match n with
  | 0 => Some ""
  | S k =>
      match callstack !! k with
      | Some (VFunction f) =>
          option_map
            (fun rest =>
               String.concat "" (repeat " " k) +:+ "[line "
               +:+ Sprintf_d (Z.of_nat (LineNumber
                                (fun_name (declaration (the_function i f)))))
               +:+ "] in " +:+ ToString i (VFunction f) +:+ NEWLINE +:+ rest)
            (callstackToString i k callstack)
      | _ => None
      end
  end.

(** [err.Error()]: the message of a plain error, and [RuntimeError.Error]
    for a run-time error. *)
Definition Error (i : Interpreter) (e : error) : option string :=
  match e with
  | RuntimeError token message callstack =>
      option_map
        (fun trace =>
           Sprintf_d (Z.of_nat (LineNumber token)) +:+ " at '"
           +:+ Lexeme token +:+ "' " +:+ message +:+ NEWLINE +:+ trace)
        (callstackToString i (length callstack) callstack)
  | errorString message => Some message
  end.

(** [return nil, NewRuntimeError(name, err.Error(), i.callStack)] *)
Definition asRuntimeError {A : Type} (name : Token) (err : error)
  (i : Interpreter) : Outcome A :=
  match Error i err with
  | Some message => Err (NewRuntimeError name message (callStack i)) i
  | None => Panic "interface conversion: Callable is not *LoxFunction"
  end.

(** Stand-ins for the Go library, for running the model on concrete
    programs: no number is printed in those runs. *)
Definition verbOnly (verb : string) (f : float) : string := verb.
Definition nodeOnly (e : Expr) : string := "<node>".
Definition frozenClock (n : nat) : float := 0%float.
(** A runtime that happens to visit the entries of every map in the order
    of the source, and one that visits them in the opposite order. *)
Definition sourceOrder (n : nat) (m : list (Token * Expr))
  : list (Token * Expr) := m.
Definition reverseOrder (n : nat) (m : list (Token * Expr))
  : list (Token * Expr) := rev m.

(** The methods depend on a few things that are outside the sources: Go
    library functions and a package variable set before anything runs. *)
Section Lox.

(** [strconv.ParseFloat(text, 64)] of the Go library. *)
Variable ParseFloat : string -> option float.
(** The package variable [useCrossAddition], set once from the command line
    before anything runs. *)
Variable useCrossAddition : bool.
(** [fmt.Sprintf(verb, f)] of the Go library on a [float64]. *)
Variable Sprintf_float : string -> float -> string.
(** The Go library's default formatting of a pointer to an AST node. *)
Variable Sprintf_v : Expr -> string.
(** The wall clock, in seconds, at its successive readings. *)
Variable wallClock : nat -> float.
(** The order in which the Go runtime visits the entries of a map in a
    [range] statement: the language leaves it unspecified and it changes
    from one [range] to the next.  [rangeOrder n m] is the order of the
    [n]-th [range] of the run, over the entries [m]. *)
Variable rangeOrder : nat -> list (Token * Expr) -> list (Token * Expr).

(** [fmt.Println(line)] *)
Definition Println (line : string) (i : Interpreter) : Interpreter :=
  set_stdout i (stdout i ++ [line]).

(** The [float64] case of [Stringify]. *)
Definition Stringify_float64 (d : float) : string :=
  if PrimFloat.eqb d (int_to_float64 (float64_to_int d))
  then Sprintf_float "%.0f" d
  else Sprintf_float "%g" d.

(** Modelled from the spec: the helper [toString] is not among the sources.
    [nil], [true]/[false], the characters of a string, [[e1, e2]] and
    [{k1: v1}] with [Stringify] (here [rec]) on the elements; any other
    value gets the library's default formatting. *)
Definition toString (rec : Value -> string) (d : Value) : string :=
  match d with
  | VNil => "nil"
  | VBool true => "true"
  | VBool false => "false"
  | VString s => s
  | VList l => "[" +:+ String.concat ", " (map rec l) +:+ "]"
  | VDict d =>
      "{" +:+ String.concat ", "
                (map (fun kv => match kv with (k, v) => k +:+ ": " +:+ rec v end) d)
      +:+ "}"
  | VExpr e => Sprintf_v e
  | _ => ""
  end.

(** [Stringify] of the value of a literal node; a literal holds no list
    and no dictionary. *)
Definition Stringify_literal (value : LiteralValue) : string :=
  match value with
  | LNumber f => Stringify_float64 f
  | _ => toString (fun _ => "") (Value_of_literal value)
  end.

Fixpoint Stringify (i : Interpreter) (d : Value) {struct d} : string :=
  match d with
  | VExpr (LiteralExpr _ value) => Stringify_literal value
  | VNumber f => Stringify_float64 f
  | VClock | VFunction _ | VClass _ => ToString i d
  | VInstance _ => ToString i d
  | _ => toString (Stringify i) d
  end.

Definition isTruthy (value : Value) : bool :=
  match value with
  | VNil => false
  | VBool false => false
  | _ => true
  end.

Definition isNumber (v : Value) : bool :=
  match v with VNumber _ => true | _ => false end.
Definition isString (v : Value) : bool :=
  match v with VString _ => true | _ => false end.

Definition isAllNumber (possibles : list Value) : bool :=
  forallb isNumber possibles.
Definition isAllString (possibles : list Value) : bool :=
  forallb isString possibles.
Definition isAllStringOrNumber (possibles : list Value) : bool :=
  forallb (fun possible => negb (negb (isString possible)
                                 && negb (isNumber possible))) possibles.

Definition ResolveExpression (expr : Expr) (depth : Z) (i : Interpreter)
  : Interpreter :=
  set_localsTable i (<[Expr_ptr expr := depth]> (localsTable i)).

Definition lookupTable (name : Token) (expr : ptr) (i : Interpreter)
  : Outcome Value :=
  match localsTable i !! expr with
  | Some depth =>
      match GetAt (env i) depth name i with
      | Err err i => asRuntimeError name err i
      | r => r
      end
  | None =>
      match Get (globals i) name i with
      | Err err i => asRuntimeError name err i
      | r => r
      end
  end.

Definition operandsError (operator : Token) (i : Interpreter) : error :=
  NewRuntimeError operator "Operands must be two numbers or two strings."
    (callStack i).

(** The [switch expr.operator.Type] of [VisitBinaryExpr], on the two
    operand values. *)
Definition binarySwitch (operator : Token) (left right : Value)
  (i : Interpreter) : Outcome Value :=
  let typ := Type_ operator in
  if String.eqb typ MINUS then
    match left, right with
    | VNumber l, VNumber r => Ok (VNumber (l - r)%float) i
    | _, _ => Err (operandsError operator i) i
    end
  else if String.eqb typ SLASH then
    match left, right with
    | VNumber l, VNumber r =>
        if PrimFloat.eqb r 0%float
        then Err (NewRuntimeError operator "Division by zero." (callStack i)) i
        else Ok (VNumber (l / r)%float) i
    | _, _ => Err (operandsError operator i) i
    end
  else if String.eqb typ STAR then
    match left, right with
    | VNumber l, VNumber r => Ok (VNumber (l * r)%float) i
    | _, _ => Err (operandsError operator i) i
    end
  else if String.eqb typ PLUS then
    match left, right with
    | VNumber l, VNumber r => Ok (VNumber (l + r)%float) i
    | VString l, VString r => Ok (VString (l +:+ r)) i
    | _, _ =>
        if useCrossAddition && isAllStringOrNumber [left; right]
        then Ok (VString (Stringify i left +:+ Stringify i right)) i
        else Err (operandsError operator i) i
    end
  else if String.eqb typ GREATER then
    match left, right with
    | VNumber l, VNumber r => Ok (VBool (PrimFloat.ltb r l)) i
    | VString l, VString r => Ok (VBool (String.ltb r l)) i
    | _, _ => Err (operandsError operator i) i
    end
  else if String.eqb typ GREATER_EQUAL then
    match left, right with
    | VNumber l, VNumber r => Ok (VBool (PrimFloat.leb r l)) i
    | VString l, VString r => Ok (VBool (String.leb r l)) i
    | _, _ => Err (operandsError operator i) i
    end
  else if String.eqb typ LESS then
    match left, right with
    | VNumber l, VNumber r => Ok (VBool (PrimFloat.ltb l r)) i
    | VString l, VString r => Ok (VBool (String.ltb l r)) i
    | _, _ => Err (operandsError operator i) i
    end
  else if String.eqb typ LESS_EQUAL then
    match left, right with
    | VNumber l, VNumber r => Ok (VBool (PrimFloat.leb l r)) i
    | VString l, VString r => Ok (VBool (String.leb l r)) i
    | _, _ => Err (operandsError operator i) i
    end
  else if String.eqb typ EQUAL_EQUAL then
    match interface_eq left right with
    | Some b => Ok (VBool b) i
    | None => Panic "runtime error: comparing uncomparable type"
    end
  else if String.eqb typ BANG_EQUAL then
    match interface_eq left right with
    | Some b => Ok (VBool (negb b)) i
    | None => Panic "runtime error: comparing uncomparable type"
    end
  else Ok VNil i.

(** [dict[key]] on a [dictType]. *)
Fixpoint dict_lookup (key : string) (dict : list (string * Value))
  : option Value :=
  match dict with
  | [] => None
  | (k, v) :: rest => if String.eqb k key then Some v else dict_lookup key rest
  end.

Section Visitors.

(** The two entry points every visitor calls back: [i.Evaluate] and
    [i.execute]. *)
Variable Evaluate : Expr -> Interpreter -> Outcome Value.
Variable execute : Stmt -> Interpreter -> Outcome Value.

(** The loop of [executeBlock]; [value] is the named result. *)
Fixpoint blockLoop (statements : list Stmt) (value : Value) (i : Interpreter)
  : Outcome Value :=
  match statements with
  | [] => Ok value i
  | statement :: rest =>
      let* value, i := execute statement i in
      if isReturningValue i then Ok value i else blockLoop rest value i
  end.

Definition executeBlock (statements : list Stmt) (e : ptr) (i : Interpreter)
  : Outcome Value :=
  let previous := env i in
  defer (fun i => set_env i previous)
    (blockLoop statements VNil (set_env i e)).

Definition VisitVarStmt (name : Token) (initializer : option Expr)
  (i : Interpreter) : Outcome Value :=
  let* value, i :=
    match initializer with
    | Some e => Evaluate e i
    | None => Ok VNil i
    end in
  Ok VNil (Define (env i) (Lexeme name) value i).

Definition VisitFunStmt (expr : FunDecl) (i : Interpreter) : Outcome Value :=
  let '(function, i) := NewFunction expr (env i) false i in
  Ok VNil (Define (env i) (Lexeme (fun_name expr)) (VFunction function) i).

(** The loop building the method table of a class. *)
Fixpoint methodsLoop (stmt_methods : list FunDecl) (methods : gmap string ptr)
  (i : Interpreter) : gmap string ptr * Interpreter :=
  match stmt_methods with
  | [] => (methods, i)
  | method :: rest =>
      let '(function, i) :=
        NewFunction method (env i)
          (String.eqb (Lexeme (fun_name method)) "init") i in
      methodsLoop rest (<[Lexeme (fun_name method) := function]> methods) i
  end.

Definition VisitClassStmt (name : Token) (superClass : option (ptr * Token))
  (stmt_methods : list FunDecl) (i : Interpreter) : Outcome Value :=
  let i := Define (env i) (Lexeme name) VNil i in
  let* superclass, i :=
    match superClass with
    | Some (p, superName) =>
        let* spc, i := Evaluate (VariableExpr p superName) i in
        match spc with
        | VClass c => Ok (Some c) i
        | _ => Err (NewRuntimeError superName "Superclass must be a class."
                      (callStack i)) i
        end
    | None => Ok None i
    end in
  let i := Define (env i) (Lexeme name) VNil i in
  let i :=
    match superClass with
    | Some _ =>
        let '(e, i) := NewEnvironment (Some (env i)) i in
        let i := set_env i e in
        Define (env i) "super"
          (match superclass with Some c => VClass c | None => VNil end) i
    | None => i
    end in
  let '(methods, i) := methodsLoop stmt_methods ∅ i in
  let '(class, i) := NewLoxClass (Lexeme name) superclass methods i in
  let finish (i : Interpreter) : Outcome Value :=
    let i := match Assign (env i) name (VClass class) i with
             | Ok _ i' => i'
             | _ => i
             end in
    Ok (VClass class) i in
  match superclass with
  | Some _ =>
      match Enclosing (the_env i (env i)) with
      | Some parent => finish (set_env i parent)
      | None => Panic "invalid memory address or nil pointer dereference"
      end
  | None => finish i
  end.

Definition VisitThisExpr (expr : ptr) (keyword : Token) (i : Interpreter)
  : Outcome Value :=
  lookupTable keyword expr i.

Definition VisitSuperExpr (expr : ptr) (keyword method : Token)
  (i : Interpreter) : Outcome Value :=
  let distance := default 0%Z (localsTable i !! expr) in
  let* spc, i := GetAtWithString (env i) distance "super" i in
  let* object, i := GetAtWithString (env i) (distance - 1) "this" i in
  match object with
  | VInstance o =>
      match spc with
      | VClass c =>
          match findMethod c (Lexeme method) i with
          | None => Err (undefinedProperty method (callStack i)) i
          | Some m => let '(f, i) := Bind m o i in Ok (VFunction f) i
          end
      | _ => Panic "interface conversion: interface {} is not *LoxClass"
      end
  | _ =>
      Err (NewRuntimeError keyword
             "Cannot use 'super' in a class with no superclass."
             (callStack i)) i
  end.

(** The body of the loop of [VisitDictionaryExpr], over the entries in the
    order in which the runtime visits them. *)
Fixpoint dictLoop (mapExpr : list (Token * Expr)) (dict : list (string * Value))
  (i : Interpreter) : Outcome Value :=
  match mapExpr with
  | [] => Ok (VDict dict) i
  | (k, v) :: rest =>
      let* value, i := Evaluate v i in
      match dict_lookup (Lexeme k) dict with
      | Some _ =>
          Err (NewRuntimeError k "Duplicate key in dictionary." (callStack i)) i
      | None => dictLoop rest (dict ++ [(Lexeme k, value)]) i
      end
  end.

(** [for k, v := range expr.mapExpr]: [expr.mapExpr] is a Go map, so the
    entries are visited in the order the runtime picks for this [range],
    not in the order of the source. *)
Definition VisitDictionaryExpr (mapExpr : list (Token * Expr))
  (i : Interpreter) : Outcome Value :=
  dictLoop (rangeOrder (mapRanges i) mapExpr) []
    (set_mapRanges i (S (mapRanges i))).

Definition VisitSelectExpr (object name : Expr) (i : Interpreter)
  : Outcome Value :=
  let* object, i := Evaluate object i in
  match object with
  | VDict dict =>
      let* name, i := Evaluate name i in
      match name with
      | VString key =>
          match dict_lookup key dict with
          | Some value => Ok value i
          | None =>
              Err (NewRuntimeError Token_zero
                     ("Undefined property '" +:+ key +:+ "'.") (callStack i)) i
          end
      | _ => Err (NewRuntimeError Token_zero "Property name must be a string."
                    (callStack i)) i
      end
  | VList list =>
      let* index, i := Evaluate name i in
      match index with
      | VNumber v =>
          let n := float64_to_int v in
          if ((n <? 0) || (Z.of_nat (length list) <=? n))%Z then
            Err (NewRuntimeError Token_zero
                   ("Index out of range: " +:+ Sprintf_d n) (callStack i)) i
          else Ok (nth (Z.to_nat n) list VNil) i
      | _ => Err (NewRuntimeError Token_zero "Index must be a number."
                    (callStack i)) i
      end
  | _ =>
      Err (NewRuntimeError Token_zero
             "Only dictionaries or list can have properties." (callStack i)) i
  end.

(** [for _, e := range es { v, err := i.Evaluate(e); ...;
    values = append(values, v) }] *)
Fixpoint evaluateAll (es : list Expr) (values : list Value) (i : Interpreter)
  : Outcome (list Value) :=
  match es with
  | [] => Ok values i
  | e :: rest =>
      let* value, i := Evaluate e i in
      evaluateAll rest (values ++ [value]) i
  end.

Definition VisitListExpr (values : list Expr) (i : Interpreter)
  : Outcome Value :=
  let* values, i := evaluateAll values [] i in
  Ok (VList values) i.

Definition VisitExpressionStmt (expression : Expr) (i : Interpreter)
  : Outcome Value :=
  let* _, i := Evaluate expression i in
  Ok VNil i.

Definition VisitPrintStmt (expression : Expr) (i : Interpreter)
  : Outcome Value :=
  let* value, i := Evaluate expression i in
  Ok VNil (Println (Stringify i value) i).

Definition VisitIfStmt (condition : Expr) (thenBranch : Stmt)
  (elseBranch : option Stmt) (i : Interpreter) : Outcome Value :=
  let* condition, i := Evaluate condition i in
  if isTruthy condition then execute thenBranch i
  else match elseBranch with
       | Some elseBranch => execute elseBranch i
       | None => Ok VNil i
       end.

(** The [for i.isTruthy(condition)] loop of [VisitWhileStmt]; the number of
    rounds the model allows is its fuel. *)
Fixpoint whileLoop (rounds : nat) (cond : Expr) (body : Stmt)
  (condition : Value) (i : Interpreter) {struct rounds} : Outcome Value :=
  if isTruthy condition then
    match rounds with
    | 0 => OutOfFuel
    | S n =>
        let* _, i := execute body i in
        let* condition, i := Evaluate cond i in
        whileLoop n cond body condition i
    end
  else Ok VNil i.

Definition VisitWhileStmt (rounds : nat) (expr : Stmt) (cond : Expr)
  (body : Stmt) (i : Interpreter) : Outcome Value :=
  let i := set_currentLoop i (Some expr) in
  defer (fun i => set_breakCurrentLoop (set_currentLoop i None) false)
    (let* condition, i := Evaluate cond i in
     whileLoop rounds cond body condition i).

Definition VisitBreakStmt (i : Interpreter) : Outcome Value :=
  Ok VNil (set_breakCurrentLoop i true).

Definition VisitReturnStmt (value : option Expr) (i : Interpreter)
  : Outcome Value :=
  let* value, i :=
    match value with
    | Some e => Evaluate e i
    | None => Ok VNil i
    end in
  Ok value (set_isReturningValue i true).

Definition VisitBlockStmt (statements : list Stmt) (i : Interpreter)
  : Outcome Value :=
  let '(e, i) := NewEnvironment (Some (env i)) i in
  executeBlock statements e i.

Definition VisitAssignExpr (expr : ptr) (name : Token) (value : Expr)
  (i : Interpreter) : Outcome Value :=
  let* value, i := Evaluate value i in
  let r := match localsTable i !! expr with
           | Some distance => AssignAt (env i) distance name value i
           | None => Assign (globals i) name value i
           end in
  match r with
  | Ok _ i => Ok value i
  | Err err i => asRuntimeError name err i
  | Panic msg => Panic msg
  | OutOfFuel => OutOfFuel
  end.

Definition VisitLogicalExpr (left : Expr) (operator : Token) (right : Expr)
  (i : Interpreter) : Outcome Value :=
  let* left, i := Evaluate left i in
  if String.eqb (Type_ operator) OR && isTruthy left then Ok left i
  else if String.eqb (Type_ operator) AND && negb (isTruthy left) then Ok left i
  else Evaluate right i.

Definition VisitTernaryExpr (condition left right : Expr) (i : Interpreter)
  : Outcome Value :=
  let* condition, i := Evaluate condition i in
  if isTruthy condition then Evaluate left i else Evaluate right i.

Definition VisitUnaryExpr (operator : Token) (right : Expr) (i : Interpreter)
  : Outcome Value :=
  let* right, i := Evaluate right i in
  if String.eqb (Type_ operator) MINUS then
    match right with
    | VNumber r => Ok (VNumber (- r)%float) i
    | _ => Err (NewRuntimeError operator "Operand must be a number."
                  (callStack i)) i
    end
  else if String.eqb (Type_ operator) BANG then
    Ok (VBool (negb (isTruthy right))) i
  else Ok VNil i.

(** Modelled from the spec: calling a user function creates a new
    environment whose parent is the captured one, binds the parameters to
    the arguments and executes the body as a block; when
    [is_returning_value] is set the call returns the value and resets the
    flag; an initializer yields [this] from the instance environment, also
    when it falls off the end of the body; otherwise falling off the end
    yields nil. *)
Definition LoxFunction_Call (f : ptr) (arguments : list Value)
  (i : Interpreter) : Outcome Value :=
  let F := the_function i f in
  let '(e, i) := NewEnvironment (Some (closure F)) i in
  let i := fold_left (fun i pa => Define e (Lexeme (fst pa)) (snd pa) i)
             (combine (fun_params (declaration F)) arguments) i in
  let* value, i := executeBlock (fun_body (declaration F)) e i in
  if isInitializer F then
    let* this, i := GetAtWithString (closure F) 0 "this" i in
    Ok this (set_isReturningValue i false)
  else if isReturningValue i then Ok value (set_isReturningValue i false)
  else Ok VNil i.

(** Modelled from the spec: calling a class produces a new instance; if
    [init] is defined it is bound to the instance and invoked with the
    arguments. *)
Definition LoxClass_Call (c : ptr) (arguments : list Value) (i : Interpreter)
  : Outcome Value :=
  let '(o, i) := NewLoxInstance c i in
  match findMethod c "init" i with
  | Some m =>
      let '(f, i) := Bind m o i in
      let* _, i := LoxFunction_Call f arguments i in
      Ok (VInstance o) i
  | None => Ok (VInstance o) i
  end.

(** Modelled from the spec: the built-in [clock] returns the current
    wall-clock seconds as a number. *)
Definition Clock_Call (i : Interpreter) : Outcome Value :=
  Ok (VNumber (wallClock (clockReads i))) (set_clockReads i (S (clockReads i))).

(** [callable.Call(i, arguments)], by the dynamic type of the callable. *)
Definition Call (callable : Value) (arguments : list Value) (i : Interpreter)
  : Outcome Value :=
  match callable with
  | VClock => Clock_Call i
  | VFunction f => LoxFunction_Call f arguments i
  | VClass c => LoxClass_Call c arguments i
  | _ => Panic "not a Callable"
  end.

Definition VisitCallExpr (callee : Expr) (paren : Token)
  (arguments : list Expr) (i : Interpreter) : Outcome Value :=
  defer (fun i => set_isReturningValue i false)
    (let* callee, i := Evaluate callee i in
     let* arguments, i := evaluateAll arguments [] i in
     if negb (isCallable callee) then
       Err (NewRuntimeError paren "Can only call functions and classes."
              (callStack i)) i
     else if negb (length arguments =? Arity callee i)%nat then
       Err (NewRuntimeError paren
              ("Expected " +:+ Sprintf_d (Z.of_nat (Arity callee i))
               +:+ " arguments but got "
               +:+ Sprintf_d (Z.of_nat (length arguments)) +:+ ".")
              (callStack i)) i
     else
       let i := set_callStack i (callStack i ++ [callee]) in
       defer (fun i => set_callStack i
                         (take (length (callStack i) - 1) (callStack i)))
         (Call callee arguments i)).

Definition VisitGetExpr (object : Expr) (name : Token) (i : Interpreter)
  : Outcome Value :=
  let* object, i := Evaluate object i in
  match object with
  | VInstance instance => LoxInstance_Get instance name i
  | _ => Err (NewRuntimeError name "Only instances have properties."
                (callStack i)) i
  end.

(** [return nil, instance.Set(expr.name, expr.value)]: what is handed to
    [Set] is the node [expr.value] itself. *)
Definition VisitSetExpr (object : Expr) (name : Token) (value : Expr)
  (i : Interpreter) : Outcome Value :=
  let* object, i := Evaluate object i in
  match object with
  | VInstance instance => Ok VNil (LoxInstance_Set instance name (VExpr value) i)
  | _ => Err (NewRuntimeError name "Only instances have fields."
                (callStack i)) i
  end.

Definition VisitBinaryExpr (left : Expr) (operator : Token) (right : Expr)
  (i : Interpreter) : Outcome Value :=
  let* left, i := Evaluate left i in
  let* right, i := Evaluate right i in
  binarySwitch operator left right i.

Definition VisitLiteralExpr (value : LiteralValue) (i : Interpreter)
  : Outcome Value :=
  Ok (Value_of_literal value) i.

Definition VisitGroupingExpr (expression : Expr) (i : Interpreter)
  : Outcome Value :=
  Evaluate expression i.

Definition VisitVariableExpr (expr : ptr) (name : Token) (i : Interpreter)
  : Outcome Value :=
  let* v, i := lookupTable name expr i in
  match v with
  | VExpr (LiteralExpr _ value) => Ok (Value_of_literal value) i
  | _ => Ok v i
  end.

(** [expr.Accept(i)]: the visitor method of the node's type. *)
Definition Expr_Accept (expr : Expr) (i : Interpreter) : Outcome Value :=
  match expr with
  | LiteralExpr _ value => VisitLiteralExpr value i
  | GroupingExpr _ expression => VisitGroupingExpr expression i
  | UnaryExpr _ operator r => VisitUnaryExpr operator r i
  | BinaryExpr _ l operator r => VisitBinaryExpr l operator r i
  | LogicalExpr _ l operator r => VisitLogicalExpr l operator r i
  | TernaryExpr _ condition l r => VisitTernaryExpr condition l r i
  | VariableExpr p name => VisitVariableExpr p name i
  | AssignExpr p name value => VisitAssignExpr p name value i
  | CallExpr _ callee paren arguments => VisitCallExpr callee paren arguments i
  | GetExpr _ object name => VisitGetExpr object name i
  | SetExpr _ object name value => VisitSetExpr object name value i
  | ThisExpr p keyword => VisitThisExpr p keyword i
  | SuperExpr p keyword method => VisitSuperExpr p keyword method i
  | ListExpr _ values => VisitListExpr values i
  | DictionaryExpr _ mapExpr => VisitDictionaryExpr mapExpr i
  | SelectExpr _ object name => VisitSelectExpr object name i
  end.

(** [stmt.Accept(i)] *)
Definition Stmt_Accept (rounds : nat) (stmt : Stmt) (i : Interpreter)
  : Outcome Value :=
  match stmt with
  | ExpressionStmt expression => VisitExpressionStmt expression i
  | PrintStmt expression => VisitPrintStmt expression i
  | VarStmt name initializer => VisitVarStmt name initializer i
  | BlockStmt statements => VisitBlockStmt statements i
  | IfStmt condition thenBranch elseBranch =>
      VisitIfStmt condition thenBranch elseBranch i
  | WhileStmt condition body => VisitWhileStmt rounds stmt condition body i
  | BreakStmt => VisitBreakStmt i
  | FunStmt f => VisitFunStmt f i
  | ReturnStmt _ value => VisitReturnStmt value i
  | ClassStmt name superClass methods => VisitClassStmt name superClass methods i
  end.

(** The loop of [Interpret]; [value] is the named result. *)
Fixpoint interpretLoop (expr : list Stmt) (value : Value) (i : Interpreter)
  : Outcome Value :=
  match expr with
  | [] => Ok value i
  | stmt :: rest =>
      let* value, i := execute stmt i in
      interpretLoop rest value i
  end.

End Visitors.

(** [i.Evaluate] and [i.execute]: the fuel bounds the depth of the nested
    calls of the two, and the rounds of a loop. *)
Fixpoint Evaluate (fuel : nat) (expr : Expr) (i : Interpreter)
  : Outcome Value :=
  match fuel with
  | 0 => OutOfFuel
  | S n =>
      if breakCurrentLoop i then Ok VNil i
      else Expr_Accept (Evaluate n) (execute n) expr i
  end
with execute (fuel : nat) (stmt : Stmt) (i : Interpreter) : Outcome Value :=
  match fuel with
  | 0 => OutOfFuel
  | S n =>
      if breakCurrentLoop i then Ok VNil i
      else
        let* value, i := Stmt_Accept (Evaluate n) (execute n) n stmt i in
        Ok value i
  end.

Definition Interpret (fuel : nat) (expr : list Stmt) (i : Interpreter)
  : Outcome Value :=
  interpretLoop (execute fuel) expr VNil i.

(** [NewInterpreter(nil)]: a fresh global environment with [clock]. *)
Definition NewInterpreter : Interpreter :=
  let i := mkInterpreter 0 0 None false false ∅ [] [] [] [] [] [] 0 0 in
  let '(e, i) := NewEnvironment None i in
  let i := Define e "clock" VClock i in
  mkInterpreter e e None false false ∅ [] (environments i) (functions i)
    (classes i) (instances i) (stdout i) (clockReads i) (mapRanges i).

(** [NewInterpreter(nil)] after [resolver.Resolve(statements...)]: the
    resolver is not among the sources; what it does to the interpreter is
    the list of its [ResolveExpression] calls. *)
Definition resolvedInterpreter (resolved : list (Expr * Z)) : Interpreter :=
  fold_left (fun i r => ResolveExpression (fst r) (snd r) i) resolved
    NewInterpreter.


(** ** Notions used to state the properties *)

(** The call returned, with a value or with an error, and left the
    interpreter [i']. *)
Definition returns {A : Type} (r : Outcome A) (i' : Interpreter) : Prop :=
  (exists a, r = Ok a i') \/ (exists e, r = Err e i').

(** The call stack after a return is the one of [i]. *)
Definition same_stack {A : Type} (i : Interpreter) (r : Outcome A) : Prop :=
  match r with
  | Ok _ i' | Err _ i' => callStack i' = callStack i
  | _ => True
  end.

Definition ev_keeps_stack (ev : Expr -> Interpreter -> Outcome Value) : Prop :=
  forall e i, same_stack i (ev e i).
Definition ex_keeps_stack (ex : Stmt -> Interpreter -> Outcome Value) : Prop :=
  forall s i, same_stack i (ex s i).

(** [r'] is what [r] is, unless [r] ran out of fuel. *)
Definition settled {A : Type} (r r' : Outcome A) : Prop :=
  r <> OutOfFuel -> r' = r.

Definition ev_settled (ev ev' : Expr -> Interpreter -> Outcome Value) : Prop :=
  forall e i, settled (ev e i) (ev' e i).
Definition ex_settled (ex ex' : Stmt -> Interpreter -> Outcome Value) : Prop :=
  forall s i, settled (ex s i) (ex' s i).

(** The scanner went from [s] to [s'] on the same source without moving
    backwards. *)
Definition scanned (s s' : Scanner) : Prop :=
  Source s' = Source s /\ (current s <= current s')%nat.

(** The expressions [es] are evaluated one after the other from left to
    right, starting in [i]: each one returns a value, and the next one
    starts in the interpreter the previous one left. *)
Inductive evaluatedInOrder (ev : Expr -> Interpreter -> Outcome Value)
  : list Expr -> Interpreter -> list Value -> Interpreter -> Prop :=
| inOrder_nil i : evaluatedInOrder ev [] i [] i
| inOrder_cons e es i v i1 vs i2 :
    ev e i = Ok v i1 ->
    evaluatedInOrder ev es i1 vs i2 ->
    evaluatedInOrder ev (e :: es) i (v :: vs) i2.

(** The interpreter a run ends with, and the value it returned. *)
Definition final {A : Type} (r : Outcome A) : option Interpreter :=
  match r with
  | Ok _ i => Some i
  | _ => None
  end.

Definition returned {A : Type} (r : Outcome A) : option A :=
  match r with
  | Ok a _ => Some a
  | _ => None
  end.

(** The global variable [name] of an interpreter. *)
Definition global (name : string) (i : Interpreter) : option Value :=
  Values (the_env i (globals i)) !! name.

(** The interpreter after a program ran. *)
Definition interpreterAfter (fuel : nat) (statements : list Stmt)
  (resolved : list (Expr * Z)) : Interpreter :=
  default NewInterpreter
    (final (Interpret fuel statements (resolvedInterpreter resolved))).

(** ** Programs used below, as the parser builds them *)

Definition tok (typ : TokenType) (lexeme : string) : Token :=
  mkToken typ lexeme LitNil 1.
Definition ident (lexeme : string) : Token := tok IDENTIFIER lexeme.
Definition number_ (p : ptr) (f : float) : Expr := LiteralExpr p (LNumber f).

(** [fun f() { var i = 0; while (i < 1) { i = i + 1; return 5; } }
     var r = f();] *)
Definition returnInWhile : list Stmt :=
  [ FunStmt (mkFunDecl (ident "f") []
      [ VarStmt (ident "i") (Some (number_ 1 0));
        WhileStmt
          (BinaryExpr 2 (VariableExpr 3 (ident "i")) (tok LESS "<")
             (number_ 4 1))
          (BlockStmt
             [ ExpressionStmt
                 (AssignExpr 5 (ident "i")
                    (BinaryExpr 6 (VariableExpr 7 (ident "i")) (tok PLUS "+")
                       (number_ 8 1)));
               ReturnStmt (tok RETURN "return") (Some (number_ 9 5)) ]) ]);
    VarStmt (ident "r")
      (Some (CallExpr 10 (VariableExpr 11 (ident "f")) (tok RIGHT_PAREN ")")
               [])) ].

(** What the resolver records for it: [i] is local to the body of [f], one
    scope up from the block of the loop. *)
Definition returnInWhile_resolved : list (Expr * Z) :=
  [ (VariableExpr 3 (ident "i"), 0%Z);
    (AssignExpr 5 (ident "i") (number_ 0 0), 1%Z);
    (VariableExpr 7 (ident "i"), 1%Z) ].

(** The same function with the [return] directly in the body:
    [fun f() { return 5; } var r = f();] *)
Definition returnInBody : list Stmt :=
  [ FunStmt (mkFunDecl (ident "f") []
      [ ReturnStmt (tok RETURN "return") (Some (number_ 9 5)) ]);
    VarStmt (ident "r")
      (Some (CallExpr 10 (VariableExpr 11 (ident "f")) (tok RIGHT_PAREN ")")
               [])) ].

(** [while (true) { return 1; }] *)
Definition literalTrue : Expr := LiteralExpr 1 (LBool true).
Definition returnOne : Stmt :=
  BlockStmt [ ReturnStmt (tok RETURN "return") (Some (number_ 2 1)) ].
Definition endlessLoop : Stmt := WhileStmt literalTrue returnOne.

(** The node of [1 + 2]. *)
Definition onePlusTwo : Expr :=
  BinaryExpr 4 (number_ 5 1) (tok PLUS "+") (number_ 6 2).

(** [class A {} var a = A(); var r = (a.x = 1 + 2);] *)
Definition setField : list Stmt :=
  [ ClassStmt (ident "A") None [];
    VarStmt (ident "a")
      (Some (CallExpr 1 (VariableExpr 2 (ident "A")) (tok RIGHT_PAREN ")") []));
    VarStmt (ident "r")
      (Some (SetExpr 3 (VariableExpr 7 (ident "a")) (ident "x") onePlusTwo)) ].

(** [var r = [1] == [1];] *)
Definition listEquality : list Stmt :=
  [ VarStmt (ident "r")
      (Some (BinaryExpr 1 (ListExpr 2 [number_ 3 1]) (tok EQUAL_EQUAL "==")
               (ListExpr 4 [number_ 5 1]))) ].

(** [print "hi";] *)
Definition printHi : list Stmt :=
  [ PrintStmt (LiteralExpr 1 (LString "hi")) ].

(** [fun f() { return 1 / 0; }], and the call [f()]. *)
Definition divideByZero : Stmt :=
  FunStmt (mkFunDecl (ident "f") []
    [ ReturnStmt (tok RETURN "return")
        (Some (BinaryExpr 1 (number_ 2 1) (tok SLASH "/") (number_ 3 0))) ]).
Definition callF : Expr :=
  CallExpr 10 (VariableExpr 11 (ident "f")) (tok RIGHT_PAREN ")") [].





(** ** Notions used to state the further properties *)

(** What the rest of a program can see of the interpreter apart from the
    heap and the two flags: the current and the global environment, the
    depth map, the call stack and what was printed. *)
Definition visible_eq (i j : Interpreter) : Prop :=
  env j = env i /\ globals j = globals i /\ localsTable j = localsTable i
  /\ callStack j = callStack i /\ stdout j = stdout i.

(** [j] is [i] up to the heap, the flags and the current environment. *)
Definition but_env (i j : Interpreter) : Prop :=
  globals j = globals i /\ localsTable j = localsTable i
  /\ callStack j = callStack i /\ stdout j = stdout i.

(** [j] is [i] up to the heap, the flags and the call stack. *)
Definition but_stack (i j : Interpreter) : Prop :=
  env j = env i /\ globals j = globals i /\ localsTable j = localsTable i
  /\ stdout j = stdout i.

(** A relation between the interpreter before and after that every step of
    the interpreter keeps: it is transitive, it holds when nothing visible
    changed and when a line was printed, and it holds across a scope (the
    environment is switched, something runs, the environment is switched
    back) and across a call frame (a callable is pushed, something runs,
    the last entry is popped). *)
Record kept_by_steps (R : Interpreter -> Interpreter -> Prop) : Prop := {
  kept_trans : forall i j k, R i j -> R j k -> R i k;
  kept_same : forall i j, visible_eq i j -> R i j;
  kept_print : forall i j line,
      env j = env i -> globals j = globals i ->
      localsTable j = localsTable i -> callStack j = callStack i ->
      stdout j = stdout i ++ [line] ->
      R i j;
  kept_scope : forall i a j k,
      but_env i a -> R a j -> but_env j k -> env k = env i -> R i k;
  kept_frame : forall i a j k c,
      but_stack i a -> callStack a = callStack i ++ [c] -> R a j ->
      but_stack j k ->
      callStack k = take (length (callStack j) - 1) (callStack j) ->
      R i k
}.

(** [R] holds between [i] and the interpreter a return left. *)
Definition kept {A : Type} (R : Interpreter -> Interpreter -> Prop)
  (i : Interpreter) (r : Outcome A) : Prop :=
  match r with
  | Ok _ i' | Err _ i' => R i i'
  | _ => True
  end.

Definition ev_keeps (R : Interpreter -> Interpreter -> Prop)
  (ev : Expr -> Interpreter -> Outcome Value) : Prop :=
  forall e i, kept R i (ev e i).
Definition ex_keeps (R : Interpreter -> Interpreter -> Prop)
  (ex : Stmt -> Interpreter -> Outcome Value) : Prop :=
  forall s i, kept R i (ex s i).

(** The environment, the globals and the depth map are the same. *)
Definition same_scope (i j : Interpreter) : Prop :=
  env j = env i /\ globals j = globals i /\ localsTable j = localsTable i.

(** Standard output was only appended to. *)
Definition printed_more (i j : Interpreter) : Prop :=
  exists lines, stdout j = stdout i ++ lines.

(** The environment, the globals, the depth map and the call stack are the
    same. *)
Definition same_frame (i j : Interpreter) : Prop :=
  env j = env i /\ globals j = globals i /\ localsTable j = localsTable i
  /\ callStack j = callStack i.

(** The kind of a value: the dynamic type of the [interface{}]. *)
Definition variant (v : Value) : nat :=
  match v with
  | VNil => 0 | VBool _ => 1 | VNumber _ => 2 | VString _ => 3
  | VList _ => 4 | VDict _ => 5 | VClock => 6 | VFunction _ => 7
  | VClass _ => 8 | VInstance _ => 9 | VExpr _ => 10
  end.

Definition isBool (v : Value) : bool :=
  match v with VBool _ => true | _ => false end.

Definition isUserFunction (v : Value) : bool :=
  match v with VFunction _ => true | _ => false end.

(** A block stops after the statement that left this outcome: an error, or
    a return with [isReturningValue] set. *)
Definition stops_block (r : Outcome Value) : Prop :=
  match r with
  | Ok _ i => isReturningValue i = true
  | _ => True
  end.


(** The number of newline bytes of [text]. *)
Fixpoint newlines (text : string) : nat :=
  match text with
  | EmptyString => 0
  | String c rest =>
      (if Ascii.eqb c (ascii_of_nat 10) then 1 else 0) + newlines rest
  end.

(** The numbers of [l] never decrease from left to right. *)
Definition nondecreasing (l : list nat) : Prop :=
  forall a b x y, (a <= b)%nat -> l !! a = Some x -> l !! b = Some y ->
                  (x <= y)%nat.

(** The scanner went from [s] to [s'] over the same source, forwards; it
    counted the newlines of the bytes it passed; and it appended the tokens
    [ts], none of them [EOF], each on a line between the one of [s] and
    the one of [s'], in line order. *)
Definition scans (s s' : Scanner) (ts : list Token) : Prop :=
  Source s' = Source s
  /\ (current s <= current s')%nat
  /\ line s' = (line s
                + newlines (slice (Source s) (current s) (current s')))%nat
  /\ Tokens s' = Tokens s ++ ts
  /\ Forall (fun t => Type_ t <> EOF
                      /\ (line s <= LineNumber t <= line s')%nat) ts
  /\ nondecreasing (LineNumber <$> ts).

(** The token list grew by at most one token. *)
Definition scans1 (s s' : Scanner) : Prop :=
  exists ts, scans s s' ts /\ (length ts <= 1)%nat.

(** What a Variable expression gives for a binding that holds [v]: the
    value of a literal node, any other value as it is. *)
Definition read_back (v : Value) : Value :=
  match v with
  | VExpr (LiteralExpr _ value) => Value_of_literal value
  | _ => v
  end.

(** [r'] is what [r] is, unless [r] is the return of an error. *)
Definition unless_error {A : Type} (r r' : Outcome A) : Prop :=
  match r with
  | Err _ _ => True
  | _ => r' = r
  end.

Definition ev_unless_error (ev ev' : Expr -> Interpreter -> Outcome Value)
  : Prop :=
  forall e i, unless_error (ev e i) (ev' e i).
Definition ex_unless_error (ex ex' : Stmt -> Interpreter -> Outcome Value)
  : Prop :=
  forall s i, unless_error (ex s i) (ex' s i).

(** [class A {} var a = A();] *)
Definition newInstance : list Stmt :=
  [ ClassStmt (ident "A") None [];
    VarStmt (ident "a")
      (Some (CallExpr 1 (VariableExpr 2 (ident "A")) (tok RIGHT_PAREN ")")
               [])) ].

(** [return 1;] *)
Definition returnStmt : Stmt :=
  ReturnStmt (tok RETURN "return") (Some (number_ 2 1)).

(** The entries of the literal [{a: 1, b: 2}]. *)
Definition twoKeys : list (Token * Expr) :=
  [ (ident "a", number_ 1 1); (ident "b", number_ 2 2) ].

(** [class A {} var a = A(); a.x = 5; var y = a.x;] *)
Definition fieldCopy : list Stmt :=
  newInstance
  ++ [ ExpressionStmt
         (SetExpr 3 (VariableExpr 7 (ident "a")) (ident "x") (number_ 4 5));
       VarStmt (ident "y")
         (Some (GetExpr 8 (VariableExpr 9 (ident "a")) (ident "x"))) ].

(** * Properties *)

(** ** The call stack is left alone *)

Lemma same_stack_trans {A : Type} i i1 (r : Outcome A) :
  callStack i1 = callStack i -> same_stack i1 r -> same_stack i r.
Proof.
  destruct r; simpl; intros H1 H2; try exact I; congruence.
Qed.

Lemma same_stack_bind {A B : Type} i (r : Outcome A)
  (k : A -> Interpreter -> Outcome B) :
  same_stack i r -> (forall a i1, same_stack i1 (k a i1)) ->
  same_stack i (bind r k).
Proof.
  intros Hr Hk. destruct r as [a i1|e i1| |]; simpl in *; auto.
  eapply same_stack_trans; eauto.
Qed.

Lemma same_stack_defer {A : Type} i (r : Outcome A) f :
  (forall j, callStack (f j) = callStack j) ->
  same_stack i r -> same_stack i (defer f r).
Proof.
  intros Hf Hr. destruct r; simpl in *; auto; rewrite Hf; exact Hr.
Qed.

Lemma same_stack_returns {A : Type} i (r : Outcome A) i' :
  same_stack i r -> returns r i' -> callStack i' = callStack i.
Proof.
  intros Hs [[a ->]|[e ->]]; exact Hs.
Qed.

(** Reading and writing environments leaves the call stack alone. *)
Lemma GetAtWithString_same_stack e d name i :
  same_stack i (GetAtWithString e d name i).
Proof.
  unfold GetAtWithString. repeat case_match; simpl; auto.
Qed.

Lemma Get_same_stack e name i : same_stack i (Get e name i).
Proof.
  unfold Get. repeat case_match; simpl; auto.
Qed.

Lemma Assign_same_stack e name v i : same_stack i (Assign e name v i).
Proof.
  unfold Assign. repeat case_match; simpl; auto.
Qed.

Lemma AssignAt_same_stack e d name v i : same_stack i (AssignAt e d name v i).
Proof.
  unfold AssignAt. repeat case_match; simpl; auto.
Qed.

Lemma asRuntimeError_same_stack {A : Type} name err i j :
  callStack j = callStack i -> same_stack i (@asRuntimeError A name err j).
Proof.
  intros H. unfold asRuntimeError. destruct (Error j err); simpl; auto.
Qed.

Lemma lookupTable_same_stack name p i : same_stack i (lookupTable name p i).
Proof.
  unfold lookupTable, GetAt.
  destruct (localsTable i !! p) as [d|].
  - pose proof (GetAtWithString_same_stack (env i) d (Lexeme name) i) as H.
    destruct (GetAtWithString (env i) d (Lexeme name) i); simpl in *; auto.
    apply asRuntimeError_same_stack; exact H.
  - pose proof (Get_same_stack (globals i) name i) as H.
    destruct (Get (globals i) name i); simpl in *; auto.
    apply asRuntimeError_same_stack; exact H.
Qed.

Lemma LoxInstance_Get_same_stack o name i :
  same_stack i (LoxInstance_Get o name i).
Proof.
  unfold LoxInstance_Get, Bind, NewEnvironment, NewFunction.
  destruct (fields (the_instance i o) !! Lexeme name); simpl; auto.
  destruct (findMethod (class (the_instance i o)) (Lexeme name) i);
    simpl; auto.
Qed.

Lemma binarySwitch_same_stack operator l r i :
  same_stack i (binarySwitch operator l r i).
Proof.
  unfold binarySwitch. repeat case_match; simpl; auto.
Qed.

(** One step of the routine argument: the visitors are made of [bind],
    case distinctions and calls of the two entry points. *)
Ltac stack_step :=
  first
    [ exact I
    | reflexivity
    | assumption
    | apply same_stack_bind; [| intros ? ?]
    | match goal with
      | H : ev_keeps_stack ?ev |- same_stack _ (?ev _ _) =>
          eapply same_stack_trans; [| apply H]; reflexivity
      | H : ex_keeps_stack ?ex |- same_stack _ (?ex _ _) =>
          eapply same_stack_trans; [| apply H]; reflexivity
      | |- same_stack _ (match ?x with _ => _ end) => destruct x
      end
    | progress simpl ].

Ltac stack_steps := repeat stack_step.

Lemma blockLoop_same_stack ex statements :
  ex_keeps_stack ex ->
  forall value i, same_stack i (blockLoop ex statements value i).
Proof.
  intros Hex. induction statements as [|s rest IH]; intros value i; simpl.
  - reflexivity.
  - apply same_stack_bind; [apply Hex|]. intros a i1.
    destruct (isReturningValue i1); [reflexivity | apply IH].
Qed.

Lemma executeBlock_same_stack ex statements e i :
  ex_keeps_stack ex -> same_stack i (executeBlock ex statements e i).
Proof.
  intros Hex. unfold executeBlock. apply same_stack_defer; [reflexivity|].
  eapply same_stack_trans; [| apply blockLoop_same_stack; exact Hex].
  reflexivity.
Qed.

Lemma evaluateAll_same_stack ev es :
  ev_keeps_stack ev ->
  forall values i, same_stack i (evaluateAll ev es values i).
Proof.
  intros Hev. induction es as [|e rest IH]; intros values i; simpl.
  - reflexivity.
  - apply same_stack_bind; [apply Hev|]. intros a i1. apply IH.
Qed.

Lemma dictLoop_same_stack ev mapExpr :
  ev_keeps_stack ev ->
  forall dict i, same_stack i (dictLoop ev mapExpr dict i).
Proof.
  intros Hev. induction mapExpr as [|[k v] rest IH]; intros dict i; simpl.
  - reflexivity.
  - apply same_stack_bind; [apply Hev|]. intros a i1.
    destruct (dict_lookup (Lexeme k) dict); [reflexivity | apply IH].
Qed.

Lemma whileLoop_same_stack ev ex rounds cond body :
  ev_keeps_stack ev -> ex_keeps_stack ex ->
  forall condition i, same_stack i (whileLoop ev ex rounds cond body condition i).
Proof.
  intros Hev Hex. induction rounds as [|n IH]; intros condition i; simpl.
  - destruct (isTruthy condition); simpl; auto.
  - destruct (isTruthy condition); [| reflexivity].
    apply same_stack_bind; [apply Hex|]. intros _ i1.
    apply same_stack_bind; [apply Hev|]. intros c i2. apply IH.
Qed.

Lemma methodsLoop_callStack stmt_methods :
  forall methods i,
    callStack (snd (methodsLoop stmt_methods methods i)) = callStack i.
Proof.
  induction stmt_methods as [|m rest IH]; intros methods i; simpl.
  - reflexivity.
  - rewrite IH. reflexivity.
Qed.

Lemma VisitClassStmt_same_stack ev name superClass stmt_methods i :
  ev_keeps_stack ev ->
  same_stack i (VisitClassStmt ev name superClass stmt_methods i).
Proof.
  intros Hev. unfold VisitClassStmt.
  eapply same_stack_trans with (i1 := Define (env i) (Lexeme name) VNil i);
    [reflexivity|].
  apply same_stack_bind.
  - destruct superClass as [[p superName]|]; [| reflexivity].
    apply same_stack_bind; [apply Hev|]. intros spc i1.
    destruct spc; reflexivity.
  - intros superclass i1.
    match goal with
    | |- same_stack _ (let '(methods, i) := methodsLoop ?ms ?m0 ?j in _) =>
        pose proof (methodsLoop_callStack ms m0 j) as Hm;
        destruct (methodsLoop ms m0 j) as [methods i2]
    end.
    simpl in Hm. unfold NewLoxClass.
    assert (Hst : callStack i2 = callStack i1).
    { rewrite Hm. destruct superClass; reflexivity. }
    clear Hm.
    assert (Hfin : forall j c, callStack j = callStack i1 ->
              same_stack i1
                (Ok (VClass c)
                   match Assign (env j) name (VClass c) j with
                   | Ok _ i' => i'
                   | _ => j
                   end)).
    { intros j c Hj.
      pose proof (Assign_same_stack (env j) name (VClass c) j) as Ha.
      destruct (Assign (env j) name (VClass c) j); simpl in *; congruence. }
    destruct superclass as [c|].
    + match goal with
      | |- same_stack _ (match Enclosing ?x with _ => _ end) =>
          destruct (Enclosing x)
      end; [| exact I].
      apply Hfin. exact Hst.
    + apply Hfin. exact Hst.
Qed.

Lemma fold_Define_callStack e (l : list (Token * Value)) :
  forall j,
    callStack (fold_left (fun i pa => Define e (Lexeme (fst pa)) (snd pa) i) l j)
    = callStack j.
Proof.
  induction l as [|pa l IH]; intros j; simpl; [reflexivity|].
  rewrite IH. reflexivity.
Qed.

Lemma LoxFunction_Call_same_stack ex f arguments i :
  ex_keeps_stack ex -> same_stack i (LoxFunction_Call ex f arguments i).
Proof.
  intros Hex. unfold LoxFunction_Call, NewEnvironment.
  match goal with
  | |- same_stack _ (bind (executeBlock _ _ _ ?j) _) =>
      apply same_stack_trans with (i1 := j)
  end.
  { rewrite fold_Define_callStack. reflexivity. }
  apply same_stack_bind; [apply executeBlock_same_stack; exact Hex|].
  intros value i1. destruct (isInitializer (the_function i f)).
  - apply same_stack_bind; [apply GetAtWithString_same_stack|].
    intros; reflexivity.
  - destruct (isReturningValue i1); reflexivity.
Qed.

Lemma LoxClass_Call_same_stack ex c arguments i :
  ex_keeps_stack ex -> same_stack i (LoxClass_Call ex c arguments i).
Proof.
  intros Hex. unfold LoxClass_Call, NewLoxInstance, Bind, NewEnvironment,
    NewFunction.
  match goal with
  | |- same_stack _ (match ?x with _ => _ end) => destruct x
  end; [| reflexivity].
  simpl.
  match goal with
  | |- same_stack _ (bind (LoxFunction_Call _ _ _ ?j) _) =>
      apply same_stack_trans with (i1 := j)
  end; [reflexivity|].
  apply same_stack_bind; [apply LoxFunction_Call_same_stack; exact Hex|].
  intros; reflexivity.
Qed.

Lemma Call_same_stack ex callable arguments i :
  ex_keeps_stack ex -> same_stack i (Call ex callable arguments i).
Proof.
  intros Hex. destruct callable; simpl; try exact I.
  - reflexivity.
  - apply LoxFunction_Call_same_stack; exact Hex.
  - apply LoxClass_Call_same_stack; exact Hex.
Qed.

(** The push before the call and the deferred pop after it cancel. *)
Lemma VisitCallExpr_same_stack ev ex callee paren arguments i :
  ev_keeps_stack ev -> ex_keeps_stack ex ->
  same_stack i (VisitCallExpr ev ex callee paren arguments i).
Proof.
  intros Hev Hex. unfold VisitCallExpr.
  apply same_stack_defer; [reflexivity|].
  apply same_stack_bind; [apply Hev|]. intros c i1.
  apply same_stack_bind; [apply evaluateAll_same_stack; exact Hev|].
  intros vs i2.
  destruct (negb (isCallable c)); [reflexivity|].
  destruct (negb (length vs =? Arity c i2)%nat); [reflexivity|].
  pose proof (Call_same_stack ex c vs (set_callStack i2 (callStack i2 ++ [c]))
                Hex) as Hc.
  destruct (Call ex c vs (set_callStack i2 (callStack i2 ++ [c])))
    as [v j|e j| |]; simpl in *; auto;
    rewrite Hc, length_app; simpl;
    replace (length (callStack i2) + 1 - 1)%nat with (length (callStack i2))
      by lia;
    apply take_app_length.
Qed.

Lemma Expr_Accept_same_stack ev ex expr i :
  ev_keeps_stack ev -> ex_keeps_stack ex ->
  same_stack i (Expr_Accept ev ex expr i).
Proof.
  intros Hev Hex. destruct expr; simpl.
  - reflexivity.
  - apply Hev.
  - unfold VisitUnaryExpr. stack_steps.
  - unfold VisitBinaryExpr. stack_steps. apply binarySwitch_same_stack.
  - unfold VisitLogicalExpr. stack_steps.
  - unfold VisitTernaryExpr. stack_steps.
  - unfold VisitVariableExpr.
    apply same_stack_bind; [apply lookupTable_same_stack|].
    intros v i1. destruct v; try reflexivity.
    destruct e; reflexivity.
  - unfold VisitAssignExpr.
    apply same_stack_bind; [apply Hev|]. intros v i1.
    destruct (localsTable i1 !! p) as [d|].
    + pose proof (AssignAt_same_stack (env i1) d name v i1) as H.
      destruct (AssignAt (env i1) d name v i1); simpl in *; auto.
      apply asRuntimeError_same_stack; exact H.
    + pose proof (Assign_same_stack (globals i1) name v i1) as H.
      destruct (Assign (globals i1) name v i1); simpl in *; auto.
      apply asRuntimeError_same_stack; exact H.
  - apply VisitCallExpr_same_stack; assumption.
  - unfold VisitGetExpr.
    apply same_stack_bind; [apply Hev|]. intros v i1.
    destruct v; try reflexivity. apply LoxInstance_Get_same_stack.
  - unfold VisitSetExpr. stack_steps.
  - apply lookupTable_same_stack.
  - unfold VisitSuperExpr.
    apply same_stack_bind; [apply GetAtWithString_same_stack|].
    intros spc i1.
    apply same_stack_bind; [apply GetAtWithString_same_stack|].
    intros object i2. unfold Bind, NewEnvironment, NewFunction.
    destruct object; try reflexivity.
    destruct spc; try exact I.
    match goal with
    | |- same_stack _ (match findMethod ?c ?m ?j with _ => _ end) =>
        destruct (findMethod c m j)
    end; reflexivity.
  - unfold VisitListExpr.
    apply same_stack_bind; [apply evaluateAll_same_stack; exact Hev|].
    intros; reflexivity.
  - unfold VisitDictionaryExpr.
    apply (same_stack_trans i (set_mapRanges i (S (mapRanges i))));
      [reflexivity | apply dictLoop_same_stack; exact Hev].
  - unfold VisitSelectExpr. stack_steps.
Qed.

Lemma Stmt_Accept_same_stack ev ex rounds stmt i :
  ev_keeps_stack ev -> ex_keeps_stack ex ->
  same_stack i (Stmt_Accept ev ex rounds stmt i).
Proof.
  intros Hev Hex. destruct stmt; simpl.
  - unfold VisitExpressionStmt. stack_steps.
  - unfold VisitPrintStmt. stack_steps.
  - unfold VisitVarStmt. stack_steps.
  - unfold VisitBlockStmt, NewEnvironment.
    eapply same_stack_trans; [| apply executeBlock_same_stack; exact Hex].
    reflexivity.
  - unfold VisitIfStmt. stack_steps.
  - unfold VisitWhileStmt.
    apply same_stack_defer; [reflexivity|].
    eapply same_stack_trans with (i1 := set_currentLoop i _); [reflexivity|].
    apply same_stack_bind; [apply Hev|]. intros c i1.
    apply whileLoop_same_stack; assumption.
  - reflexivity.
  - reflexivity.
  - unfold VisitReturnStmt. stack_steps.
  - apply VisitClassStmt_same_stack; exact Hev.
Qed.

(** Nothing the interpreter evaluates or executes changes the call stack
    for its caller. *)
Lemma Evaluate_execute_same_stack fuel :
  ev_keeps_stack (Evaluate fuel) /\ ex_keeps_stack (execute fuel).
Proof.
  induction fuel as [|n [IHev IHex]].
  - split; intros ? ?; exact I.
  - split.
    + intros e i. simpl. destruct (breakCurrentLoop i); [reflexivity|].
      apply Expr_Accept_same_stack; assumption.
    + intros s i. simpl. destruct (breakCurrentLoop i); [reflexivity|].
      apply same_stack_bind;
        [apply Stmt_Accept_same_stack; assumption | intros; reflexivity].
Qed.

(** ** More fuel does not change a result *)

Lemma settled_refl {A : Type} (r : Outcome A) : settled r r.
Proof. intros _. reflexivity. Qed.

Lemma settled_bind {A B : Type} (r r' : Outcome A)
  (k k' : A -> Interpreter -> Outcome B) :
  settled r r' -> (forall a i, settled (k a i) (k' a i)) ->
  settled (bind r k) (bind r' k').
Proof.
  intros Hr Hk Hne. destruct r as [a i|e i|msg|]; simpl in *.
  - rewrite Hr by discriminate. simpl. apply Hk. exact Hne.
  - rewrite Hr by discriminate. reflexivity.
  - rewrite Hr by discriminate. reflexivity.
  - contradiction Hne. reflexivity.
Qed.

Lemma settled_defer {A : Type} (r r' : Outcome A) f :
  settled r r' -> settled (defer f r) (defer f r').
Proof.
  intros Hr Hne. destruct r; simpl in *;
    try (rewrite Hr by discriminate; reflexivity).
  contradiction Hne. reflexivity.
Qed.

Ltac fuel_step :=
  first
    [ apply settled_refl
    | assumption
    | apply settled_defer
    | apply settled_bind; [| intros ? ?]
    | match goal with
      | H : ev_settled ?ev ?ev' |- settled (?ev _ _) (?ev' _ _) => apply H
      | H : ex_settled ?ex ?ex' |- settled (?ex _ _) (?ex' _ _) => apply H
      | |- settled (match ?x with _ => _ end) (match ?x with _ => _ end) =>
          destruct x
      end
    | progress simpl ].

Ltac fuel_steps := repeat fuel_step.

Lemma blockLoop_settled ex ex' statements :
  ex_settled ex ex' ->
  forall value i,
    settled (blockLoop ex statements value i)
      (blockLoop ex' statements value i).
Proof.
  intros Hex. induction statements as [|s rest IH]; intros value i; simpl.
  - apply settled_refl.
  - apply settled_bind; [apply Hex|]. intros a i1.
    destruct (isReturningValue i1); [apply settled_refl | apply IH].
Qed.

Lemma executeBlock_settled ex ex' statements e i :
  ex_settled ex ex' ->
  settled (executeBlock ex statements e i) (executeBlock ex' statements e i).
Proof.
  intros Hex. unfold executeBlock. apply settled_defer.
  apply blockLoop_settled. exact Hex.
Qed.

Lemma evaluateAll_settled ev ev' es :
  ev_settled ev ev' ->
  forall values i,
    settled (evaluateAll ev es values i) (evaluateAll ev' es values i).
Proof.
  intros Hev. induction es as [|e rest IH]; intros values i; simpl.
  - apply settled_refl.
  - apply settled_bind; [apply Hev|]. intros a i1. apply IH.
Qed.

Lemma dictLoop_settled ev ev' mapExpr :
  ev_settled ev ev' ->
  forall dict i,
    settled (dictLoop ev mapExpr dict i) (dictLoop ev' mapExpr dict i).
Proof.
  intros Hev. induction mapExpr as [|[k v] rest IH]; intros dict i; simpl.
  - apply settled_refl.
  - apply settled_bind; [apply Hev|]. intros a i1.
    destruct (dict_lookup (Lexeme k) dict); [apply settled_refl | apply IH].
Qed.

(** A loop that ended within [rounds] rounds ends the same way when it is
    allowed one more. *)
Lemma whileLoop_settled ev ev' ex ex' rounds cond body :
  ev_settled ev ev' -> ex_settled ex ex' ->
  forall condition i,
    settled (whileLoop ev ex rounds cond body condition i)
      (whileLoop ev' ex' (S rounds) cond body condition i).
Proof.
  intros Hev Hex. induction rounds as [|n IH]; intros condition i.
  - simpl. destruct (isTruthy condition).
    + intros Hne. contradiction Hne. reflexivity.
    + apply settled_refl.
  - change (settled
              (if isTruthy condition
               then bind (ex body i)
                      (fun _ i => bind (ev cond i)
                         (fun condition i =>
                            whileLoop ev ex n cond body condition i))
               else Ok VNil i)
              (if isTruthy condition
               then bind (ex' body i)
                      (fun _ i => bind (ev' cond i)
                         (fun condition i =>
                            whileLoop ev' ex' (S n) cond body condition i))
               else Ok VNil i)).
    destruct (isTruthy condition); [| apply settled_refl].
    apply settled_bind; [apply Hex|]. intros _ i1.
    apply settled_bind; [apply Hev|]. intros c i2. apply IH.
Qed.

Lemma LoxFunction_Call_settled ex ex' f arguments i :
  ex_settled ex ex' ->
  settled (LoxFunction_Call ex f arguments i)
    (LoxFunction_Call ex' f arguments i).
Proof.
  intros Hex. unfold LoxFunction_Call, NewEnvironment.
  apply settled_bind; [apply executeBlock_settled; exact Hex|].
  intros; apply settled_refl.
Qed.

Lemma Call_settled ex ex' callable arguments i :
  ex_settled ex ex' ->
  settled (Call ex callable arguments i) (Call ex' callable arguments i).
Proof.
  intros Hex. destruct callable; simpl; try apply settled_refl.
  - apply LoxFunction_Call_settled; exact Hex.
  - unfold LoxClass_Call, NewLoxInstance, Bind, NewEnvironment, NewFunction.
    match goal with
    | |- settled (match ?x with _ => _ end) _ => destruct x
    end; [| apply settled_refl].
    simpl. apply settled_bind; [apply LoxFunction_Call_settled; exact Hex|].
    intros; apply settled_refl.
Qed.

Lemma Expr_Accept_settled ev ev' ex ex' expr i :
  ev_settled ev ev' -> ex_settled ex ex' ->
  settled (Expr_Accept ev ex expr i) (Expr_Accept ev' ex' expr i).
Proof.
  intros Hev Hex. destruct expr; simpl; try apply settled_refl.
  - apply Hev.
  - unfold VisitUnaryExpr. fuel_steps.
  - unfold VisitBinaryExpr. fuel_steps.
  - unfold VisitLogicalExpr. fuel_steps.
  - unfold VisitTernaryExpr. fuel_steps.
  - unfold VisitAssignExpr. fuel_steps.
  - unfold VisitCallExpr. apply settled_defer.
    apply settled_bind; [apply Hev|]. intros c i1.
    apply settled_bind; [apply evaluateAll_settled; exact Hev|].
    intros vs i2.
    destruct (negb (isCallable c)); [apply settled_refl|].
    destruct (negb (length vs =? Arity c i2)%nat); [apply settled_refl|].
    apply settled_defer. apply Call_settled. exact Hex.
  - unfold VisitGetExpr. fuel_steps.
  - unfold VisitSetExpr. fuel_steps.
  - unfold VisitListExpr.
    apply settled_bind; [apply evaluateAll_settled; exact Hev|].
    intros; apply settled_refl.
  - unfold VisitDictionaryExpr. apply dictLoop_settled; exact Hev.
  - unfold VisitSelectExpr. fuel_steps.
Qed.

Lemma Stmt_Accept_settled ev ev' ex ex' rounds stmt i :
  ev_settled ev ev' -> ex_settled ex ex' ->
  settled (Stmt_Accept ev ex rounds stmt i)
    (Stmt_Accept ev' ex' (S rounds) stmt i).
Proof.
  intros Hev Hex. destruct stmt; try apply settled_refl.
  - unfold Stmt_Accept, VisitExpressionStmt. fuel_steps.
  - unfold Stmt_Accept, VisitPrintStmt. fuel_steps.
  - unfold Stmt_Accept, VisitVarStmt. fuel_steps.
  - unfold Stmt_Accept, VisitBlockStmt, NewEnvironment.
    apply executeBlock_settled; exact Hex.
  - unfold Stmt_Accept, VisitIfStmt. fuel_steps.
  - unfold Stmt_Accept, VisitWhileStmt. apply settled_defer.
    apply settled_bind; [apply Hev|]. intros c i1.
    apply whileLoop_settled; assumption.
  - unfold Stmt_Accept, VisitReturnStmt. fuel_steps.
  - unfold Stmt_Accept, VisitClassStmt.
    apply settled_bind; [| intros; apply settled_refl].
    destruct superClass as [[p superName]|]; [| apply settled_refl].
    apply settled_bind; [apply Hev | intros; apply settled_refl].
Qed.

Lemma Evaluate_execute_settled fuel :
  ev_settled (Evaluate fuel) (Evaluate (S fuel))
  /\ ex_settled (execute fuel) (execute (S fuel)).
Proof.
  induction fuel as [|n [IHev IHex]].
  - split; intros ? ? Hne; contradiction Hne; reflexivity.
  - split.
    + intros e i.
      change (settled
                (if breakCurrentLoop i then Ok VNil i
                 else Expr_Accept (Evaluate n) (execute n) e i)
                (if breakCurrentLoop i then Ok VNil i
                 else Expr_Accept (Evaluate (S n)) (execute (S n)) e i)).
      destruct (breakCurrentLoop i); [apply settled_refl|].
      apply Expr_Accept_settled; assumption.
    + intros s i.
      change (settled
                (if breakCurrentLoop i then Ok VNil i
                 else bind (Stmt_Accept (Evaluate n) (execute n) n s i)
                        (fun value i => Ok value i))
                (if breakCurrentLoop i then Ok VNil i
                 else bind (Stmt_Accept (Evaluate (S n)) (execute (S n))
                              (S n) s i)
                        (fun value i => Ok value i))).
      destruct (breakCurrentLoop i); [apply settled_refl|].
      apply settled_bind;
        [apply Stmt_Accept_settled; assumption | intros; apply settled_refl].
Qed.

(** Once [Evaluate] or [execute] has returned or panicked with some fuel,
    it does the same with any larger fuel. *)
Lemma Evaluate_fuel_monotone fuel k expr i :
  Evaluate fuel expr i <> OutOfFuel ->
  Evaluate (fuel + k) expr i = Evaluate fuel expr i.
Proof.
  intros Hne. induction k as [|k IH].
  - rewrite Nat.add_0_r. reflexivity.
  - rewrite Nat.add_succ_r.
    rewrite <- IH. apply (proj1 (Evaluate_execute_settled (fuel + k))).
    rewrite IH. exact Hne.
Qed.

Lemma execute_fuel_monotone fuel k stmt i :
  execute fuel stmt i <> OutOfFuel ->
  execute (fuel + k) stmt i = execute fuel stmt i.
Proof.
  intros Hne. induction k as [|k IH].
  - rewrite Nat.add_0_r. reflexivity.
  - rewrite Nat.add_succ_r.
    rewrite <- IH. apply (proj2 (Evaluate_execute_settled (fuel + k))).
    rewrite IH. exact Hne.
Qed.

(** ** The scanner *)

(** C3: the keyword table is keyed by upper-case names, so a lower-case
    keyword such as [var] is scanned as an identifier and only [VAR] gives
    the keyword token; and an identifier that starts with [o] is not
    consumed as one unit: [orange] gives the token [OR] for [or] and the
    identifier [ange], and in [open] the [o] is dropped. *)
Theorem lower_case_keyword_is_identifier :
  fst (ScanTokens ParseFloat (NewScanner "var"))
    = [mkToken IDENTIFIER "var" LitNil 1; mkToken EOF "" LitNil 1]
  /\ fst (ScanTokens ParseFloat (NewScanner "VAR"))
    = [mkToken VAR "VAR" LitNil 1; mkToken EOF "" LitNil 1]
  /\ fst (ScanTokens ParseFloat (NewScanner "orange"))
    = [mkToken OR "or" LitNil 1; mkToken IDENTIFIER "ange" LitNil 1;
       mkToken EOF "" LitNil 1]
  /\ fst (ScanTokens ParseFloat (NewScanner "open"))
    = [mkToken IDENTIFIER "pen" LitNil 1; mkToken EOF "" LitNil 1].
Proof.
  repeat split; vm_compute; reflexivity.
Qed.

(** The loops of the scanner are given as many rounds as there are bytes
    left: they stop because their condition fails, not for lack of rounds,
    and [ScanTokens] consumes the whole source. *)
Lemma scanned_refl s : scanned s s.
Proof. split; [reflexivity | lia]. Qed.

Lemma scanned_trans s1 s2 s3 : scanned s1 s2 -> scanned s2 s3 -> scanned s1 s3.
Proof. intros [H1 H2] [H3 H4]. split; [congruence | lia]. Qed.

Lemma scanned_advance s : scanned s (snd (advance s)).
Proof. split; simpl; [reflexivity | lia]. Qed.

Lemma scanned_addToken s typ literal : scanned s (addToken s typ literal).
Proof. split; simpl; [reflexivity | lia]. Qed.

Lemma scanned_match s next : scanned s (snd (match_ s next)).
Proof.
  unfold match_. destruct (isAtEnd s); [apply scanned_refl|].
  destruct (negb _); [apply scanned_refl|]. split; simpl; [reflexivity | lia].
Qed.

Lemma scanned_advanceWhile cond rounds :
  forall s, scanned s (advanceWhile cond rounds s).
Proof.
  induction rounds as [|n IH]; intros s; simpl; [apply scanned_refl|].
  destruct (cond s); [| apply scanned_refl].
  eapply scanned_trans; [apply scanned_advance | apply IH].
Qed.

Lemma advanceWhile_stops cond rounds :
  (forall s, isAtEnd s = true -> cond s = false) ->
  forall s, (remaining s <= rounds)%nat ->
            cond (advanceWhile cond rounds s) = false.
Proof.
  intros Hend. induction rounds as [|n IH]; intros s Hr; simpl.
  - apply Hend. unfold isAtEnd, remaining in *. apply Nat.leb_le. lia.
  - destruct (cond s) eqn:Hc; [| exact Hc].
    apply IH. unfold remaining in *. simpl.
    destruct (isAtEnd s) eqn:He.
    + rewrite (Hend s He) in Hc. discriminate.
    + unfold isAtEnd in He. apply Nat.leb_gt in He. lia.
Qed.

(** The loop of [identifier] consumes the whole run of letters, digits and
    underscores: it stops in front of a byte that is none of them, or at
    the end. *)
Lemma identifier_consumes_the_run s :
  isAlphaNumeric
    (peek (advanceWhile (fun s => isAlphaNumeric (peek s)) (remaining s) s))
  = false.
Proof.
  apply (advanceWhile_stops (fun s => isAlphaNumeric (peek s)));
    [| apply Nat.le_refl].
  intros s' He. unfold peek. rewrite He. reflexivity.
Qed.

Lemma scanned_stringLoop rounds : forall s, scanned s (stringLoop rounds s).
Proof.
  induction rounds as [|n IH]; intros s; simpl; [apply scanned_refl|].
  destruct (negb (String.eqb (peek s) DQUOTE) && negb (isAtEnd s));
    [| apply scanned_refl].
  eapply scanned_trans; [| apply IH].
  destruct (String.eqb (peek s) NEWLINE); split; simpl; try reflexivity; lia.
Qed.

Lemma scanned_identifier s : scanned s (identifier s).
Proof.
  unfold identifier.
  destruct (KeywordsMap !! _);
    (eapply scanned_trans; [apply scanned_advanceWhile | apply scanned_addToken]).
Qed.

Lemma scanned_string s : scanned s (snd (Scanner_string s)).
Proof.
  unfold Scanner_string.
  destruct (isAtEnd (stringLoop (remaining s) s)); simpl.
  - apply scanned_stringLoop.
  - eapply scanned_trans; [apply scanned_stringLoop|].
    eapply scanned_trans; [apply scanned_advance | apply scanned_addToken].
Qed.

Lemma scanned_number s : scanned s (snd (number ParseFloat s)).
Proof.
  unfold number.
  match goal with
  | |- scanned s (snd (match ParseFloat (slice _ _ (current ?x)) with _ => _ end)) =>
      assert (Hx : scanned s x)
  end.
  { match goal with
    | |- scanned s (if ?c then _ else _) => destruct c
    end.
    - eapply scanned_trans; [apply scanned_advanceWhile|].
      eapply scanned_trans; [apply scanned_advance | apply scanned_advanceWhile].
    - apply scanned_advanceWhile. }
  destruct (ParseFloat _); simpl; [| exact Hx].
  eapply scanned_trans; [exact Hx | apply scanned_addToken].
Qed.

Lemma scanned_oneOrTwo s one two : scanned s (oneOrTwo s one two).
Proof.
  unfold oneOrTwo. pose proof (scanned_match s "=") as H.
  destruct (match_ s "=") as [m s']. simpl in H.
  eapply scanned_trans; [exact H | apply scanned_addToken].
Qed.

(** Every [scanToken] consumes at least one byte. *)
Lemma scanToken_progress s :
  Source (snd (scanToken ParseFloat s)) = Source s
  /\ (current s < current (snd (scanToken ParseFloat s)))%nat.
Proof.
  assert (H : scanned (snd (advance s)) (snd (scanToken ParseFloat s))).
  { unfold scanToken.
    destruct (advance s) as [c s1]. simpl.
    repeat match goal with
           | |- scanned _ (snd (if ?b then _ else _)) => destruct b
           end;
      try (simpl; first [ apply scanned_addToken | apply scanned_oneOrTwo
                        | apply scanned_refl | apply scanned_string
                        | apply scanned_number | apply scanned_identifier ]).
    - pose proof (scanned_match s1 "/") as Hm.
      destruct (match_ s1 "/") as [[|] s2]; simpl in *.
      + eapply scanned_trans; [exact Hm | apply scanned_advanceWhile].
      + eapply scanned_trans; [exact Hm | apply scanned_addToken].
    - split; simpl; [reflexivity | lia].
    - pose proof (scanned_match s1 "r") as Hm.
      destruct (match_ s1 "r") as [[|] s2]; simpl in *.
      + eapply scanned_trans; [exact Hm | apply scanned_addToken].
      + exact Hm. }
  destruct H as [H1 H2]. simpl in *. split; [exact H1 | lia].
Qed.

Lemma scanLoop_reaches_end rounds :
  forall s, (remaining s <= rounds)%nat ->
            isAtEnd (scanLoop ParseFloat rounds s) = true.
Proof.
  induction rounds as [|n IH]; intros s Hr; simpl.
  - unfold isAtEnd, remaining in *. apply Nat.leb_le. lia.
  - destruct (isAtEnd s) eqn:He; simpl; [exact He|].
    apply IH.
    destruct (scanToken_progress (set_start s (current s))) as [Hs Hc].
    unfold remaining in *. rewrite Hs. simpl in *.
    unfold isAtEnd in He. apply Nat.leb_gt in He. lia.
Qed.

(** [ScanTokens] scans to the end of the source and the token list it
    returns ends in the [EOF] token. *)
Lemma ScanTokens_reaches_end s :
  isAtEnd (snd (ScanTokens ParseFloat s)) = true
  /\ exists tokens line,
       fst (ScanTokens ParseFloat s) = tokens ++ [mkToken EOF "" LitNil line].
Proof.
  unfold ScanTokens. simpl. split.
  - pose proof (scanLoop_reaches_end (remaining s) s (Nat.le_refl _)) as H.
    unfold isAtEnd in *. exact H.
  - eauto.
Qed.

(** Whatever [Scanner.string] returns, [scanToken] returns a nil error
    for a token that starts with a double quote. *)
Lemma scanToken_drops_string_error s :
  fst (advance s) = DQUOTE -> fst (scanToken ParseFloat s) = None.
Proof.
  unfold scanToken. destruct (advance s) as [c s']. simpl.
  intros ->. reflexivity.
Qed.

(** C5: on the source [DQUOTE abc], whose string is never closed,
    [Scanner.string] does report [Unterminated string], but [scanToken]
    drops that error and returns nil, and [ScanTokens], whose only result is
    the token list, returns the lone [EOF] token. *)
Theorem unterminated_string_is_not_surfaced :
  fst (Scanner_string (snd (advance (NewScanner (DQUOTE +:+ "abc")))))
    = Some ("Unterminated string - 1: " +:+ DQUOTE +:+ "abc")
  /\ fst (scanToken ParseFloat (NewScanner (DQUOTE +:+ "abc"))) = None
  /\ fst (ScanTokens ParseFloat (NewScanner (DQUOTE +:+ "abc")))
    = [mkToken EOF "" LitNil 1].
Proof.
  repeat split; vm_compute; reflexivity.
Qed.

(** ** Non-local return *)

(** A [return] directly in the body of a function makes the call return
    its value, and the flag is reset after the call. *)
Lemma return_in_body_returns_value :
  forall k,
    let r := Interpret (10 + k) returnInBody (resolvedInterpreter []) in
    option_map (global "r") (final r) = Some (Some (VNumber 5))
    /\ option_map isReturningValue (final r) = Some false.
Proof.
  intros k. split; vm_compute; reflexivity.
Qed.

(** C1: in [fun f() { var i = 0; while (i < 1) { i = i + 1; return 5; } }]
    the [return] inside the loop body does not make the call return 5:
    [VisitWhileStmt] drops the value its body returned and does not look
    at the flag, so the loop goes on, and the call [f()] returns nil. *)
Theorem return_inside_while_is_lost :
  forall k,
    let r := Interpret (12 + k) returnInWhile
               (resolvedInterpreter returnInWhile_resolved) in
    option_map (global "r") (final r) = Some (Some VNil)
    /\ option_map isReturningValue (final r) = Some false.
Proof.
  intros k. split; vm_compute; reflexivity.
Qed.



(** The body [{ return 1; }] returns with the flag [isReturningValue] set
    and no break pending, when it has the fuel to return. *)
Lemma returnOne_returns m i :
  breakCurrentLoop i = false ->
  execute m returnOne i = OutOfFuel
  \/ exists v i', execute m returnOne i = Ok v i'
                  /\ breakCurrentLoop i' = false
                  /\ isReturningValue i' = true.
Proof.
  intros Hb.
  destruct m as [|[|[|m]]]; simpl; rewrite ?Hb;
    unfold VisitBlockStmt, NewEnvironment, executeBlock; simpl; rewrite ?Hb;
    unfold VisitReturnStmt; simpl; rewrite ?Hb; simpl; auto.
  right. eexists. eexists. split; [reflexivity|]. split; [exact Hb|reflexivity].
Qed.

Lemma endlessLoop_rounds m :
  forall rounds i,
    breakCurrentLoop i = false ->
    whileLoop (Evaluate m) (execute m) rounds literalTrue returnOne
      (VBool true) i = OutOfFuel.
Proof.
  induction rounds as [|n IH]; intros i Hb; [reflexivity|].
  change (bind (execute m returnOne i)
            (fun _ i => bind (Evaluate m literalTrue i)
               (fun condition i =>
                  whileLoop (Evaluate m) (execute m) n literalTrue returnOne
                    condition i)) = OutOfFuel).
  destruct (returnOne_returns m i Hb) as [->|(v & i' & -> & Hb' & _)];
    [reflexivity|].
  simpl. destruct m as [|m]; [reflexivity|].
  simpl. rewrite Hb'. simpl. apply IH. exact Hb'.
Qed.

(** In [while (true) { return 1; }] the [return] does not leave the loop:
    whatever the fuel, the statement does not return. *)
Lemma return_does_not_leave_endless_loop fuel i :
  breakCurrentLoop i = false ->
  execute fuel endlessLoop i = OutOfFuel.
Proof.
  intros Hb. destruct fuel as [|n]; [reflexivity|].
  change (execute (S n) endlessLoop i)
    with (if breakCurrentLoop i then Ok VNil i
          else bind (VisitWhileStmt (Evaluate n) (execute n) n endlessLoop
                       literalTrue returnOne i)
                 (fun value i => Ok value i)).
  rewrite Hb. unfold VisitWhileStmt.
  destruct n as [|n]; [reflexivity|].
  set (j := set_currentLoop i (Some endlessLoop)).
  assert (He : Evaluate (S n) literalTrue j = Ok (VBool true) j).
  { simpl. rewrite Hb. reflexivity. }
  rewrite He. cbn [bind].
  rewrite endlessLoop_rounds by exact Hb. reflexivity.
Qed.

(** ** Fields *)

(** Whenever the object of a Set expression evaluates to an instance,
    [VisitSetExpr] returns nil and has stored the node of the right-hand
    side, which it never evaluates. *)
Lemma VisitSetExpr_stores_the_node ev object name value i o i1 :
  ev object i = Ok (VInstance o) i1 ->
  VisitSetExpr ev object name value i
  = Ok VNil (LoxInstance_Set o name (VExpr value) i1).
Proof.
  intros H. unfold VisitSetExpr. rewrite H. reflexivity.
Qed.

Lemma LoxInstance_Set_field o name value i :
  (o < length (instances i))%nat ->
  fields (the_instance (LoxInstance_Set o name value i) o) !! Lexeme name
  = Some value.
Proof.
  intros Ho. unfold LoxInstance_Set, the_instance. simpl.
  rewrite list_lookup_insert_eq by exact Ho. simpl.
  apply lookup_insert_eq.
Qed.

(** C2: in [a.x = 1 + 2] with [a] an instance, the right-hand side is not
    evaluated: the field [x] of the instance receives the syntax node of
    [1 + 2] itself, and the Set expression evaluates to nil. *)
Theorem set_stores_the_node_and_yields_nil :
  forall k,
    let r := Interpret (10 + k) setField (resolvedInterpreter []) in
    option_map (global "r") (final r) = Some (Some VNil)
    /\ option_map (fun i => fields (the_instance i 0) !! "x") (final r)
       = Some (Some (VExpr onePlusTwo)).
Proof.
  intros k. split; vm_compute; reflexivity.
Qed.

(** ** Equality *)

(** C4: comparing two lists, or two dictionaries, with [==] or [!=] does
    not return: the Go comparison of two [listType] (or two [dictType])
    interface values panics.  So does the program [var r = [1] == [1];]. *)
Theorem list_equality_panics :
  (forall lexeme literal lineNumber l1 l2 i,
      binarySwitch (mkToken EQUAL_EQUAL lexeme literal lineNumber)
        (VList l1) (VList l2) i
      = Panic "runtime error: comparing uncomparable type")
  /\ (forall lexeme literal lineNumber d1 d2 i,
      binarySwitch (mkToken BANG_EQUAL lexeme literal lineNumber)
        (VDict d1) (VDict d2) i
      = Panic "runtime error: comparing uncomparable type")
  /\ (forall k,
      Interpret (10 + k) listEquality (resolvedInterpreter [])
      = Panic "runtime error: comparing uncomparable type").
Proof.
  repeat split; intros; vm_compute; reflexivity.
Qed.

(** ** Resource discipline *)

Lemma executeBlock_restores_env ex statements e i i' :
  returns (executeBlock ex statements e i) i' -> env i' = env i.
Proof.
  unfold executeBlock.
  destruct (blockLoop ex statements VNil (set_env i e)) as [v j|err j| |];
    simpl; intros [[a H]|[a H]]; inversion H; reflexivity.
Qed.

(** C8: when [executeBlock] returns, with a value or with an error, the
    current environment is the one from before the block; and when
    [VisitCallExpr] returns, with a value or with an error, the call stack
    is the one from before the call, so it has the same length. *)
Theorem block_and_call_restore_state :
  forall fuel,
    (forall statements e i i',
        returns (executeBlock (execute fuel) statements e i) i' ->
        env i' = env i)
    /\ (forall callee paren arguments i i',
        returns (VisitCallExpr (Evaluate fuel) (execute fuel)
                   callee paren arguments i) i' ->
        callStack i' = callStack i
        /\ length (callStack i') = length (callStack i)).
Proof.
  intros fuel. split.
  - intros statements e i i'. apply executeBlock_restores_env.
  - intros callee paren arguments i i' Hret.
    destruct (Evaluate_execute_same_stack fuel) as [Hev Hex].
    pose proof (VisitCallExpr_same_stack (Evaluate fuel) (execute fuel)
                  callee paren arguments i Hev Hex) as Hs.
    pose proof (same_stack_returns _ _ _ Hs Hret) as Heq.
    split; [exact Heq | rewrite Heq; reflexivity].
Qed.

(** ** Calls *)

Lemma evaluateAll_inOrder ev es i vs i' :
  evaluatedInOrder ev es i vs i' ->
  forall values, evaluateAll ev es values i = Ok (values ++ vs) i'.
Proof.
  induction 1 as [i|e es i v i1 vs i2 Hev Hrest IH]; intros values; simpl.
  - rewrite app_nil_r. reflexivity.
  - rewrite Hev. simpl. rewrite IH, <- app_assoc. reflexivity.
Qed.

(** C7: [VisitCallExpr] evaluates the callee first; if that fails no
    argument is evaluated.  Then it evaluates the arguments from left to
    right.  If the callee value is not a Callable the result is the error
    [Can only call functions and classes.]; if the number of arguments
    differs from the arity the result is [Expected N arguments but got M.];
    in both cases the interpreter is the one the arguments left, so nothing
    was invoked.  Only otherwise is the callable invoked, between the push
    and the pop of the call stack. *)
Theorem call_checks_callee_and_arity :
  forall fuel callee paren arguments i,
    (forall e i1,
        Evaluate fuel callee i = Err e i1 ->
        VisitCallExpr (Evaluate fuel) (execute fuel) callee paren arguments i
        = Err e (set_isReturningValue i1 false))
    /\ (forall c i1 vs i2,
        Evaluate fuel callee i = Ok c i1 ->
        evaluatedInOrder (Evaluate fuel) arguments i1 vs i2 ->
        (isCallable c = false ->
         VisitCallExpr (Evaluate fuel) (execute fuel) callee paren arguments i
         = Err (RuntimeError paren "Can only call functions and classes."
                  (callStack i2))
             (set_isReturningValue i2 false))
        /\ (isCallable c = true -> length vs <> Arity c i2 ->
            VisitCallExpr (Evaluate fuel) (execute fuel) callee paren
              arguments i
            = Err (RuntimeError paren
                     ("Expected " +:+ Sprintf_d (Z.of_nat (Arity c i2))
                      +:+ " arguments but got "
                      +:+ Sprintf_d (Z.of_nat (length vs)) +:+ ".")
                     (callStack i2))
                (set_isReturningValue i2 false))
        /\ (isCallable c = true -> length vs = Arity c i2 ->
            VisitCallExpr (Evaluate fuel) (execute fuel) callee paren
              arguments i
            = defer (fun i => set_isReturningValue i false)
                (defer (fun i => set_callStack i
                                   (take (length (callStack i) - 1)
                                      (callStack i)))
                   (Call (execute fuel) c vs
                      (set_callStack i2 (callStack i2 ++ [c])))))).
Proof.
  intros fuel callee paren arguments i. split.
  - intros e i1 He. unfold VisitCallExpr. rewrite He. reflexivity.
  - intros c i1 vs i2 Hc Hargs. unfold VisitCallExpr. rewrite Hc. simpl.
    rewrite (evaluateAll_inOrder _ _ _ _ _ Hargs []). simpl.
    repeat split.
    + intros Hn. rewrite Hn. reflexivity.
    + intros Hcal Hlen. rewrite Hcal. simpl.
      apply Nat.eqb_neq in Hlen. rewrite Hlen. reflexivity.
    + intros Hcal Hlen. rewrite Hcal. simpl.
      apply Nat.eqb_eq in Hlen. rewrite Hlen. reflexivity.
Qed.

(** ** Arithmetic *)

(** C9: for [/] on two numbers the result is the error [Division by zero.]
    when the right operand equals zero, and the IEEE-754 quotient otherwise;
    when an operand is not a number the result is the operand-type error. *)
Theorem division_checks_operands_and_zero :
  forall fuel p e1 operator e2 i l i1 r i2,
    Type_ operator = SLASH ->
    breakCurrentLoop i = false ->
    Evaluate fuel e1 i = Ok l i1 ->
    Evaluate fuel e2 i1 = Ok r i2 ->
    Evaluate (S fuel) (BinaryExpr p e1 operator e2) i =
      match l, r with
      | VNumber a, VNumber b =>
          if PrimFloat.eqb b 0%float
          then Err (RuntimeError operator "Division by zero." (callStack i2)) i2
          else Ok (VNumber (a / b)%float) i2
      | _, _ =>
          Err (RuntimeError operator
                 "Operands must be two numbers or two strings." (callStack i2))
            i2
      end.
Proof.
  intros fuel p e1 operator e2 i l i1 r i2 Hop Hb H1 H2.
  simpl. rewrite Hb. unfold VisitBinaryExpr. rewrite H1. simpl.
  rewrite H2. simpl. unfold binarySwitch. rewrite Hop. simpl.
  destruct l, r; reflexivity.
Qed.

(** ** Variables *)

(** [GetAt] reads the frame that is exactly [depth] links up the chain,
    and no other. *)
Lemma GetAt_reads_ancestor e depth name i f :
  ancestor i e (Z.to_nat depth) = Some f ->
  GetAt e depth name i
  = match Values (the_env i f) !! Lexeme name with
    | Some v => Ok v i
    | None => Err (undefinedVariable (Lexeme name)) i
    end.
Proof.
  intros H. unfold GetAt, GetAtWithString. rewrite H. reflexivity.
Qed.

(** C6: a Variable expression with an entry in the depth map reads with
    [GetAt] at exactly that depth from the current environment, and one
    without an entry reads the global environment (a binding that holds a
    literal node yields the literal's value).  An Assign expression first
    evaluates the value, then writes it with [AssignAt] at the recorded
    depth, or into the globals when there is no entry, and evaluates to the
    assigned value. *)
Theorem variable_and_assign_follow_depth_map :
  forall fuel p name i,
    breakCurrentLoop i = false ->
    (forall depth,
        localsTable i !! p = Some depth ->
        Evaluate (S fuel) (VariableExpr p name) i =
          match GetAt (env i) depth name i with
          | Ok v i' =>
              Ok match v with
                 | VExpr (LiteralExpr _ value) => Value_of_literal value
                 | _ => v
                 end i'
          | Err err i' => asRuntimeError name err i'
          | Panic msg => Panic msg
          | OutOfFuel => OutOfFuel
          end)
    /\ (localsTable i !! p = None ->
        Evaluate (S fuel) (VariableExpr p name) i =
          match Get (globals i) name i with
          | Ok v i' =>
              Ok match v with
                 | VExpr (LiteralExpr _ value) => Value_of_literal value
                 | _ => v
                 end i'
          | Err err i' => asRuntimeError name err i'
          | Panic msg => Panic msg
          | OutOfFuel => OutOfFuel
          end)
    /\ (forall value v i1,
        Evaluate fuel value i = Ok v i1 ->
        (forall depth,
            localsTable i1 !! p = Some depth ->
            Evaluate (S fuel) (AssignExpr p name value) i =
              match AssignAt (env i1) depth name v i1 with
              | Ok _ i2 => Ok v i2
              | Err err i2 => asRuntimeError name err i2
              | Panic msg => Panic msg
              | OutOfFuel => OutOfFuel
              end)
        /\ (localsTable i1 !! p = None ->
            Evaluate (S fuel) (AssignExpr p name value) i =
              match Assign (globals i1) name v i1 with
              | Ok _ i2 => Ok v i2
              | Err err i2 => asRuntimeError name err i2
              | Panic msg => Panic msg
              | OutOfFuel => OutOfFuel
              end)).
Proof.
  intros fuel p name i Hb.
  split; [| split; [| intros value v i1 Hvalue; split]].
  - intros depth Hd. simpl. rewrite Hb.
    unfold VisitVariableExpr, lookupTable. rewrite Hd.
    destruct (GetAt (env i) depth name i) as [v j|err j| |]; simpl;
      try reflexivity.
    + destruct v; try reflexivity. destruct e; reflexivity.
    + unfold asRuntimeError. destruct (Error j err); reflexivity.
  - intros Hd. simpl. rewrite Hb.
    unfold VisitVariableExpr, lookupTable. rewrite Hd.
    destruct (Get (globals i) name i) as [v j|err j| |]; simpl;
      try reflexivity.
    + destruct v; try reflexivity. destruct e; reflexivity.
    + unfold asRuntimeError. destruct (Error j err); reflexivity.
  - intros depth Hd. simpl. rewrite Hb.
    unfold VisitAssignExpr. rewrite Hvalue. simpl. rewrite Hd. reflexivity.
  - intros Hd. simpl. rewrite Hb.
    unfold VisitAssignExpr. rewrite Hvalue. simpl. rewrite Hd. reflexivity.
Qed.

(** ** The value of a program *)

Lemma interpretLoop_app ex xs ys :
  forall v i,
    interpretLoop ex (xs ++ ys) v i
    = bind (interpretLoop ex xs v i) (fun v1 i1 => interpretLoop ex ys v1 i1).
Proof.
  induction xs as [|x xs IH]; intros v i; simpl; [reflexivity|].
  destruct (ex x i); simpl; auto.
Qed.

(** Reading a variable leaves the interpreter as it is. *)
Lemma lookupTable_state name p i v i' :
  lookupTable name p i = Ok v i' -> i' = i.
Proof.
  unfold lookupTable, GetAt, GetAtWithString, Get, asRuntimeError.
  repeat case_match; intros Hok; try discriminate; inversion Hok; subst;
    try reflexivity; congruence.
Qed.

Lemma Evaluate_variable_state fuel p name i v i' :
  Evaluate fuel (VariableExpr p name) i = Ok v i' -> i' = i.
Proof.
  destruct fuel as [|n]; simpl; [discriminate|].
  destruct (breakCurrentLoop i); [intros H; inversion H; reflexivity|].
  unfold VisitVariableExpr.
  destruct (lookupTable name p i) as [a j|err j| |] eqn:E; simpl;
    try discriminate.
  apply lookupTable_state in E. subst j.
  destruct a; try (intros H; inversion H; reflexivity).
  destruct e; intros H; inversion H; reflexivity.
Qed.







(** * Further properties *)

(** ** What every step keeps *)

Lemma visible_eq_refl i : visible_eq i i.
Proof. repeat split. Qed.

Lemma visible_eq_trans i j k : visible_eq i j -> visible_eq j k -> visible_eq i k.
Proof.
  intros (H1 & H2 & H3 & H4 & H5) (K1 & K2 & K3 & K4 & K5).
  repeat split; congruence.
Qed.

Ltac vis := first [ apply visible_eq_refl | repeat split; reflexivity ].

Lemma kept_from {A : Type} R i i1 (r : Outcome A) :
  kept_by_steps R -> visible_eq i i1 -> kept R i1 r -> kept R i r.
Proof.
  intros HR Hv Hr. destruct r; simpl in *; auto;
    (eapply (kept_trans R HR); [apply (kept_same R HR); exact Hv | exact Hr]).
Qed.

Lemma kept_after {A : Type} R i i1 (r : Outcome A) :
  kept_by_steps R -> R i i1 -> kept R i1 r -> kept R i r.
Proof.
  intros HR Hv Hr. destruct r; simpl in *; auto;
    (eapply (kept_trans R HR); [exact Hv | exact Hr]).
Qed.

Lemma kept_bind {A B : Type} R i (r : Outcome A)
  (k : A -> Interpreter -> Outcome B) :
  kept_by_steps R ->
  kept R i r -> (forall a i1, kept R i1 (k a i1)) -> kept R i (bind r k).
Proof.
  intros HR Hr Hk. destruct r as [a i1|e i1| |]; simpl in *; auto.
  eapply kept_after; eauto.
Qed.

Lemma kept_defer {A : Type} R i (r : Outcome A) f :
  kept_by_steps R ->
  (forall j, visible_eq j (f j)) -> kept R i r -> kept R i (defer f r).
Proof.
  intros HR Hf Hr. destruct r; simpl in *; auto;
    (eapply (kept_trans R HR); [exact Hr | apply (kept_same R HR); apply Hf]).
Qed.

Lemma kept_bind_eq {A B : Type} R i (r : Outcome A)
  (k : A -> Interpreter -> Outcome B) :
  kept_by_steps R ->
  kept R i r -> (forall a i1, r = Ok a i1 -> kept R i1 (k a i1)) ->
  kept R i (bind r k).
Proof.
  intros HR Hr Hk. destruct r as [a i1|e i1| |]; simpl in *; auto.
  eapply kept_after; eauto.
Qed.

(** A return that changed nothing visible. *)
Lemma kept_unseen {A : Type} R i (r : Outcome A) :
  kept_by_steps R -> kept visible_eq i r -> kept R i r.
Proof.
  intros HR Hr. destruct r; simpl in *; auto; apply (kept_same R HR); exact Hr.
Qed.

Lemma GetAtWithString_unseen e d name i :
  kept visible_eq i (GetAtWithString e d name i).
Proof. unfold GetAtWithString. repeat case_match; simpl; auto; vis. Qed.

Lemma Get_unseen e name i : kept visible_eq i (Get e name i).
Proof. unfold Get. repeat case_match; simpl; auto; vis. Qed.

Lemma Assign_unseen e name v i : kept visible_eq i (Assign e name v i).
Proof. unfold Assign. repeat case_match; simpl; auto; vis. Qed.

Lemma AssignAt_unseen e d name v i : kept visible_eq i (AssignAt e d name v i).
Proof. unfold AssignAt. repeat case_match; simpl; auto; vis. Qed.

Lemma asRuntimeError_unseen {A : Type} name err i :
  kept visible_eq i (@asRuntimeError A name err i).
Proof. unfold asRuntimeError. destruct (Error i err); simpl; auto; vis. Qed.

Lemma lookupTable_unseen name p i : kept visible_eq i (lookupTable name p i).
Proof.
  unfold lookupTable, GetAt.
  destruct (localsTable i !! p) as [d|].
  - pose proof (GetAtWithString_unseen (env i) d (Lexeme name) i) as H.
    destruct (GetAtWithString (env i) d (Lexeme name) i) as [v j|err j| |];
      simpl in *; auto.
    pose proof (@asRuntimeError_unseen Value name err j) as H'.
    destruct (asRuntimeError name err j); simpl in *; auto;
      eapply visible_eq_trans; eauto.
  - pose proof (Get_unseen (globals i) name i) as H.
    destruct (Get (globals i) name i) as [v j|err j| |]; simpl in *; auto.
    pose proof (@asRuntimeError_unseen Value name err j) as H'.
    destruct (asRuntimeError name err j); simpl in *; auto;
      eapply visible_eq_trans; eauto.
Qed.

Lemma LoxInstance_Get_unseen o name i :
  kept visible_eq i (LoxInstance_Get o name i).
Proof.
  unfold LoxInstance_Get, Bind, NewEnvironment, NewFunction.
  destruct (fields (the_instance i o) !! Lexeme name); simpl; [vis|].
  destruct (findMethod (class (the_instance i o)) (Lexeme name) i);
    simpl; vis.
Qed.

Lemma binarySwitch_unseen operator l r i :
  kept visible_eq i (binarySwitch operator l r i).
Proof. unfold binarySwitch. repeat case_match; simpl; auto; vis. Qed.

Lemma fold_Define_visible e (l : list (Token * Value)) :
  forall j,
    visible_eq j
      (fold_left (fun i pa => Define e (Lexeme (fst pa)) (snd pa) i) l j).
Proof.
  induction l as [|pa l IH]; intros j; simpl; [vis|].
  eapply visible_eq_trans; [| apply IH]. vis.
Qed.

Lemma methodsLoop_visible stmt_methods :
  forall methods i,
    visible_eq i (snd (methodsLoop stmt_methods methods i))
    /\ environments (snd (methodsLoop stmt_methods methods i))
       = environments i.
Proof.
  induction stmt_methods as [|m rest IH]; intros methods i; simpl.
  - split; [vis | reflexivity].
  - match goal with
    | |- visible_eq _ (snd (methodsLoop _ ?ms ?j)) /\ _ =>
        destruct (IH ms j) as [Hv He]
    end.
    split; [| rewrite He; reflexivity].
    eapply visible_eq_trans; [| exact Hv]. vis.
Qed.

(** The environment pushed for [super] by a class declaration: its parent
    is the environment that was current. *)
Lemma pushed_scope a val :
  but_env a
    (let '(e, i0) := NewEnvironment (Some (env a)) a in
     Define (env (set_env i0 e)) "super" val (set_env i0 e))
  /\ Enclosing
       (the_env
          (let '(e, i0) := NewEnvironment (Some (env a)) a in
           Define (env (set_env i0 e)) "super" val (set_env i0 e))
          (env (let '(e, i0) := NewEnvironment (Some (env a)) a in
                Define (env (set_env i0 e)) "super" val (set_env i0 e))))
     = Some (env a).
Proof.
  unfold NewEnvironment. cbn beta iota zeta. split.
  - repeat split; reflexivity.
  - unfold Define, the_env. simpl.
    rewrite list_lookup_insert_eq by (rewrite length_app; simpl; lia).
    simpl. rewrite list_lookup_middle by reflexivity. reflexivity.
Qed.

Section Kept.

Variable R : Interpreter -> Interpreter -> Prop.
Hypothesis HR : kept_by_steps R.

Ltac kept_step :=
  first
    [ exact I
    | assumption
    | apply (kept_same R HR); vis
    | apply (kept_bind R _ _ _ HR); [| intros ? ?]
    | match goal with
      | H : ev_keeps R ?ev |- kept R _ (?ev _ _) => apply H
      | H : ex_keeps R ?ex |- kept R _ (?ex _ _) => apply H
      | |- kept R _ (match ?x with _ => _ end) => destruct x
      end
    | progress simpl ].

Ltac kept_steps := repeat kept_step.

Lemma blockLoop_kept ex statements :
  ex_keeps R ex ->
  forall value i, kept R i (blockLoop ex statements value i).
Proof using HR.
  intros Hex. induction statements as [|s rest IH]; intros value i; simpl.
  - apply (kept_same R HR); vis.
  - apply (kept_bind R _ _ _ HR); [apply Hex|]. intros a i1.
    destruct (isReturningValue i1); [apply (kept_same R HR); vis | apply IH].
Qed.

Lemma executeBlock_kept ex statements e i :
  ex_keeps R ex -> kept R i (executeBlock ex statements e i).
Proof using HR.
  intros Hex. unfold executeBlock.
  pose proof (blockLoop_kept ex statements Hex VNil (set_env i e)) as H.
  destruct (blockLoop ex statements VNil (set_env i e)) as [v j|err j| |];
    simpl in *; auto;
    (eapply (kept_scope R HR i (set_env i e) j); [| exact H | |];
     repeat split; reflexivity).
Qed.

Lemma evaluateAll_kept ev es :
  ev_keeps R ev -> forall values i, kept R i (evaluateAll ev es values i).
Proof using HR.
  intros Hev. induction es as [|e rest IH]; intros values i; simpl.
  - apply (kept_same R HR); vis.
  - apply (kept_bind R _ _ _ HR); [apply Hev|]. intros a i1. apply IH.
Qed.

Lemma dictLoop_kept ev mapExpr :
  ev_keeps R ev -> forall dict i, kept R i (dictLoop ev mapExpr dict i).
Proof using HR.
  intros Hev. induction mapExpr as [|[k v] rest IH]; intros dict i; simpl.
  - apply (kept_same R HR); vis.
  - apply (kept_bind R _ _ _ HR); [apply Hev|]. intros a i1.
    destruct (dict_lookup (Lexeme k) dict);
      [apply (kept_same R HR); vis | apply IH].
Qed.

Lemma whileLoop_kept ev ex rounds cond body :
  ev_keeps R ev -> ex_keeps R ex ->
  forall condition i, kept R i (whileLoop ev ex rounds cond body condition i).
Proof using HR.
  intros Hev Hex. induction rounds as [|n IH]; intros condition i; simpl.
  - destruct (isTruthy condition); simpl; auto. apply (kept_same R HR); vis.
  - destruct (isTruthy condition); [| apply (kept_same R HR); vis].
    apply (kept_bind R _ _ _ HR); [apply Hex|]. intros _ i1.
    apply (kept_bind R _ _ _ HR); [apply Hev|]. intros c i2. apply IH.
Qed.

Lemma VisitClassStmt_kept ev name superClass stmt_methods i :
  ev_keeps R ev -> kept R i (VisitClassStmt ev name superClass stmt_methods i).
Proof using HR.
  intros Hev. unfold VisitClassStmt.
  eapply kept_from with (i1 := Define (env i) (Lexeme name) VNil i);
    [exact HR | vis |].
  apply kept_bind_eq; [exact HR | |].
  - destruct superClass as [[p superName]|]; [| apply (kept_same R HR); vis].
    apply (kept_bind R _ _ _ HR); [apply Hev|]. intros spc i1.
    destruct spc; apply (kept_same R HR); vis.
  - intros superclass i1 Heq.
    assert (Hfin : forall j c, R i1 j ->
              kept R i1
                (Ok (VClass c)
                   match Assign (env j) name (VClass c) j with
                   | Ok _ i' => i'
                   | _ => j
                   end)).
    { intros j c Hj. simpl.
      pose proof (Assign_unseen (env j) name (VClass c) j) as Ha.
      destruct (Assign (env j) name (VClass c) j); simpl in *; auto.
      eapply (kept_trans R HR); [exact Hj | apply (kept_same R HR); exact Ha]. }
    cbv beta iota zeta delta [NewLoxClass].
    destruct superClass as [[p superName]|].
    + assert (Hsome : exists c, superclass = Some c).
      { destruct (ev (VariableExpr p superName)
                    (Define (env i) (Lexeme name) VNil i)) as [spc j|e j| |];
          simpl in Heq; try discriminate.
        destruct spc; inversion Heq; eauto. }
      destruct Hsome as [c ->].
      set (a := Define (env i1) (Lexeme name) VNil i1).
      destruct (pushed_scope a (VClass c)) as [Hbut Hpar].
      match goal with
      | |- context [methodsLoop stmt_methods ∅ ?P] =>
          set (pushed := P) in *;
          destruct (methodsLoop_visible stmt_methods ∅ pushed) as [Hv He];
          destruct (methodsLoop stmt_methods ∅ pushed) as [methods i0] eqn:Em
      end.
      simpl in Hv, He.
      assert (Hpop : Enclosing
                       (the_env
                          (set_classes i0
                             (classes i0 ++
                              [mkLoxClass (Lexeme name) (Some c) methods]))
                          (env
                             (set_classes i0
                                (classes i0 ++
                                 [mkLoxClass (Lexeme name) (Some c) methods]))))
                     = Some (env a)).
      { rewrite <- Hpar. unfold the_env.
        destruct Hv as (Henv & _).
        change (env (set_classes i0
                       (classes i0 ++
                        [mkLoxClass (Lexeme name) (Some c) methods])))
          with (env i0).
        change (environments
                  (set_classes i0
                     (classes i0 ++
                      [mkLoxClass (Lexeme name) (Some c) methods])))
          with (environments i0).
        rewrite He, Henv. reflexivity. }
      rewrite Hpop.
      apply Hfin.
      eapply (kept_scope R HR i1 pushed i0).
      * destruct Hbut as (H1 & H2 & H3 & H4). repeat split; assumption.
      * apply (kept_same R HR). exact Hv.
      * repeat split; reflexivity.
      * reflexivity.
    + assert (Hnone : superclass = None) by (inversion Heq; reflexivity).
      subst superclass.
      destruct (methodsLoop_visible stmt_methods ∅
                  (Define (env i1) (Lexeme name) VNil i1)) as [Hv He].
      destruct (methodsLoop stmt_methods ∅
                  (Define (env i1) (Lexeme name) VNil i1))
        as [methods i0] eqn:Em.
      simpl in Hv, He.
      apply (Hfin (set_classes i0
                     (classes i0 ++ [mkLoxClass (Lexeme name) None methods]))).
      apply (kept_same R HR).
      eapply visible_eq_trans; [| eapply visible_eq_trans; [exact Hv | vis]].
      vis.
Qed.

Lemma LoxFunction_Call_kept ex f arguments i :
  ex_keeps R ex -> kept R i (LoxFunction_Call ex f arguments i).
Proof using HR.
  intros Hex. unfold LoxFunction_Call, NewEnvironment.
  match goal with
  | |- kept R _ (bind (executeBlock _ _ _ ?j) _) =>
      apply kept_from with (i1 := j); [exact HR | |]
  end.
  { eapply visible_eq_trans; [| apply fold_Define_visible]. vis. }
  apply (kept_bind R _ _ _ HR); [apply executeBlock_kept; exact Hex|].
  intros value i1. destruct (isInitializer (the_function i f)).
  - apply (kept_bind R _ _ _ HR).
    + apply kept_unseen; [exact HR | apply GetAtWithString_unseen].
    + intros; apply (kept_same R HR); vis.
  - destruct (isReturningValue i1); apply (kept_same R HR); vis.
Qed.

Lemma Call_kept ex callable arguments i :
  ex_keeps R ex -> kept R i (Call ex callable arguments i).
Proof using HR.
  intros Hex. destruct callable; simpl; try exact I.
  - apply (kept_same R HR); vis.
  - apply LoxFunction_Call_kept; exact Hex.
  - unfold LoxClass_Call, NewLoxInstance, Bind, NewEnvironment, NewFunction.
    match goal with
    | |- kept R _ (match ?x with _ => _ end) => destruct x
    end; [| apply (kept_same R HR); vis].
    cbn beta iota zeta.
    match goal with
    | |- kept R _ (bind (LoxFunction_Call _ _ _ ?j) _) =>
        apply kept_from with (i1 := j); [exact HR | vis |]
    end.
    apply (kept_bind R _ _ _ HR); [apply LoxFunction_Call_kept; exact Hex|].
    intros; apply (kept_same R HR); vis.
Qed.

Lemma VisitCallExpr_kept ev ex callee paren arguments i :
  ev_keeps R ev -> ex_keeps R ex ->
  kept R i (VisitCallExpr ev ex callee paren arguments i).
Proof using HR.
  intros Hev Hex. unfold VisitCallExpr.
  apply kept_defer; [exact HR | intros j; vis |].
  apply (kept_bind R _ _ _ HR); [apply Hev|]. intros c i1.
  apply (kept_bind R _ _ _ HR); [apply evaluateAll_kept; exact Hev|].
  intros vs i2.
  destruct (negb (isCallable c)); [apply (kept_same R HR); vis|].
  destruct (negb (length vs =? Arity c i2)%nat); [apply (kept_same R HR); vis|].
  pose proof (Call_kept ex c vs (set_callStack i2 (callStack i2 ++ [c])) Hex)
    as Hc.
  destruct (Call ex c vs (set_callStack i2 (callStack i2 ++ [c])))
    as [v j|e j| |]; simpl in *; auto;
    (eapply (kept_frame R HR i2 (set_callStack i2 (callStack i2 ++ [c])) j);
     [repeat split; reflexivity | reflexivity | exact Hc
     | repeat split; reflexivity | reflexivity]).
Qed.

Lemma Expr_Accept_kept ev ex expr i :
  ev_keeps R ev -> ex_keeps R ex -> kept R i (Expr_Accept ev ex expr i).
Proof using HR.
  intros Hev Hex. destruct expr; simpl.
  - apply (kept_same R HR); vis.
  - apply Hev.
  - unfold VisitUnaryExpr. kept_steps.
  - unfold VisitBinaryExpr. kept_steps.
    apply kept_unseen; [exact HR | apply binarySwitch_unseen].
  - unfold VisitLogicalExpr. kept_steps.
  - unfold VisitTernaryExpr. kept_steps.
  - unfold VisitVariableExpr.
    apply (kept_bind R _ _ _ HR);
      [apply kept_unseen; [exact HR | apply lookupTable_unseen]|].
    intros v i1. destruct v; try (apply (kept_same R HR); vis).
    destruct e; apply (kept_same R HR); vis.
  - unfold VisitAssignExpr.
    apply (kept_bind R _ _ _ HR); [apply Hev|]. intros v i1.
    destruct (localsTable i1 !! p) as [d|].
    + pose proof (AssignAt_unseen (env i1) d name v i1) as H.
      destruct (AssignAt (env i1) d name v i1) as [u j|err j| |];
        simpl in *; auto; [apply (kept_same R HR); exact H|].
      apply kept_from with (i1 := j); [exact HR | exact H |].
      apply kept_unseen; [exact HR | apply asRuntimeError_unseen].
    + pose proof (Assign_unseen (globals i1) name v i1) as H.
      destruct (Assign (globals i1) name v i1) as [u j|err j| |];
        simpl in *; auto; [apply (kept_same R HR); exact H|].
      apply kept_from with (i1 := j); [exact HR | exact H |].
      apply kept_unseen; [exact HR | apply asRuntimeError_unseen].
  - apply VisitCallExpr_kept; assumption.
  - unfold VisitGetExpr.
    apply (kept_bind R _ _ _ HR); [apply Hev|]. intros v i1.
    destruct v; try (apply (kept_same R HR); vis).
    apply kept_unseen; [exact HR | apply LoxInstance_Get_unseen].
  - unfold VisitSetExpr. kept_steps.
  - apply kept_unseen; [exact HR | apply lookupTable_unseen].
  - unfold VisitSuperExpr.
    apply (kept_bind R _ _ _ HR);
      [apply kept_unseen; [exact HR | apply GetAtWithString_unseen]|].
    intros spc i1.
    apply (kept_bind R _ _ _ HR);
      [apply kept_unseen; [exact HR | apply GetAtWithString_unseen]|].
    intros object i2. unfold Bind, NewEnvironment, NewFunction.
    destruct object; try (apply (kept_same R HR); vis).
    destruct spc; try exact I.
    match goal with
    | |- kept R _ (match findMethod ?c ?m ?j with _ => _ end) =>
        destruct (findMethod c m j)
    end; apply (kept_same R HR); vis.
  - unfold VisitListExpr.
    apply (kept_bind R _ _ _ HR); [apply evaluateAll_kept; exact Hev|].
    intros; apply (kept_same R HR); vis.
  - unfold VisitDictionaryExpr.
    apply (kept_from R i (set_mapRanges i (S (mapRanges i))) _ HR);
      [vis | apply dictLoop_kept; exact Hev].
  - unfold VisitSelectExpr. kept_steps.
Qed.

Lemma Stmt_Accept_kept ev ex rounds stmt i :
  ev_keeps R ev -> ex_keeps R ex -> kept R i (Stmt_Accept ev ex rounds stmt i).
Proof using HR.
  intros Hev Hex. destruct stmt; simpl.
  - unfold VisitExpressionStmt. kept_steps.
  - unfold VisitPrintStmt.
    apply (kept_bind R _ _ _ HR); [apply Hev|]. intros v i1. simpl.
    apply (kept_print R HR i1 _ (Stringify i1 v)); reflexivity.
  - unfold VisitVarStmt. kept_steps.
  - unfold VisitBlockStmt, NewEnvironment.
    eapply kept_from; [exact HR | | apply executeBlock_kept; exact Hex]. vis.
  - unfold VisitIfStmt. kept_steps.
  - unfold VisitWhileStmt.
    apply kept_defer; [exact HR | intros j; vis |].
    eapply kept_from with (i1 := set_currentLoop i _); [exact HR | vis |].
    apply (kept_bind R _ _ _ HR); [apply Hev|]. intros c i1.
    apply whileLoop_kept; assumption.
  - apply (kept_same R HR); vis.
  - apply (kept_same R HR); vis.
  - unfold VisitReturnStmt. kept_steps.
  - apply VisitClassStmt_kept; exact Hev.
Qed.

(** Whatever every step keeps, every evaluation and every execution
    keeps. *)
Lemma Evaluate_execute_kept fuel :
  ev_keeps R (Evaluate fuel) /\ ex_keeps R (execute fuel).
Proof using HR.
  induction fuel as [|n [IHev IHex]].
  - split; intros ? ?; exact I.
  - split.
    + intros e i. simpl.
      destruct (breakCurrentLoop i); [apply (kept_same R HR); vis|].
      apply Expr_Accept_kept; assumption.
    + intros s i. simpl.
      destruct (breakCurrentLoop i); [apply (kept_same R HR); vis|].
      apply (kept_bind R _ _ _ HR);
        [apply Stmt_Accept_kept; assumption
        | intros; apply (kept_same R HR); vis].
Qed.

Lemma interpretLoop_kept ex statements :
  ex_keeps R ex ->
  forall value i, kept R i (interpretLoop ex statements value i).
Proof using HR.
  intros Hex. induction statements as [|s rest IH]; intros value i; simpl.
  - apply (kept_same R HR); vis.
  - apply (kept_bind R _ _ _ HR); [apply Hex|]. intros a i1. apply IH.
Qed.

End Kept.

Lemma same_frame_kept : kept_by_steps same_frame.
Proof.
  constructor.
  - intros i j k (H1 & H2 & H3 & H4) (K1 & K2 & K3 & K4).
    repeat split; congruence.
  - intros i j (H1 & H2 & H3 & H4 & H5). repeat split; assumption.
  - intros i j line H1 H2 H3 H4 H5. repeat split; assumption.
  - intros i a j k (A1 & A2 & A3 & A4) (J1 & J2 & J3 & J4)
      (K1 & K2 & K3 & K4) Hk.
    repeat split; congruence.
  - intros i a j k c (A1 & A2 & A3 & A4) Ha (J1 & J2 & J3 & J4)
      (K1 & K2 & K3 & K4) Hk.
    repeat split; try congruence.
    rewrite Hk, J4, Ha, length_app. simpl.
    replace (length (callStack i) + 1 - 1)%nat with (length (callStack i))
      by lia.
    apply take_app_length.
Qed.

Lemma printed_more_kept : kept_by_steps printed_more.
Proof.
  constructor.
  - intros i j k [l1 H1] [l2 H2]. exists (l1 ++ l2).
    rewrite H2, H1, app_assoc. reflexivity.
  - intros i j (H1 & H2 & H3 & H4 & H5). exists []. rewrite app_nil_r.
    exact H5.
  - intros i j line _ _ _ _ H. exists [line]. exact H.
  - intros i a j k (A1 & A2 & A3 & A4) [l H] (K1 & K2 & K3 & K4) _.
    exists l. congruence.
  - intros i a j k c (A1 & A2 & A3 & A4) _ [l H] (K1 & K2 & K3 & K4) _.
    exists l. congruence.
Qed.

Lemma kept_returns {A : Type} R i (r : Outcome A) i' :
  kept R i r -> returns r i' -> R i i'.
Proof.
  intros Hs [[a ->]|[e ->]]; exact Hs.
Qed.

(** X1: whenever [Evaluate], [execute] or [Interpret] returns, with a value
    or with an error, the current environment, the global environment, the
    depth map and the call stack are the ones from before: every scope that
    was entered was left, every callable pushed was popped, and nothing
    but [ResolveExpression] writes the depth map. *)
Theorem evaluation_restores_the_frame :
  forall fuel,
    (forall expr i i',
        returns (Evaluate fuel expr i) i' -> same_frame i i')
    /\ (forall stmt i i',
        returns (execute fuel stmt i) i' -> same_frame i i')
    /\ (forall statements i i',
        returns (Interpret fuel statements i) i' -> same_frame i i').
Proof.
  intros fuel.
  destruct (Evaluate_execute_kept same_frame same_frame_kept fuel)
    as [Hev Hex].
  split; [| split].
  - intros expr i i'. apply kept_returns. apply Hev.
  - intros stmt i i'. apply kept_returns. apply Hex.
  - intros statements i i'. apply kept_returns.
    apply (interpretLoop_kept same_frame same_frame_kept). exact Hex.
Qed.

(** X2: whenever [Evaluate], [execute] or [Interpret] returns, with a value
    or with an error, standard output is what it was followed by the lines
    printed meanwhile: nothing that was printed is ever changed or
    removed. *)
Theorem output_is_only_appended :
  forall fuel,
    (forall expr i i',
        returns (Evaluate fuel expr i) i' ->
        exists lines, stdout i' = stdout i ++ lines)
    /\ (forall stmt i i',
        returns (execute fuel stmt i) i' ->
        exists lines, stdout i' = stdout i ++ lines)
    /\ (forall statements i i',
        returns (Interpret fuel statements i) i' ->
        exists lines, stdout i' = stdout i ++ lines).
Proof.
  intros fuel.
  destruct (Evaluate_execute_kept printed_more printed_more_kept fuel)
    as [Hev Hex].
  split; [| split].
  - intros expr i i' H. exact (kept_returns _ _ _ _ (Hev expr i) H).
  - intros stmt i i' H. exact (kept_returns _ _ _ _ (Hex stmt i) H).
  - intros statements i i' H.
    exact (kept_returns _ _ _ _
             (interpretLoop_kept printed_more printed_more_kept _ statements
                Hex VNil i) H).
Qed.

(** ** Operators *)

(** X3: [or] and [and] short-circuit and yield an operand, not a boolean:
    when the left operand of [or] is truthy, or the left operand of [and]
    is falsy, the expression evaluates to the left value in the interpreter
    the left operand left, whatever the right operand is (it is not
    evaluated); otherwise it is the evaluation of the right operand. *)
Theorem logical_operators_short_circuit :
  forall fuel p l operator r i v i1,
    breakCurrentLoop i = false ->
    Evaluate fuel l i = Ok v i1 ->
    (Type_ operator = OR -> isTruthy v = true ->
     Evaluate (S fuel) (LogicalExpr p l operator r) i = Ok v i1)
    /\ (Type_ operator = AND -> isTruthy v = false ->
        Evaluate (S fuel) (LogicalExpr p l operator r) i = Ok v i1)
    /\ (Type_ operator = OR -> isTruthy v = false ->
        Evaluate (S fuel) (LogicalExpr p l operator r) i
        = Evaluate fuel r i1)
    /\ (Type_ operator = AND -> isTruthy v = true ->
        Evaluate (S fuel) (LogicalExpr p l operator r) i
        = Evaluate fuel r i1).
Proof.
  intros fuel p l operator r i v i1 Hb Hl.
  assert (Hstep : Evaluate (S fuel) (LogicalExpr p l operator r) i
                  = if String.eqb (Type_ operator) OR && isTruthy v
                    then Ok v i1
                    else if String.eqb (Type_ operator) AND
                            && negb (isTruthy v)
                         then Ok v i1 else Evaluate fuel r i1).
  { simpl. rewrite Hb. unfold VisitLogicalExpr. rewrite Hl. reflexivity. }
  rewrite Hstep. repeat split; intros Hop Ht; rewrite Hop, Ht; reflexivity.
Qed.

(** X4: only nil and false are falsy (zero, the empty string, an empty
    list are truthy); [!e] evaluates to the boolean opposite of the
    truthiness of the value of [e], and [-e] to the error
    [Operand must be a number.] unless that value is a number. *)
Theorem truthiness_and_unary_operators :
  (forall v, isTruthy v = false <-> v = VNil \/ v = VBool false)
  /\ (forall fuel p operator e i v i1,
      breakCurrentLoop i = false ->
      Evaluate fuel e i = Ok v i1 ->
      (Type_ operator = BANG ->
       Evaluate (S fuel) (UnaryExpr p operator e) i
       = Ok (VBool (negb (isTruthy v))) i1)
      /\ (Type_ operator = MINUS -> isNumber v = false ->
          Evaluate (S fuel) (UnaryExpr p operator e) i
          = Err (RuntimeError operator "Operand must be a number."
                   (callStack i1)) i1)).
Proof.
  split.
  - intros v. split.
    + destruct v as [|[|]| | | | | | | | |]; simpl; intros H;
        try discriminate; auto.
    + intros [->| ->]; reflexivity.
  - intros fuel p operator e i v i1 Hb He. split.
    + intros Hop. simpl. rewrite Hb. unfold VisitUnaryExpr. rewrite He.
      simpl. rewrite Hop. reflexivity.
    + intros Hop Hn. simpl. rewrite Hb. unfold VisitUnaryExpr. rewrite He.
      simpl. rewrite Hop. simpl. destruct v; try reflexivity. discriminate.
Qed.

Lemma binarySwitch_equal operator l r i :
  Type_ operator = EQUAL_EQUAL ->
  binarySwitch operator l r i
  = match interface_eq l r with
    | Some b => Ok (VBool b) i
    | None => Panic "runtime error: comparing uncomparable type"
    end.
Proof. intros H. unfold binarySwitch. rewrite H. reflexivity. Qed.

Lemma binarySwitch_not_equal operator l r i :
  Type_ operator = BANG_EQUAL ->
  binarySwitch operator l r i
  = match interface_eq l r with
    | Some b => Ok (VBool (negb b)) i
    | None => Panic "runtime error: comparing uncomparable type"
    end.
Proof. intros H. unfold binarySwitch. rewrite H. reflexivity. Qed.

(** X5: [==] and [!=] never return an error, and they panic exactly when
    both operands are lists or both are dictionaries; on every other pair
    both return a boolean, and the one of [!=] is the opposite of the one
    of [==]. *)
Theorem equality_panics_only_on_two_lists_or_two_dicts :
  forall eq neq l r i,
    Type_ eq = EQUAL_EQUAL -> Type_ neq = BANG_EQUAL ->
    ((variant l = 4 /\ variant r = 4) \/ (variant l = 5 /\ variant r = 5) ->
     binarySwitch eq l r i = Panic "runtime error: comparing uncomparable type"
     /\ binarySwitch neq l r i
        = Panic "runtime error: comparing uncomparable type")
    /\ (~ ((variant l = 4 /\ variant r = 4)
           \/ (variant l = 5 /\ variant r = 5)) ->
        exists b, binarySwitch eq l r i = Ok (VBool b) i
                  /\ binarySwitch neq l r i = Ok (VBool (negb b)) i).
Proof.
  intros eq neq l r i Heq Hneq.
  rewrite (binarySwitch_equal eq l r i Heq),
    (binarySwitch_not_equal neq l r i Hneq).
  split.
  - intros [[Hl Hr]|[Hl Hr]]; destruct l; try discriminate;
      destruct r; try discriminate; split; reflexivity.
  - intros Hn.
    destruct (interface_eq l r) as [b|] eqn:E; [eauto|].
    exfalso. apply Hn.
    destruct l, r; simpl in E; try discriminate; auto.
Qed.

(** X6: two values of different kinds are never equal, nil equals nil, and
    two functions, two classes or two instances are equal exactly when
    they are the same object. *)
Theorem equality_by_kind_and_identity :
  (forall l r, variant l <> variant r -> interface_eq l r = Some false)
  /\ interface_eq VNil VNil = Some true
  /\ (forall p q,
      (interface_eq (VFunction p) (VFunction q) = Some true <-> p = q)
      /\ (interface_eq (VClass p) (VClass q) = Some true <-> p = q)
      /\ (interface_eq (VInstance p) (VInstance q) = Some true <-> p = q)).
Proof.
  split; [| split; [reflexivity|]].
  - intros l r H. destruct l, r; simpl in *; try reflexivity; congruence.
  - intros p q. simpl. repeat split; intros H.
    + inversion H as [H']. apply Nat.eqb_eq. exact H'.
    + subst. rewrite Nat.eqb_refl. reflexivity.
    + inversion H as [H']. apply Nat.eqb_eq. exact H'.
    + subst. rewrite Nat.eqb_refl. reflexivity.
    + inversion H as [H']. apply Nat.eqb_eq. exact H'.
    + subst. rewrite Nat.eqb_refl. reflexivity.
Qed.

(** X7: a binary operator that returns a value leaves the interpreter as it
    is, and the kind of the value follows the operator: [-], [*] and [/]
    return a number and only on two numbers; [>], [>=], [<] and [<=]
    return a boolean and only on two numbers or two strings; [+] returns a
    number or a string. *)
Theorem binary_operators_result_kinds :
  forall operator l r i v i',
    binarySwitch operator l r i = Ok v i' ->
    i' = i
    /\ (Type_ operator = MINUS \/ Type_ operator = STAR
        \/ Type_ operator = SLASH ->
        isNumber l = true /\ isNumber r = true /\ isNumber v = true)
    /\ (Type_ operator = GREATER \/ Type_ operator = GREATER_EQUAL
        \/ Type_ operator = LESS \/ Type_ operator = LESS_EQUAL ->
        isBool v = true
        /\ ((isNumber l = true /\ isNumber r = true)
            \/ (isString l = true /\ isString r = true)))
    /\ (Type_ operator = PLUS -> isNumber v = true \/ isString v = true).
Proof.
  intros operator l r i v i' H.
  split.
  { pose proof (binarySwitch_unseen operator l r i) as Hu.
    unfold binarySwitch in H.
    repeat match type of H with
           | (if ?b then _ else _) = _ => destruct b
           | match ?x with _ => _ end = _ => destruct x
           end; inversion H; reflexivity. }
  split; [| split].
  - intros [Hop|[Hop|Hop]]; unfold binarySwitch in H; rewrite Hop in H;
      simpl in H; destruct l, r; try discriminate;
      try (destruct (PrimFloat.eqb _ _); try discriminate);
      inversion H; auto.
  - intros [Hop|[Hop|[Hop|Hop]]]; unfold binarySwitch in H; rewrite Hop in H;
      simpl in H; destruct l, r; try discriminate; inversion H; auto.
  - intros Hop. unfold binarySwitch in H. rewrite Hop in H. simpl in H.
    destruct l, r; simpl in H;
      try (destruct useCrossAddition; simpl in H);
      try discriminate; inversion H; auto.
Qed.

(** ** Blocks and programs *)

Lemma blockLoop_stops ex pre :
  pre <> [] ->
  forall rest value i,
    stops_block (blockLoop ex pre value i) ->
    blockLoop ex (pre ++ rest) value i = blockLoop ex pre value i.
Proof.
  induction pre as [|s pre IH]; intros Hne rest value i; [congruence|].
  simpl. destruct (ex s i) as [v j|e j| |]; simpl; auto.
  destruct (isReturningValue j) eqn:Hr; [reflexivity|].
  destruct pre as [|s' pre'].
  - simpl. intros H. congruence.
  - apply IH. discriminate.
Qed.

(** X8: a block stops at the statement that failed or that set
    [isReturningValue]: the statements after it are never executed.  The
    flag is looked at after a statement only, so a block entered with the
    flag already set still executes its first statement. *)
Theorem block_stops_at_return_or_error :
  forall ex pre rest e i,
    pre <> [] ->
    stops_block (blockLoop ex pre VNil (set_env i e)) ->
    executeBlock ex (pre ++ rest) e i = executeBlock ex pre e i.
Proof.
  intros ex pre rest e i Hne Hstop. unfold executeBlock.
  rewrite (blockLoop_stops ex pre Hne rest VNil (set_env i e) Hstop).
  reflexivity.
Qed.

(** X9: [Interpret] runs a program part after part: a program made of two
    parts, the second not empty, is the first part followed, if it returned
    a value, by the second part in the interpreter the first part left; so
    no statement is executed after one that failed. *)
Theorem interpret_runs_part_after_part :
  forall fuel first second i,
    second <> [] ->
    Interpret fuel (first ++ second) i
    = bind (Interpret fuel first i) (fun _ i1 => Interpret fuel second i1).
Proof.
  intros fuel first second i Hne. unfold Interpret.
  rewrite interpretLoop_app.
  destruct (interpretLoop (execute fuel) first VNil i) as [v j|e j| |];
    simpl; try reflexivity.
  destruct second as [|s rest]; [congruence|]. reflexivity.
Qed.

(** ** Errors *)

Lemma callstackToString_None i callstack :
  forall n,
    (n <= length callstack)%nat ->
    (callstackToString i n callstack = None
     <-> exists k c, (k < n)%nat /\ callstack !! k = Some c
                     /\ isUserFunction c = false).
Proof.
  induction n as [|n IH]; intros Hn.
  - simpl. split; [discriminate|]. intros (k & c & Hk & _). lia.
  - simpl.
    destruct (callstack !! n) as [c|] eqn:Hc.
    2:{ apply lookup_ge_None in Hc. lia. }
    destruct (isUserFunction c) eqn:Hf.
    + destruct c; try discriminate.
      destruct (callstackToString i n callstack) as [rest|] eqn:Hrest; simpl.
      * split; [discriminate|]. intros (k & c & Hk & Hkc & Hkf).
        assert (Hcase : k = n \/ (k < n)%nat) by lia.
        destruct Hcase as [->|Hlt].
        -- rewrite Hc in Hkc. inversion Hkc; subst. discriminate.
        -- assert (Hex : exists k c, (k < n)%nat /\ callstack !! k = Some c
                                     /\ isUserFunction c = false) by eauto.
           apply IH in Hex; [discriminate | lia].
      * split; [| reflexivity]. intros _.
        destruct (proj1 (IH ltac:(lia)) eq_refl) as (k & c & Hk & Hkc & Hkf).
        exists k, c. split; [lia | auto].
    + split.
      * intros _. exists n, c. split; [lia | auto].
      * intros _. destruct c; try reflexivity. discriminate.
Qed.

(** X10: [RuntimeError.Error] formats a run-time error exactly when every
    entry of its call stack is a user function: with a class or the
    built-in [clock] on the call stack, the type assertion in
    [callstackToString] panics. *)
Theorem error_text_needs_functions_on_the_stack :
  forall i token message callstack,
    Error i (RuntimeError token message callstack) = None
    <-> exists c, c ∈ callstack /\ isUserFunction c = false.
Proof.
  intros i token message callstack. simpl.
  destruct (callstackToString i (length callstack) callstack) as [s|] eqn:E;
    simpl.
  - split; [discriminate|]. intros (c & Hin & Hf).
    apply list_elem_of_lookup in Hin. destruct Hin as [k Hk].
    assert (Hex : exists k c, (k < length callstack)%nat
                               /\ callstack !! k = Some c
                               /\ isUserFunction c = false).
    { exists k, c. split; [| auto]. apply lookup_lt_Some in Hk. exact Hk. }
    apply (callstackToString_None i callstack (length callstack)) in Hex;
      [congruence | lia].
  - split; [| reflexivity]. intros _.
    apply (callstackToString_None i callstack (length callstack)) in E;
      [| lia].
    destruct E as (k & c & _ & Hk & Hf). exists c. split; [| exact Hf].
    apply list_elem_of_lookup. eauto.
Qed.

(** ** Lists and dictionaries *)

Lemma dict_lookup_None key dict :
  dict_lookup key dict = None <-> key ∉ map fst dict.
Proof.
  induction dict as [|[k v] rest IH]; simpl.
  - split; [intros _ H; inversion H | reflexivity].
  - destruct (String.eqb k key) eqn:E.
    + apply String.eqb_eq in E. subst. split; [discriminate|].
      intros H. exfalso. apply H. left.
    + apply String.eqb_neq in E. rewrite IH. split.
      * intros H Hin. apply elem_of_cons in Hin as [->|Hin]; auto.
      * intros H Hin. apply H. right. exact Hin.
Qed.

Lemma dict_lookup_member key value dict :
  NoDup (map fst dict) -> (key, value) ∈ dict ->
  dict_lookup key dict = Some value.
Proof.
  induction dict as [|[k v] rest IH]; simpl; intros Hnd Hin.
  - inversion Hin.
  - apply NoDup_cons in Hnd as [Hk Hnd].
    apply elem_of_cons in Hin as [Heq|Hin].
    + inversion Heq; subst. rewrite String.eqb_refl. reflexivity.
    + destruct (String.eqb k key) eqn:E; [| apply IH; assumption].
      apply String.eqb_eq in E. subst. exfalso. apply Hk.
      apply list_elem_of_fmap. exists (key, value). split; [reflexivity|].
      exact Hin.
Qed.

Lemma dictLoop_result ev mapExpr :
  forall dict i v i',
    dictLoop ev mapExpr dict i = Ok v i' ->
    NoDup (map fst dict) ->
    exists added,
      v = VDict (dict ++ added)
      /\ map fst added = map (fun kv => Lexeme (fst kv)) mapExpr
      /\ NoDup (map fst (dict ++ added))
      /\ evaluatedInOrder ev (map snd mapExpr) i (map snd added) i'.
Proof.
  induction mapExpr as [|[k e] rest IH]; intros dict i v i' H Hnd; simpl in H.
  - inversion H; subst. exists []. rewrite app_nil_r.
    repeat split; auto. constructor.
  - destruct (ev e i) as [value j|err j| |] eqn:Hev; simpl in H;
      try discriminate.
    destruct (dict_lookup (Lexeme k) dict) eqn:Hl; [discriminate|].
    apply dict_lookup_None in Hl.
    apply IH in H.
    2:{ rewrite map_app. simpl. apply NoDup_app. split; [exact Hnd|].
        split; [| apply NoDup_singleton].
        intros x Hx Hx'. apply list_elem_of_singleton in Hx'. subst.
        contradiction. }
    destruct H as (added & -> & Hkeys & Hnd' & Hord).
    exists ((Lexeme k, value) :: added).
    rewrite <- app_assoc in *. simpl in *.
    repeat split; auto.
    + rewrite Hkeys. reflexivity.
    + econstructor; eauto.
Qed.

(** X11: a dictionary literal is evaluated in the order in which the
    runtime ranges over its entries, which is not the order of the source
    in general and changes from one evaluation to the next.  When it
    evaluates, the result is a dictionary with one entry per entry visited,
    keyed by its lexeme, the values being those of the entries' expressions
    evaluated one after the other in the order visited; its keys are
    pairwise distinct (a repeated key is refused), so looking up the key of
    an entry finds the value of that entry.  A range visits every entry of
    the map once: then the keys are the lexemes of the literal's keys, up
    to their order. *)
Theorem dictionary_literal_has_distinct_keys :
  forall ev mapExpr i v i',
    VisitDictionaryExpr ev mapExpr i = Ok v i' ->
    exists dict,
      let visited := rangeOrder (mapRanges i) mapExpr in
      v = VDict dict
      /\ map fst dict = map (fun kv => Lexeme (fst kv)) visited
      /\ NoDup (map fst dict)
      /\ evaluatedInOrder ev (map snd visited)
           (set_mapRanges i (S (mapRanges i))) (map snd dict) i'
      /\ (forall key value,
          (key, value) ∈ dict -> dict_lookup key dict = Some value)
      /\ (visited ≡ₚ mapExpr ->
          map fst dict ≡ₚ map (fun kv => Lexeme (fst kv)) mapExpr
          /\ length dict = length mapExpr).
Proof.
  intros ev mapExpr i v i' H. unfold VisitDictionaryExpr in H.
  apply dictLoop_result in H; [| apply NoDup_nil_2].
  destruct H as (added & -> & Hkeys & Hnd & Hord). simpl in *.
  exists added. repeat split; auto.
  - intros key value Hin. apply dict_lookup_member; assumption.
  - rewrite Hkeys. apply fmap_Permutation. assumption.
  - rewrite <- (length_map fst added), Hkeys, length_map.
    apply Permutation_length. assumption.
Qed.

Lemma evaluateAll_result ev es :
  forall values i out i',
    evaluateAll ev es values i = Ok out i' ->
    exists vs, out = values ++ vs /\ evaluatedInOrder ev es i vs i'.
Proof.
  induction es as [|e rest IH]; intros values i out i' H; simpl in H.
  - inversion H; subst. exists []. rewrite app_nil_r. split; constructor.
  - destruct (ev e i) as [v j|err j| |] eqn:Hev; simpl in H; try discriminate.
    apply IH in H. destruct H as (vs & -> & Hord).
    exists (v :: vs). rewrite <- app_assoc. split; [reflexivity|].
    econstructor; eauto.
Qed.

Lemma evaluatedInOrder_length ev es i vs i' :
  evaluatedInOrder ev es i vs i' -> length vs = length es.
Proof. induction 1; simpl; congruence. Qed.

(** X12: a list literal evaluates to a value exactly when its elements,
    evaluated one after the other from left to right, all return values;
    the value is the list of these values, one per element. *)
Theorem list_literal_evaluates_elements_in_order :
  forall ev values i v i',
    VisitListExpr ev values i = Ok v i'
    <-> exists vs, v = VList vs
                   /\ evaluatedInOrder ev values i vs i'
                   /\ length vs = length values.
Proof.
  intros ev values i v i'. unfold VisitListExpr. split.
  - destruct (evaluateAll ev values [] i) as [out j|err j| |] eqn:E;
      simpl; try discriminate.
    intros H. inversion H; subst.
    apply evaluateAll_result in E. destruct E as (vs & -> & Hord).
    exists vs. simpl. repeat split; auto.
    eapply evaluatedInOrder_length; eauto.
  - intros (vs & -> & Hord & _).
    rewrite (evaluateAll_inOrder _ _ _ _ _ Hord []). reflexivity.
Qed.

(** X13: a subscript on a list whose index is a number returns the element
    at the index truncated to an integer when that is within bounds, and
    the error [Index out of range: n] otherwise (also for a negative one);
    on a dictionary with a string key it returns the value under the key
    or the error [Undefined property]; on any other object it fails
    without evaluating the index. *)
Theorem subscript_checks_bounds_and_keys :
  forall ev object name i o i1,
    ev object i = Ok o i1 ->
    (forall l f i2,
        o = VList l -> ev name i1 = Ok (VNumber f) i2 ->
        ((0 <= float64_to_int f < Z.of_nat (length l))%Z ->
         exists x, l !! Z.to_nat (float64_to_int f) = Some x
                   /\ VisitSelectExpr ev object name i = Ok x i2)
        /\ (~ (0 <= float64_to_int f < Z.of_nat (length l))%Z ->
            VisitSelectExpr ev object name i
            = Err (RuntimeError Token_zero
                     ("Index out of range: " +:+ Sprintf_d (float64_to_int f))
                     (callStack i2)) i2))
    /\ (forall d key i2,
        o = VDict d -> ev name i1 = Ok (VString key) i2 ->
        VisitSelectExpr ev object name i
        = match dict_lookup key d with
          | Some value => Ok value i2
          | None =>
              Err (RuntimeError Token_zero
                     ("Undefined property '" +:+ key +:+ "'.") (callStack i2))
                i2
          end)
    /\ (variant o <> 4 -> variant o <> 5 ->
        VisitSelectExpr ev object name i
        = Err (RuntimeError Token_zero
                 "Only dictionaries or list can have properties."
                 (callStack i1)) i1).
Proof.
  intros ev object name i o i1 Ho. unfold VisitSelectExpr. rewrite Ho. simpl.
  split; [| split].
  - intros l f i2 -> Hn. rewrite Hn. simpl. split.
    + intros [H0 Hlen].
      destruct (float64_to_int f <? 0)%Z eqn:E1; [apply Z.ltb_lt in E1; lia|].
      destruct (Z.of_nat (length l) <=? float64_to_int f)%Z eqn:E2;
        [apply Z.leb_le in E2; lia|].
      simpl.
      destruct (l !! Z.to_nat (float64_to_int f)) as [x|] eqn:Hx.
      * exists x. split; [reflexivity|].
        rewrite (nth_lookup_Some _ _ _ _ Hx). reflexivity.
      * apply lookup_ge_None in Hx. lia.
    + intros Hout.
      destruct (float64_to_int f <? 0)%Z eqn:E1; [reflexivity|].
      destruct (Z.of_nat (length l) <=? float64_to_int f)%Z eqn:E2;
        [reflexivity|].
      apply Z.ltb_ge in E1. apply Z.leb_gt in E2. lia.
  - intros d key i2 -> Hn. rewrite Hn. reflexivity.
  - intros H4 H5. destruct o; simpl in *; try reflexivity; congruence.
Qed.

(** ** Values, statements and flags *)

(** X14: a binding that holds a literal node (what [VisitSetExpr] hands
    to [Set] for [o.x = 5], once it is copied into a variable) is read as
    the value of the literal: where [lookupTable] finds the node of the
    literal [value], the Variable expression evaluates to [value]; where
    it finds anything else, also the node of another expression, the
    Variable expression evaluates to what was found.  So a Variable
    expression never evaluates to a literal node, and [Stringify] prints
    such a node as it prints the literal's value. *)
Theorem literal_nodes_are_unwrapped :
  (forall fuel p name i q value i1,
      breakCurrentLoop i = false ->
      lookupTable name p i = Ok (VExpr (LiteralExpr q value)) i1 ->
      Evaluate (S fuel) (VariableExpr p name) i
      = Ok (Value_of_literal value) i1)
  /\ (forall fuel p name i v i1,
      breakCurrentLoop i = false ->
      lookupTable name p i = Ok v i1 ->
      (forall q value, v <> VExpr (LiteralExpr q value)) ->
      Evaluate (S fuel) (VariableExpr p name) i = Ok v i1)
  /\ (forall fuel p name i v i',
      Evaluate fuel (VariableExpr p name) i = Ok v i' ->
      forall q value, v <> VExpr (LiteralExpr q value))
  /\ (forall i q value,
      Stringify i (VExpr (LiteralExpr q value))
      = Stringify i (Value_of_literal value)).
Proof.
  split; [| split; [| split]].
  - intros fuel p name i q value i1 Hb Hl. simpl. rewrite Hb.
    unfold VisitVariableExpr. rewrite Hl. reflexivity.
  - intros fuel p name i v i1 Hb Hl Hv. simpl. rewrite Hb.
    unfold VisitVariableExpr. rewrite Hl. simpl.
    destruct v; try reflexivity. destruct e; try reflexivity.
    contradiction (Hv p0 value). reflexivity.
  - intros fuel p name i v i' H q value Hv. subst v.
    destruct fuel as [|n]; [discriminate|]. simpl in H.
    destruct (breakCurrentLoop i); [discriminate|].
    unfold VisitVariableExpr in H.
    destruct (lookupTable name p i) as [a j|err j| |]; simpl in H;
      try discriminate.
    destruct a; try discriminate.
    destruct e; try discriminate.
    destruct value0; discriminate.
  - intros i q value. destruct value as [|[|]| |]; reflexivity.
Qed.



(** X16: the two flags are cleared where the constructs they belong to
    end, on every return: after a while statement returned, with a value
    or with an error, no break is pending and no loop is current; after a
    Call expression returned, [isReturningValue] is not set. *)
Theorem flags_are_cleared_on_every_return :
  (forall fuel condition body i i',
      breakCurrentLoop i = false ->
      returns (execute fuel (WhileStmt condition body) i) i' ->
      breakCurrentLoop i' = false /\ currentLoop i' = None)
  /\ (forall fuel p callee paren arguments i i',
      breakCurrentLoop i = false ->
      returns (Evaluate fuel (CallExpr p callee paren arguments) i) i' ->
      isReturningValue i' = false).
Proof.
  split.
  - intros fuel condition body i i' Hb Hret.
    destruct fuel as [|n]; [destruct Hret as [[a H]|[a H]]; discriminate|].
    simpl in Hret. rewrite Hb in Hret. unfold VisitWhileStmt in Hret.
    match type of Hret with
    | returns (bind (defer _ ?r) _) _ => destruct r as [v j|e j| |]
    end; simpl in Hret; destruct Hret as [[a H]|[a H]]; inversion H;
      split; reflexivity.
  - intros fuel p callee paren arguments i i' Hb Hret.
    destruct fuel as [|n]; [destruct Hret as [[a H]|[a H]]; discriminate|].
    simpl in Hret. rewrite Hb in Hret. unfold VisitCallExpr in Hret.
    match type of Hret with
    | returns (defer _ ?r) _ => destruct r as [v j|e j| |]
    end; simpl in Hret; destruct Hret as [[a H]|[a H]]; inversion H;
      reflexivity.
Qed.

Lemma set_env_back i e : set_env (set_env i e) (env i) = i.
Proof. destruct i; reflexivity. Qed.

Lemma blockLoop_while_break_pending fuel statements :
  forall value i,
    breakCurrentLoop i = true ->
    exists v, blockLoop (execute (S fuel)) statements value i = Ok v i.
Proof.
  induction statements as [|s rest IH]; intros value i Hb; simpl.
  - eauto.
  - rewrite Hb. simpl. destruct (isReturningValue i); [eauto|].
    apply IH. exact Hb.
Qed.

(** X17: while a break is pending nothing is evaluated and nothing is
    executed: every expression evaluates to nil, every statement returns
    nil, a block of statements is skipped as a whole, and the interpreter
    is left exactly as it was. *)
Theorem pending_break_skips_everything :
  forall fuel i,
    breakCurrentLoop i = true ->
    (forall expr, Evaluate (S fuel) expr i = Ok VNil i)
    /\ (forall stmt, execute (S fuel) stmt i = Ok VNil i)
    /\ (forall statements e,
        exists v,
          executeBlock (execute (S fuel)) statements e i = Ok v i).
Proof.
  intros fuel i Hb. split; [| split].
  - intros expr. simpl. rewrite Hb. reflexivity.
  - intros stmt. simpl. rewrite Hb. reflexivity.
  - intros statements e. unfold executeBlock.
    destruct (blockLoop_while_break_pending fuel statements VNil
                (set_env i e) Hb) as [v Hv].
    rewrite Hv. simpl. rewrite set_env_back. eauto.
Qed.

(** X18: a break in the body ends the loop at the end of the round: when
    the body returns with a break pending, the condition is not evaluated
    again, the while statement returns nil in the interpreter the body
    left, with the flag cleared. *)
Theorem break_ends_the_loop :
  forall fuel condition body i c i0 vb i1,
    breakCurrentLoop i = false ->
    Evaluate (S fuel) condition
      (set_currentLoop i (Some (WhileStmt condition body))) = Ok c i0 ->
    isTruthy c = true ->
    execute (S fuel) body i0 = Ok vb i1 ->
    breakCurrentLoop i1 = true ->
    execute (S (S fuel)) (WhileStmt condition body) i
    = Ok VNil (set_breakCurrentLoop (set_currentLoop i1 None) false).
Proof.
  intros fuel condition body i c i0 vb i1 Hb Hc Ht Hbody Hb1.
  change (execute (S (S fuel)) (WhileStmt condition body) i)
    with (if breakCurrentLoop i then Ok VNil i
          else bind (VisitWhileStmt (Evaluate (S fuel)) (execute (S fuel))
                       (S fuel) (WhileStmt condition body) condition body i)
                 (fun value i => Ok value i)).
  rewrite Hb. unfold VisitWhileStmt. rewrite Hc. cbn [bind].
  change (whileLoop (Evaluate (S fuel)) (execute (S fuel)) (S fuel)
            condition body c i0)
    with (if isTruthy c
          then bind (execute (S fuel) body i0)
                 (fun _ i => bind (Evaluate (S fuel) condition i)
                    (fun condition0 i =>
                       whileLoop (Evaluate (S fuel)) (execute (S fuel)) fuel
                         condition body condition0 i))
          else Ok VNil i0).
  rewrite Ht, Hbody. cbn [bind].
  assert (He : Evaluate (S fuel) condition i1 = Ok VNil i1).
  { simpl. rewrite Hb1. reflexivity. }
  rewrite He. cbn [bind].
  destruct fuel; reflexivity.
Qed.

(** ** The scanner: lines and tokens *)

Lemma substring_app (src : string) :
  forall n m k,
    String.substring n m src +:+ String.substring (n + m) k src
    = String.substring n (m + k) src.
Proof.
  induction src as [|c src IH]; intros n m k.
  - destruct n, m, k; reflexivity.
  - destruct n as [|n]; simpl.
    + destruct m as [|m]; simpl; [reflexivity|].
      rewrite <- (IH 0%nat m k). reflexivity.
    + apply IH.
Qed.

Lemma slice_app src a b c :
  (a <= b)%nat -> (b <= c)%nat ->
  slice src a b +:+ slice src b c = slice src a c.
Proof.
  intros Hab Hbc. unfold slice.
  replace b with (a + (b - a))%nat at 2 by lia.
  replace (c - a)%nat with ((b - a) + (c - b))%nat by lia.
  apply substring_app.
Qed.

Lemma substring_none src : forall a, String.substring a 0 src = "".
Proof. induction src as [|c src IH]; intros [|a]; simpl; auto. Qed.

Lemma slice_empty src a : slice src a a = "".
Proof. unfold slice. rewrite Nat.sub_diag. apply substring_none. Qed.

Lemma substring_past_end (src : string) :
  forall n m, (String.length src <= n + m)%nat ->
              String.substring n m src
              = String.substring n (String.length src - n) src.
Proof.
  induction src as [|c src IH]; intros n m H.
  - destruct n, m; reflexivity.
  - destruct n as [|n]; simpl in *.
    + destruct m as [|m]; [lia|]. f_equal.
      rewrite (IH 0%nat m) by lia. rewrite Nat.sub_0_r. reflexivity.
    + apply IH. lia.
Qed.

Lemma slice_past_end src lo hi :
  (String.length src <= hi)%nat ->
  slice src lo hi = slice src lo (String.length src).
Proof.
  intros H. unfold slice.
  destruct (Nat.le_gt_cases lo (String.length src)) as [Hlo|Hlo].
  - apply substring_past_end. lia.
  - rewrite (substring_past_end src lo (hi - lo)) by lia. reflexivity.
Qed.

Lemma substring_whole (src : string) :
  String.substring 0 (String.length src) src = src.
Proof. induction src as [|c src IH]; simpl; [reflexivity | f_equal; exact IH]. Qed.

Lemma one_byte src n :
  String.substring n 1 src = ""
  \/ exists c, String.substring n 1 src = String c "".
Proof.
  revert n. induction src as [|c src IH]; intros n.
  - left. destruct n; reflexivity.
  - destruct n as [|n]; simpl.
    + right. exists c. destruct src; reflexivity.
    + apply IH.
Qed.

Lemma advance_one_byte s :
  fst (advance s) = "" \/ exists c, fst (advance s) = String c "".
Proof.
  unfold advance, slice. simpl.
  replace (current s + 1 - current s)%nat with 1%nat by lia.
  apply one_byte.
Qed.

Lemma newlines_app a b : newlines (a +:+ b) = (newlines a + newlines b)%nat.
Proof.
  induction a as [|c a IH]; simpl; [reflexivity|]. rewrite IH. lia.
Qed.

(** A byte other than the newline counts for no line. *)
Lemma advance_not_newline s :
  String.eqb (fst (advance s)) NEWLINE = false ->
  newlines (fst (advance s)) = 0%nat.
Proof.
  destruct (advance_one_byte s) as [->|[c ->]]; [reflexivity|].
  unfold NEWLINE, str1. simpl.
  destruct (Ascii.eqb c (ascii_of_nat 10)) eqn:E; [discriminate | reflexivity].
Qed.

Lemma peek_is_next s :
  isAtEnd s = false -> peek s = fst (advance s).
Proof. intros H. unfold peek. rewrite H. reflexivity. Qed.

Lemma advance_at_end s : isAtEnd s = true -> fst (advance s) = "".
Proof.
  intros H. unfold advance, slice. simpl.
  unfold isAtEnd in H. apply Nat.leb_le in H.
  rewrite substring_past_end by lia.
  replace (String.length (Source s) - current s)%nat with 0%nat by lia.
  apply substring_none.
Qed.

Lemma peek_not_newline s :
  String.eqb (peek s) NEWLINE = false ->
  newlines (fst (advance s)) = 0%nat.
Proof.
  intros H. destruct (isAtEnd s) eqn:He.
  - rewrite (advance_at_end s He). reflexivity.
  - apply advance_not_newline. rewrite <- (peek_is_next s He). exact H.
Qed.

Lemma nondecreasing_nil : nondecreasing [].
Proof. intros a b x y _ H. rewrite lookup_nil in H. discriminate. Qed.

Lemma nondecreasing_one n : nondecreasing [n].
Proof.
  intros a b x y _ Ha Hb.
  apply list_lookup_singleton_Some in Ha as [_ <-].
  apply list_lookup_singleton_Some in Hb as [_ <-]. lia.
Qed.

Lemma nondecreasing_app l1 l2 m :
  nondecreasing l1 -> nondecreasing l2 ->
  Forall (fun x => (x <= m)%nat) l1 -> Forall (fun y => (m <= y)%nat) l2 ->
  nondecreasing (l1 ++ l2).
Proof.
  intros H1 H2 F1 F2 a b x y Hab Ha Hb.
  rewrite Forall_lookup in F1. rewrite Forall_lookup in F2.
  apply lookup_app_Some in Ha as [Ha|[Hla Ha]];
    apply lookup_app_Some in Hb as [Hb|[Hlb Hb]].
  - eapply H1; eauto.
  - specialize (F1 _ _ Ha). specialize (F2 _ _ Hb). simpl in *. lia.
  - apply lookup_lt_Some in Hb. lia.
  - eapply (H2 (a - length l1)%nat (b - length l1)%nat); eauto. lia.
Qed.

Lemma scans_refl s : scans s s [].
Proof.
  unfold scans. rewrite slice_empty, app_nil_r. simpl.
  repeat split; try lia. - constructor. - apply nondecreasing_nil.
Qed.

Lemma scans_trans s1 s2 s3 ts us :
  scans s1 s2 ts -> scans s2 s3 us -> scans s1 s3 (ts ++ us).
Proof.
  intros (Hs & Hc & Hl & Ht & Hf & Hn) (Hs' & Hc' & Hl' & Ht' & Hf' & Hn').
  unfold scans. rewrite Hs in *.
  assert (Hline : line s3
                  = (line s1 + newlines (slice (Source s1) (current s1)
                                           (current s3)))%nat).
  { rewrite <- (slice_app (Source s1) (current s1) (current s2) (current s3))
      by assumption.
    rewrite newlines_app. lia. }
  repeat split; try congruence; try lia.
  - rewrite Ht', Ht, app_assoc. reflexivity.
  - apply Forall_app. split.
    + eapply Forall_impl; [exact Hf|]. simpl. intros t [? ?]. split; [assumption | lia].
    + eapply Forall_impl; [exact Hf'|]. simpl. intros t [? ?]. split; [assumption | lia].
  - rewrite fmap_app. apply (nondecreasing_app _ _ (line s2)); try assumption.
    + apply Forall_fmap. eapply Forall_impl; [exact Hf|]. simpl. intros t [? ?]. lia.
    + apply Forall_fmap. eapply Forall_impl; [exact Hf'|]. simpl. intros t [? ?]. lia.
Qed.

Lemma scans_consume s :
  newlines (fst (advance s)) = 0%nat -> scans s (snd (advance s)) [].
Proof.
  intros H. unfold scans. simpl in *. rewrite H, app_nil_r.
  repeat split; try lia. - constructor. - apply nondecreasing_nil.
Qed.

Lemma scans_newline s :
  fst (advance s) = NEWLINE ->
  scans s (set_line (snd (advance s)) (line (snd (advance s)) + 1)) [].
Proof.
  intros H. unfold scans. simpl in *. rewrite H, app_nil_r. simpl.
  repeat split; try lia. - constructor. - apply nondecreasing_nil.
Qed.

Lemma scans_addToken s typ literal :
  typ <> EOF ->
  scans s (addToken s typ literal)
    [mkToken typ (slice (Source s) (start s) (current s)) literal (line s)].
Proof.
  intros H. unfold scans. simpl. rewrite slice_empty. simpl.
  repeat split; try lia.
  - constructor; [| constructor]. simpl. split; [exact H | lia].
  - apply nondecreasing_one.
Qed.

Lemma scans_set_start s n : scans s (set_start s n) [].
Proof.
  unfold scans. simpl. rewrite slice_empty, app_nil_r. simpl.
  repeat split; try lia. - constructor. - apply nondecreasing_nil.
Qed.

Lemma scans_match s next :
  newlines next = 0%nat -> scans s (snd (match_ s next)) [].
Proof.
  intros H. unfold match_. destruct (isAtEnd s); [apply scans_refl|].
  destruct (String.eqb _ next) eqn:E; simpl; [| apply scans_refl].
  apply String.eqb_eq in E.
  apply (scans_consume s). simpl. rewrite E. exact H.
Qed.

Lemma scans_advanceWhile cond :
  (forall s, cond s = true -> newlines (fst (advance s)) = 0%nat) ->
  forall rounds s, scans s (advanceWhile cond rounds s) [].
Proof.
  intros Hcond. induction rounds as [|n IH]; intros s; simpl;
    [apply scans_refl|].
  destruct (cond s) eqn:Hc; [| apply scans_refl].
  apply (scans_trans s (snd (advance s)) _ [] []);
    [apply scans_consume, Hcond, Hc | apply IH].
Qed.

Lemma digit_is_not_newline c :
  isDigit c = true -> String.eqb c NEWLINE = false.
Proof.
  intros H. destruct (String.eqb c NEWLINE) eqn:E; [| reflexivity].
  apply String.eqb_eq in E. subst c. discriminate.
Qed.

Lemma letter_is_not_newline c :
  isAlphaNumeric c = true -> String.eqb c NEWLINE = false.
Proof.
  intros H. destruct (String.eqb c NEWLINE) eqn:E; [| reflexivity].
  apply String.eqb_eq in E. subst c. discriminate.
Qed.

Lemma scans_digits rounds s :
  scans s (advanceWhile (fun s => isDigit (peek s)) rounds s) [].
Proof.
  apply (scans_advanceWhile (fun s => isDigit (peek s))).
  intros s' H. apply peek_not_newline, digit_is_not_newline, H.
Qed.

Lemma keyword_is_not_EOF text typ :
  KeywordsMap !! text = Some typ -> typ <> EOF.
Proof.
  unfold KeywordsMap.
  repeat (rewrite lookup_insert_Some;
          intros [[_ <-]|[_ H]]; [discriminate | revert H]).
  rewrite lookup_empty. discriminate.
Qed.

Lemma scans1_after s s1 s2 :
  scans s s1 [] -> scans1 s1 s2 -> scans1 s s2.
Proof.
  intros H [ts [H2 Hl]]. exists ts. split; [| exact Hl].
  apply (scans_trans s s1 s2 [] ts H H2).
Qed.

Lemma scans1_none s s' : scans s s' [] -> scans1 s s'.
Proof. intros H. exists []. split; [exact H | simpl; lia]. Qed.

Lemma scans1_addToken s typ literal :
  typ <> EOF -> scans1 s (addToken s typ literal).
Proof.
  intros H. eexists. split; [apply scans_addToken, H | simpl; lia].
Qed.

Lemma scans_identifier s : scans1 s (identifier s).
Proof.
  unfold identifier.
  set (s1 := advanceWhile (fun s => isAlphaNumeric (peek s)) (remaining s) s).
  assert (H1 : scans s s1 []).
  { apply (scans_advanceWhile (fun s => isAlphaNumeric (peek s))).
    intros s' H. apply peek_not_newline, letter_is_not_newline, H. }
  destruct (KeywordsMap !! _) as [typ|] eqn:E;
    apply (scans1_after s s1 _ H1), scans1_addToken.
  - eapply keyword_is_not_EOF, E.
  - discriminate.
Qed.

Lemma stringLoop_stops rounds :
  forall s, (remaining s <= rounds)%nat ->
            negb (String.eqb (peek (stringLoop rounds s)) DQUOTE)
            && negb (isAtEnd (stringLoop rounds s)) = false.
Proof.
  induction rounds as [|n IH]; intros s Hr; simpl.
  - assert (He : isAtEnd s = true).
    { unfold isAtEnd, remaining in *. apply Nat.leb_le. lia. }
    rewrite He. apply andb_false_r.
  - destruct (negb (String.eqb (peek s) DQUOTE) && negb (isAtEnd s)) eqn:Hc;
      [| exact Hc].
    apply IH. apply andb_true_iff in Hc as [_ He].
    apply negb_true_iff in He. unfold isAtEnd in He. apply Nat.leb_gt in He.
    unfold remaining in *.
    destruct (String.eqb (peek s) NEWLINE); simpl; lia.
Qed.

Lemma scans_stringLoop rounds :
  forall s, scans s (stringLoop rounds s) [].
Proof.
  induction rounds as [|n IH]; intros s; simpl; [apply scans_refl|].
  destruct (negb (String.eqb (peek s) DQUOTE) && negb (isAtEnd s)) eqn:Hc;
    [| apply scans_refl].
  apply andb_true_iff in Hc as [_ He]. apply negb_true_iff in He.
  eapply (scans_trans _ _ _ [] []); [| apply IH].
  destruct (String.eqb (peek s) NEWLINE) eqn:En.
  - apply String.eqb_eq in En. rewrite (peek_is_next s He) in En.
    apply (scans_newline s En).
  - apply scans_consume, peek_not_newline, En.
Qed.

Lemma scans_string s : scans1 s (snd (Scanner_string s)).
Proof.
  unfold Scanner_string.
  pose proof (scans_stringLoop (remaining s) s) as H1.
  pose proof (stringLoop_stops (remaining s) s (Nat.le_refl _)) as Hstop.
  set (s1 := stringLoop (remaining s) s) in *.
  destruct (isAtEnd s1) eqn:He; simpl.
  - exists []. split; [exact H1 | simpl; lia].
  - rewrite andb_false_iff in Hstop. destruct Hstop as [Hq|Hq];
      [| simpl in Hq; discriminate].
    apply negb_false_iff, String.eqb_eq in Hq.
    apply (scans1_after s s1 _ H1).
    apply (scans1_after s1 (snd (advance s1))).
    + apply scans_consume, peek_not_newline. rewrite Hq. reflexivity.
    + apply scans1_addToken. discriminate.
Qed.

Lemma scans_number s : scans1 s (snd (number ParseFloat s)).
Proof.
  unfold number.
  set (s1 := advanceWhile (fun s => isDigit (peek s)) (remaining s) s).
  assert (H1 : scans s s1 []) by apply scans_digits.
  match goal with
  | |- scans1 s (snd (match ParseFloat (slice _ _ (current ?x)) with _ => _ end)) =>
      assert (Hx : scans s x [])
  end.
  { destruct (String.eqb (peek s1) "." && isDigit (peekNext s1)) eqn:Hd;
      [| exact H1].
    apply andb_true_iff in Hd as [Hd _]. apply String.eqb_eq in Hd.
    apply (scans_trans s s1 _ [] [] H1).
    apply (scans_trans s1 (snd (advance s1)) _ [] []);
      [| apply scans_digits].
    apply scans_consume, peek_not_newline. rewrite Hd. reflexivity. }
  destruct (ParseFloat _); simpl.
  - eapply scans1_after; [exact Hx|]. apply scans1_addToken. discriminate.
  - apply scans1_none, Hx.
Qed.

Lemma scans_oneOrTwo s one two :
  one <> EOF -> two <> EOF -> scans1 s (oneOrTwo s one two).
Proof.
  intros H1 H2. unfold oneOrTwo.
  pose proof (scans_match s "=" eq_refl) as H.
  destruct (match_ s "=") as [m s']. simpl in H.
  apply (scans1_after s s' _ H), scans1_addToken.
  destruct m; assumption.
Qed.


Lemma scans_comment rounds s :
  scans s
    (advanceWhile
       (fun s => negb (String.eqb (peek s) NEWLINE) && negb (isAtEnd s))
       rounds s) [].
Proof.
  apply (scans_advanceWhile
           (fun s => negb (String.eqb (peek s) NEWLINE) && negb (isAtEnd s))).
  intros s' H. apply andb_true_iff in H as [H _].
  apply negb_true_iff in H. apply peek_not_newline, H.
Qed.

(** One [scanToken] passes at least the byte it starts on, counts the
    newlines it passes, and appends at most one token. *)
Lemma scans_scanToken s : scans1 s (snd (scanToken ParseFloat s)).
Proof.
  unfold scanToken.
  pose proof (fun H => scans_consume s (advance_not_newline s H)) as Hstep.
  pose proof (scans_newline s) as Hnl.
  destruct (advance s) as [c s1]. simpl in Hstep, Hnl.
  repeat match goal with
         | |- scans1 s (snd (if String.eqb c ?x then _ else _)) =>
             destruct (String.eqb c x) eqn:?
         end;
    try match goal with
        | E : String.eqb c _ = true |- _ => apply String.eqb_eq in E; subst c
        end;
    try (assert (Hs : scans s s1 [])
          by (apply Hstep; first [assumption | reflexivity]));
    try (simpl; apply (scans1_after s s1 _ Hs);
         first [ apply scans1_addToken; discriminate
               | apply scans_oneOrTwo; discriminate
               | apply scans1_none, scans_refl
               | apply scans_string ]).
  - pose proof (scans_match s1 "/" eq_refl) as Hm.
    destruct (match_ s1 "/") as [[|] s2]; simpl in *;
      apply (scans1_after s s1 _ Hs), (scans1_after s1 s2 _ Hm).
    + apply scans1_none, scans_comment.
    + apply scans1_addToken. discriminate.
  - apply scans1_none, Hnl. reflexivity.
  - pose proof (scans_match s1 "r" eq_refl) as Hm.
    destruct (match_ s1 "r") as [[|] s2]; simpl in *;
      apply (scans1_after s s1 _ Hs), (scans1_after s1 s2 _ Hm).
    + apply scans1_addToken. discriminate.
    + apply scans1_none, scans_refl.
  - destruct (isDigit c); [| destruct (isAlphabet c)]; simpl;
      apply (scans1_after s s1 _ Hs).
    + apply scans_number.
    + apply scans_identifier.
    + apply scans1_none, scans_refl.
Qed.

Lemma scans_scanLoop rounds :
  forall s, exists ts, scans s (scanLoop ParseFloat rounds s) ts.
Proof.
  induction rounds as [|n IH]; intros s; simpl.
  - exists []. apply scans_refl.
  - destruct (isAtEnd s); simpl; [exists []; apply scans_refl|].
    destruct (scans_scanToken (set_start s (current s))) as [ts [H1 _]].
    destruct (IH (snd (scanToken ParseFloat (set_start s (current s)))))
      as [us H2].
    exists (ts ++ us).
    apply (scans_trans s (set_start s (current s)) _ [] (ts ++ us));
      [apply scans_set_start|].
    eapply scans_trans; eassumption.
Qed.

(** X19: [ScanTokens] keeps the tokens the scanner already holds and
    appends to them: first the tokens of the rest of the source, none of
    which is an [EOF] token, then exactly one [EOF] token, on the line the
    scanner ended on.  The appended tokens are in line order, and none is
    on a line before the one the scanner started on. *)
Theorem scan_appends_tokens_in_line_order :
  forall s, exists ts,
    let eof := mkToken EOF "" LitNil (line (snd (ScanTokens ParseFloat s))) in
    fst (ScanTokens ParseFloat s) = Tokens s ++ ts ++ [eof]
    /\ Forall (fun t => Type_ t <> EOF) ts
    /\ Forall (fun t => (line s <= LineNumber t)%nat) (ts ++ [eof])
    /\ nondecreasing (LineNumber <$> (ts ++ [eof])).
Proof.
  intros s.
  destruct (scans_scanLoop (remaining s) s)
    as [ts (Hs & Hc & Hl & Ht & Hf & Hn)].
  exists ts. unfold ScanTokens. simpl.
  set (s' := scanLoop ParseFloat (remaining s) s) in *.
  split; [rewrite Ht, app_assoc; reflexivity|].
  split; [eapply Forall_impl; [exact Hf|]; simpl; intros t [? ?]; assumption|].
  split.
  - apply Forall_app. split.
    + eapply Forall_impl; [exact Hf|]. simpl. intros t [? ?]. lia.
    + constructor; [simpl; lia | constructor].
  - rewrite fmap_app. apply (nondecreasing_app _ _ (line s')).
    + exact Hn.
    + apply nondecreasing_one.
    + apply Forall_fmap. eapply Forall_impl; [exact Hf|].
      simpl. intros t [? ?]. lia.
    + constructor; [simpl; lia | constructor].
Qed.

Lemma line_after_ScanTokens s :
  line (snd (ScanTokens ParseFloat s))
  = (line s + newlines (slice (Source s) (current s)
                          (String.length (Source s))))%nat.
Proof.
  destruct (scans_scanLoop (remaining s) s)
    as [ts (Hs & Hc & Hl & Ht & Hf & Hn)].
  pose proof (scanLoop_reaches_end (remaining s) s (Nat.le_refl _)) as He.
  unfold ScanTokens. simpl.
  set (s' := scanLoop ParseFloat (remaining s) s) in *.
  rewrite Hl. unfold isAtEnd in He. apply Nat.leb_le in He. rewrite Hs in He.
  rewrite (slice_past_end (Source s) (current s) (current s') He).
  reflexivity.
Qed.

(** X20: the scanner counts every newline byte it passes, wherever it is:
    between tokens, at the end of a comment, inside a string, closed or
    not.  So the line [ScanTokens] ends on is the line it started on plus
    the number of newline bytes of the rest of the source, and the [EOF]
    token of a new scanner is on line one plus the number of newline bytes
    of the source. *)
Theorem end_of_file_line_counts_the_newlines :
  (forall s,
      line (snd (ScanTokens ParseFloat s))
      = (line s + newlines (slice (Source s) (current s)
                              (String.length (Source s))))%nat)
  /\ (forall source,
      last (fst (ScanTokens ParseFloat (NewScanner source)))
      = Some (mkToken EOF "" LitNil (1 + newlines source))).
Proof.
  split; [exact line_after_ScanTokens|].
  intros source.
  pose proof (line_after_ScanTokens (NewScanner source)) as H.
  unfold ScanTokens in *. simpl in *.
  rewrite last_snoc. rewrite H. unfold slice.
  rewrite Nat.sub_0_r, substring_whole. reflexivity.
Qed.

Lemma digit_goes_to_number s :
  isDigit (fst (advance s)) = true ->
  scanToken ParseFloat s = (None, snd (number ParseFloat (snd (advance s)))).
Proof.
  unfold scanToken. destruct (advance s) as [c s1]. simpl. intros H.
  repeat match goal with
         | |- (if String.eqb c ?x then _ else _) = _ =>
             destruct (String.eqb c x) eqn:E;
             [apply String.eqb_eq in E; subst c; discriminate | clear E]
         end.
  rewrite H. reflexivity.
Qed.

(** X21: the only error [scanToken] returns is the one for a byte that
    starts no token: then the byte is neither a digit nor a letter, it is
    the only byte consumed and no token is added.  A token that starts with
    a digit never gives an error: when [number] fails to parse its text,
    [scanToken] returns nil all the same and no token is added. *)
Theorem only_an_unknown_byte_is_an_error :
  forall s,
    (forall msg,
        fst (scanToken ParseFloat s) = Some msg ->
        isDigit (fst (advance s)) = false
        /\ isAlphabet (fst (advance s)) = false
        /\ snd (scanToken ParseFloat s) = snd (advance s)
        /\ msg = "Unexpected Character. - " +:+ Sprintf_d (Z.of_nat (line s))
                 +:+ ": " +:+ fst (advance s))
    /\ (isDigit (fst (advance s)) = true ->
        fst (scanToken ParseFloat s) = None
        /\ (fst (number ParseFloat (snd (advance s))) <> None ->
            Tokens (snd (scanToken ParseFloat s)) = Tokens s)).
Proof.
  intros s. split.
  - intros msg. unfold scanToken. destruct (advance s) as [c s1] eqn:Ha.
    assert (Hl : line s1 = line s) by (inversion Ha; reflexivity).
    simpl.
    repeat match goal with
           | |- fst (if String.eqb c ?x then _ else _) = _ -> _ =>
               destruct (String.eqb c x)
           end; try discriminate.
    + destruct (match_ s1 "/") as [[|] s2]; discriminate.
    + destruct (match_ s1 "r") as [[|] s2]; discriminate.
    + destruct (isDigit c); [discriminate|].
      destruct (isAlphabet c); [discriminate|]. simpl.
      intros H. inversion H. rewrite Hl. auto.
  - intros Hd. rewrite (digit_goes_to_number s Hd). simpl.
    split; [reflexivity|]. intros Herr.
    unfold number in *.
    match goal with
    | |- Tokens (snd (match ParseFloat (slice _ _ (current ?x)) with _ => _ end)) = _
      => assert (Hx : scans (snd (advance s)) x [])
    end.
    { match goal with
      | |- scans _ (if ?c then _ else _) _ => destruct c eqn:Hc
      end; [| apply scans_digits].
      apply andb_true_iff in Hc as [Hc _]. apply String.eqb_eq in Hc.
      eapply (scans_trans _ _ _ [] []); [apply scans_digits|].
      eapply (scans_trans _ _ _ [] []); [| apply scans_digits].
      apply scans_consume, peek_not_newline. rewrite Hc. reflexivity. }
    destruct (ParseFloat _); simpl in *; [congruence|].
    destruct Hx as (_ & _ & _ & Ht & _). rewrite Ht, app_nil_r. reflexivity.
Qed.

(** ** Globals and fields *)

Lemma Get_after_Define e name value i :
  (e < length (environments i))%nat ->
  Get e name (Define e (Lexeme name) value i)
  = Ok value (Define e (Lexeme name) value i).
Proof.
  intros He. unfold Get.
  assert (Hv : Values (the_env (Define e (Lexeme name) value i) e)
               !! Lexeme name = Some value).
  { unfold Define, the_env. simpl.
    rewrite list_lookup_insert_eq by exact He. simpl.
    apply lookup_insert_eq. }
  assert (Hl : length (environments (Define e (Lexeme name) value i))
               = length (environments i)).
  { unfold Define. simpl. apply length_insert. }
  rewrite Hl. destruct (length (environments i)) as [|n] eqn:En; [lia|].
  simpl. rewrite Hv. rewrite Hv. reflexivity.
Qed.

Lemma global_read_after_Define fuel p name value i :
  breakCurrentLoop i = false ->
  localsTable i !! p = None ->
  (globals i < length (environments i))%nat ->
  Evaluate (S fuel) (VariableExpr p name)
    (Define (globals i) (Lexeme name) value i)
  = Ok (read_back value) (Define (globals i) (Lexeme name) value i).
Proof.
  intros Hb Hp Hg. simpl.
  change (breakCurrentLoop (Define (globals i) (Lexeme name) value i))
    with (breakCurrentLoop i). rewrite Hb.
  unfold VisitVariableExpr, lookupTable.
  change (localsTable (Define (globals i) (Lexeme name) value i))
    with (localsTable i). rewrite Hp.
  change (globals (Define (globals i) (Lexeme name) value i))
    with (globals i).
  rewrite (Get_after_Define (globals i) name value i Hg). simpl.
  destruct value; try reflexivity. destruct e; reflexivity.
Qed.

(** X22: a variable declared at the top level is read back through the
    globals: after [var name = initializer;] executed in the global scope,
    a Variable expression for [name] that the resolver gave no depth
    evaluates to the value of the initializer (to the value of the literal
    if that value is a literal node), and after [var name;] to nil. *)
Theorem declared_global_is_read_back :
  forall fuel p name i,
    breakCurrentLoop i = false ->
    env i = globals i ->
    localsTable i !! p = None ->
    (forall initializer v i1,
        Evaluate fuel initializer i = Ok v i1 ->
        breakCurrentLoop i1 = false ->
        (globals i1 < length (environments i1))%nat ->
        exists i2,
          execute (S fuel) (VarStmt name (Some initializer)) i = Ok VNil i2
          /\ Evaluate (S fuel) (VariableExpr p name) i2
             = Ok (read_back v) i2)
    /\ ((globals i < length (environments i))%nat ->
        exists i2,
          execute (S fuel) (VarStmt name None) i = Ok VNil i2
          /\ Evaluate (S fuel) (VariableExpr p name) i2 = Ok VNil i2).
Proof.
  intros fuel p name i Hb He Hp. split.
  - intros initializer v i1 Hv Hb1 Hg1.
    assert (Hf : same_frame i i1).
    { pose proof (proj1 (Evaluate_execute_kept same_frame same_frame_kept
                           fuel) initializer i) as Hk.
      rewrite Hv in Hk. exact Hk. }
    destruct Hf as (He1 & Hg & Hl & _).
    exists (Define (globals i1) (Lexeme name) v i1). split.
    + simpl. rewrite Hb. unfold VisitVarStmt. rewrite Hv. simpl.
      rewrite He1, He, Hg. reflexivity.
    + apply global_read_after_Define; [exact Hb1 | congruence | exact Hg1].
  - intros Hg. exists (Define (globals i) (Lexeme name) VNil i). split.
    + simpl. rewrite Hb. unfold VisitVarStmt. simpl. rewrite He. reflexivity.
    + apply (global_read_after_Define fuel p name VNil i Hb Hp Hg).
Qed.

Lemma ancestor_set_instances i x :
  forall distance e,
    ancestor (set_instances i x) e distance = ancestor i e distance.
Proof.
  induction distance as [|n IH]; intros e; simpl; [reflexivity|].
  change (the_env (set_instances i x) e) with (the_env i e).
  destruct (Enclosing (the_env i e)); [apply IH | reflexivity].
Qed.

Lemma bindingFrame_set_instances i x name :
  forall hops e,
    bindingFrame hops (set_instances i x) e name = bindingFrame hops i e name.
Proof.
  induction hops as [|n IH]; intros e; simpl; [reflexivity|].
  change (the_env (set_instances i x) e) with (the_env i e).
  destruct (Values (the_env i e) !! name); [reflexivity|].
  destruct (Enclosing (the_env i e)); [apply IH | reflexivity].
Qed.

Lemma GetAtWithString_set_instances e distance name i x v :
  GetAtWithString e distance name i = Ok v i ->
  GetAtWithString e distance name (set_instances i x)
  = Ok v (set_instances i x).
Proof.
  unfold GetAtWithString. rewrite ancestor_set_instances.
  destruct (ancestor i e (Z.to_nat distance)) as [f|]; [| discriminate].
  change (the_env (set_instances i x) f) with (the_env i f).
  destruct (Values (the_env i f) !! name); [| discriminate].
  intros H. inversion H. reflexivity.
Qed.

Lemma Get_set_instances e name i x v :
  Get e name i = Ok v i ->
  Get e name (set_instances i x) = Ok v (set_instances i x).
Proof.
  unfold Get.
  change (environments (set_instances i x)) with (environments i).
  rewrite bindingFrame_set_instances.
  destruct (bindingFrame _ i e (Lexeme name)) as [f|]; [| discriminate].
  change (the_env (set_instances i x) f) with (the_env i f).
  destruct (Values (the_env i f) !! Lexeme name); [| discriminate].
  intros H. inversion H. reflexivity.
Qed.

(** Looking a variable up does not depend on the instances. *)
Lemma lookupTable_set_instances name p i x v :
  lookupTable name p i = Ok v i ->
  lookupTable name p (set_instances i x) = Ok v (set_instances i x).
Proof.
  unfold lookupTable, GetAt.
  change (localsTable (set_instances i x)) with (localsTable i).
  change (env (set_instances i x)) with (env i).
  change (globals (set_instances i x)) with (globals i).
  destruct (localsTable i !! p) as [depth|].
  - destruct (GetAtWithString (env i) depth (Lexeme name) i)
      as [a j|err j| |] eqn:E; intros H; try discriminate.
    + inversion H; subst.
      rewrite (GetAtWithString_set_instances _ _ _ _ x _ E). reflexivity.
    + unfold asRuntimeError in H. destruct (Error j err); discriminate.
  - destruct (Get (globals i) name i) as [a j|err j| |] eqn:E; intros H;
      try discriminate.
    + inversion H; subst.
      rewrite (Get_set_instances _ _ _ x _ E). reflexivity.
    + unfold asRuntimeError in H. destruct (Error j err); discriminate.
Qed.

(** X23: a field read gives back what the Set expression stored, and that
    is the node of the right-hand side, not its value: after
    [o.name = value] on the instance a variable holds, [o.name] evaluates
    to the node [value] itself. *)
Theorem field_read_gives_back_the_stored_node :
  forall fuel p q r object name value i o i1,
    breakCurrentLoop i = false ->
    Evaluate (S fuel) (VariableExpr q object) i = Ok (VInstance o) i1 ->
    (o < length (instances i))%nat ->
    exists i',
      Evaluate (S (S fuel)) (SetExpr p (VariableExpr q object) name value) i
      = Ok VNil i'
      /\ Evaluate (S (S fuel)) (GetExpr r (VariableExpr q object) name) i'
         = Ok (VExpr value) i'.
Proof.
  intros fuel p q r object name value i o i1 Hb Hv Ho.
  pose proof (Evaluate_variable_state _ _ _ _ _ _ Hv) as ->.
  exists (LoxInstance_Set o name (VExpr value) i).
  assert (Hv' : Evaluate (S fuel) (VariableExpr q object)
                  (LoxInstance_Set o name (VExpr value) i)
                = Ok (VInstance o) (LoxInstance_Set o name (VExpr value) i)).
  { simpl in Hv. rewrite Hb in Hv. simpl.
    change (breakCurrentLoop (LoxInstance_Set o name (VExpr value) i))
      with (breakCurrentLoop i). rewrite Hb.
    unfold VisitVariableExpr in *. unfold LoxInstance_Set.
    destruct (lookupTable object q i) as [a j|err j| |] eqn:E; simpl in Hv;
      try discriminate.
    pose proof (lookupTable_state _ _ _ _ _ E) as ->.
    rewrite (lookupTable_set_instances _ _ _ _ _ E). simpl.
    destruct a; try discriminate; try (inversion Hv; subst; reflexivity).
    destruct e; try discriminate; inversion Hv; subst.
    destruct value0; discriminate. }
  split.
  - change (Evaluate (S (S fuel))
              (SetExpr p (VariableExpr q object) name value) i)
      with (if breakCurrentLoop i then Ok VNil i
            else VisitSetExpr (Evaluate (S fuel)) (VariableExpr q object)
                   name value i).
    rewrite Hb. apply VisitSetExpr_stores_the_node. exact Hv.
  - change (Evaluate (S (S fuel))
              (GetExpr r (VariableExpr q object) name)
              (LoxInstance_Set o name (VExpr value) i))
      with (if breakCurrentLoop (LoxInstance_Set o name (VExpr value) i)
            then Ok VNil (LoxInstance_Set o name (VExpr value) i)
            else VisitGetExpr (Evaluate (S fuel)) (VariableExpr q object)
                   name (LoxInstance_Set o name (VExpr value) i)).
    change (breakCurrentLoop (LoxInstance_Set o name (VExpr value) i))
      with (breakCurrentLoop i). rewrite Hb.
    unfold VisitGetExpr. rewrite Hv'. simpl. unfold LoxInstance_Get.
    rewrite (LoxInstance_Set_field o name (VExpr value) i Ho). reflexivity.
Qed.

(** X24: a new interpreter knows the global [clock] and no other name: a
    Variable expression gives the native clock for [clock] and the run-time
    error [Undefined variable] for every other name. *)
Theorem new_interpreter_knows_only_clock :
  forall fuel p name,
    Evaluate (S fuel) (VariableExpr p name) NewInterpreter
    = if String.eqb (Lexeme name) "clock" then Ok VClock NewInterpreter
      else Err (NewRuntimeError name
                  ("Undefined variable '" +:+ Lexeme name +:+ "'") [])
             NewInterpreter.
Proof.
  intros fuel p name. simpl.
  unfold VisitVariableExpr, lookupTable. simpl.
  unfold Get. simpl. unfold the_env. simpl.
  destruct (String.eqb (Lexeme name) "clock") eqn:E.
  - apply String.eqb_eq in E. rewrite E.
    rewrite lookup_insert_eq. simpl. rewrite lookup_insert_eq. reflexivity.
  - apply String.eqb_neq in E.
    rewrite lookup_insert_ne by congruence. rewrite lookup_empty. reflexivity.
Qed.

(** ** The keyword table *)

Lemma keyword_type_by_key text typ :
  KeywordsMap !! text = Some typ ->
  (text = "AND" /\ typ = "ADD") \/ (text <> "AND" /\ typ = text).
Proof.
  unfold KeywordsMap.
  rewrite lookup_insert_Some. intros [[<- <-]|[Hne H]]; [left; auto|].
  right. split; [congruence|]. revert H.
  repeat (rewrite lookup_insert_Some;
          intros [[<- <-]|[_ H]]; [reflexivity | revert H]).
  rewrite lookup_empty. discriminate.
Qed.

(** X26: the type of a keyword is the string of its key, except for the
    key [AND], whose type is the string [ADD]; so the token [identifier]
    appends has the type [IDENTIFIER], or its own lexeme as type, or the
    lexeme [AND] and the type [ADD]. *)
Theorem keyword_type_is_its_key_except_AND :
  (forall text typ,
      KeywordsMap !! text = Some typ ->
      (text = "AND" /\ typ = "ADD") \/ (text <> "AND" /\ typ = text))
  /\ (forall s, exists t,
      Tokens (identifier s) = Tokens s ++ [t]
      /\ (Type_ t = IDENTIFIER \/ Type_ t = Lexeme t
          \/ (Lexeme t = "AND" /\ Type_ t = "ADD"))).
Proof.
  split; [exact keyword_type_by_key|].
  intros s. unfold identifier.
  set (s1 := advanceWhile (fun s => isAlphaNumeric (peek s)) (remaining s) s).
  assert (Ht : Tokens s1 = Tokens s).
  { pose proof (scans_advanceWhile (fun s => isAlphaNumeric (peek s))) as H.
    destruct (H (fun s' Hs => peek_not_newline s'
                                (letter_is_not_newline _ Hs))
                (remaining s) s) as (_ & _ & _ & Hts & _).
    fold s1 in Hts. rewrite Hts, app_nil_r. reflexivity. }
  destruct (KeywordsMap !! _) as [typ|] eqn:E; eexists; simpl; rewrite Ht;
    (split; [reflexivity|]); simpl.
  - destruct (keyword_type_by_key _ _ E) as [[Ha Hb]|[Ha Hb]]; auto.
  - auto.
Qed.

End Lox.

(** * The flag [useCrossAddition]

    The flag is read in one place, the [PLUS] case of [VisitBinaryExpr],
    after the two cases that do not depend on it.  The interpreter with
    the flag off and the one with the flag on are compared here. *)

Arguments unless_error {A} r r' : simpl never.

Section CrossAddition.

Variable Sprintf_float : string -> float -> string.
Variable Sprintf_v : Expr -> string.
Variable wallClock : nat -> float.
Variable rangeOrder : nat -> list (Token * Expr) -> list (Token * Expr).

Lemma unless_error_refl {A : Type} (r : Outcome A) : unless_error r r.
Proof. destruct r; unfold unless_error; auto. Qed.

Lemma unless_error_bind {A B : Type} (r r' : Outcome A)
  (k k' : A -> Interpreter -> Outcome B) :
  unless_error r r' -> (forall a i, unless_error (k a i) (k' a i)) ->
  unless_error (bind r k) (bind r' k').
Proof.
  intros Hr Hk. destruct r as [a i|e i|msg|]; unfold unless_error in Hr.
  - subst. simpl. apply Hk.
  - exact I.
  - subst. apply unless_error_refl.
  - subst. apply unless_error_refl.
Qed.

Lemma unless_error_defer {A : Type} (r r' : Outcome A) f :
  unless_error r r' -> unless_error (defer f r) (defer f r').
Proof.
  intros Hr. destruct r; unfold unless_error in Hr; subst;
    first [exact I | apply unless_error_refl].
Qed.

Ltac flag_step :=
  first
    [ apply unless_error_refl
    | assumption
    | apply unless_error_defer
    | apply unless_error_bind; [| intros ? ?]
    | match goal with
      | H : ev_unless_error ?ev ?ev' |- unless_error (?ev _ _) (?ev' _ _) =>
          apply H
      | H : ex_unless_error ?ex ?ex' |- unless_error (?ex _ _) (?ex' _ _) =>
          apply H
      | |- unless_error (match ?x with _ => _ end)
             (match ?x with _ => _ end) =>
          destruct x
      end
    | progress simpl ].

Ltac flag_steps := repeat flag_step.

Lemma binarySwitch_unless_error operator l r i :
  unless_error (binarySwitch false Sprintf_float Sprintf_v operator l r i)
    (binarySwitch true Sprintf_float Sprintf_v operator l r i).
Proof.
  unfold binarySwitch.
  repeat match goal with
         | |- unless_error (if ?b then _ else _) (if ?b then _ else _) =>
             destruct b
         end; try apply unless_error_refl.
  destruct l, r; unfold unless_error; simpl; auto.
Qed.

Lemma blockLoop_unless_error ex ex' statements :
  ex_unless_error ex ex' ->
  forall value i,
    unless_error (blockLoop ex statements value i)
      (blockLoop ex' statements value i).
Proof.
  intros Hex. induction statements as [|s rest IH]; intros value i; simpl.
  - apply unless_error_refl.
  - apply unless_error_bind; [apply Hex|]. intros a i1.
    destruct (isReturningValue i1); [apply unless_error_refl | apply IH].
Qed.

Lemma executeBlock_unless_error ex ex' statements e i :
  ex_unless_error ex ex' ->
  unless_error (executeBlock ex statements e i)
    (executeBlock ex' statements e i).
Proof.
  intros Hex. unfold executeBlock. apply unless_error_defer.
  apply blockLoop_unless_error. exact Hex.
Qed.

Lemma evaluateAll_unless_error ev ev' es :
  ev_unless_error ev ev' ->
  forall values i,
    unless_error (evaluateAll ev es values i) (evaluateAll ev' es values i).
Proof.
  intros Hev. induction es as [|e rest IH]; intros values i; simpl.
  - apply unless_error_refl.
  - apply unless_error_bind; [apply Hev|]. intros a i1. apply IH.
Qed.

Lemma dictLoop_unless_error ev ev' mapExpr :
  ev_unless_error ev ev' ->
  forall dict i,
    unless_error (dictLoop ev mapExpr dict i) (dictLoop ev' mapExpr dict i).
Proof.
  intros Hev. induction mapExpr as [|[k v] rest IH]; intros dict i; simpl.
  - apply unless_error_refl.
  - apply unless_error_bind; [apply Hev|]. intros a i1.
    destruct (dict_lookup (Lexeme k) dict); [apply unless_error_refl | apply IH].
Qed.

Lemma whileLoop_unless_error ev ev' ex ex' rounds cond body :
  ev_unless_error ev ev' -> ex_unless_error ex ex' ->
  forall condition i,
    unless_error (whileLoop ev ex rounds cond body condition i)
      (whileLoop ev' ex' rounds cond body condition i).
Proof.
  intros Hev Hex. induction rounds as [|n IH]; intros condition i; simpl.
  - apply unless_error_refl.
  - destruct (isTruthy condition); [| apply unless_error_refl].
    apply unless_error_bind; [apply Hex|]. intros _ i1.
    apply unless_error_bind; [apply Hev|]. intros c i2. apply IH.
Qed.

Lemma LoxFunction_Call_unless_error ex ex' f arguments i :
  ex_unless_error ex ex' ->
  unless_error (LoxFunction_Call ex f arguments i)
    (LoxFunction_Call ex' f arguments i).
Proof.
  intros Hex. unfold LoxFunction_Call, NewEnvironment.
  apply unless_error_bind; [apply executeBlock_unless_error; exact Hex|].
  intros; apply unless_error_refl.
Qed.

Lemma Call_unless_error ex ex' callable arguments i :
  ex_unless_error ex ex' ->
  unless_error (Call wallClock ex callable arguments i)
    (Call wallClock ex' callable arguments i).
Proof.
  intros Hex. destruct callable; simpl; try apply unless_error_refl.
  - apply LoxFunction_Call_unless_error; exact Hex.
  - unfold LoxClass_Call, NewLoxInstance, Bind, NewEnvironment, NewFunction.
    match goal with
    | |- unless_error (match ?x with _ => _ end) _ => destruct x
    end; [| apply unless_error_refl].
    simpl.
    apply unless_error_bind;
      [apply LoxFunction_Call_unless_error; exact Hex|].
    intros; apply unless_error_refl.
Qed.

Lemma Expr_Accept_unless_error ev ev' ex ex' expr i :
  ev_unless_error ev ev' -> ex_unless_error ex ex' ->
  unless_error
    (Expr_Accept false Sprintf_float Sprintf_v wallClock rangeOrder ev ex expr i)
    (Expr_Accept true Sprintf_float Sprintf_v wallClock rangeOrder ev' ex' expr i).
Proof.
  intros Hev Hex. destruct expr; simpl; try apply unless_error_refl.
  - apply Hev.
  - unfold VisitUnaryExpr. flag_steps.
  - unfold VisitBinaryExpr.
    apply unless_error_bind; [apply Hev|]. intros l i1.
    apply unless_error_bind; [apply Hev|]. intros r i2.
    apply binarySwitch_unless_error.
  - unfold VisitLogicalExpr. flag_steps.
  - unfold VisitTernaryExpr. flag_steps.
  - unfold VisitAssignExpr. flag_steps.
  - unfold VisitCallExpr. apply unless_error_defer.
    apply unless_error_bind; [apply Hev|]. intros c i1.
    apply unless_error_bind; [apply evaluateAll_unless_error; exact Hev|].
    intros vs i2.
    destruct (negb (isCallable c)); [apply unless_error_refl|].
    destruct (negb (length vs =? Arity c i2)%nat); [apply unless_error_refl|].
    apply unless_error_defer. apply Call_unless_error. exact Hex.
  - unfold VisitGetExpr. flag_steps.
  - unfold VisitSetExpr. flag_steps.
  - unfold VisitListExpr.
    apply unless_error_bind; [apply evaluateAll_unless_error; exact Hev|].
    intros; apply unless_error_refl.
  - unfold VisitDictionaryExpr. apply dictLoop_unless_error; exact Hev.
  - unfold VisitSelectExpr. flag_steps.
Qed.

Lemma Stmt_Accept_unless_error ev ev' ex ex' rounds stmt i :
  ev_unless_error ev ev' -> ex_unless_error ex ex' ->
  unless_error (Stmt_Accept Sprintf_float Sprintf_v ev ex rounds stmt i)
    (Stmt_Accept Sprintf_float Sprintf_v ev' ex' rounds stmt i).
Proof.
  intros Hev Hex. destruct stmt; try apply unless_error_refl.
  - unfold Stmt_Accept, VisitExpressionStmt. flag_steps.
  - unfold Stmt_Accept, VisitPrintStmt. flag_steps.
  - unfold Stmt_Accept, VisitVarStmt. flag_steps.
  - unfold Stmt_Accept, VisitBlockStmt, NewEnvironment.
    apply executeBlock_unless_error; exact Hex.
  - unfold Stmt_Accept, VisitIfStmt. flag_steps.
  - unfold Stmt_Accept, VisitWhileStmt. apply unless_error_defer.
    apply unless_error_bind; [apply Hev|]. intros c i1.
    apply whileLoop_unless_error; assumption.
  - unfold Stmt_Accept, VisitReturnStmt. flag_steps.
  - unfold Stmt_Accept, VisitClassStmt.
    apply unless_error_bind; [| intros; apply unless_error_refl].
    destruct superClass as [[p superName]|]; [| apply unless_error_refl].
    apply unless_error_bind; [apply Hev | intros; apply unless_error_refl].
Qed.

Lemma Evaluate_execute_unless_error fuel :
  ev_unless_error (Evaluate false Sprintf_float Sprintf_v wallClock rangeOrder fuel)
    (Evaluate true Sprintf_float Sprintf_v wallClock rangeOrder fuel)
  /\ ex_unless_error (execute false Sprintf_float Sprintf_v wallClock rangeOrder fuel)
       (execute true Sprintf_float Sprintf_v wallClock rangeOrder fuel).
Proof.
  induction fuel as [|n [IHev IHex]].
  - split; intros ? ?; apply unless_error_refl.
  - split.
    + intros e i. simpl.
      destruct (breakCurrentLoop i); [apply unless_error_refl|].
      apply Expr_Accept_unless_error; assumption.
    + intros s i. simpl.
      destruct (breakCurrentLoop i); [apply unless_error_refl|].
      apply unless_error_bind;
        [apply Stmt_Accept_unless_error; assumption
        | intros; apply unless_error_refl].
Qed.

Lemma interpretLoop_unless_error ex ex' statements :
  ex_unless_error ex ex' ->
  forall value i,
    unless_error (interpretLoop ex statements value i)
      (interpretLoop ex' statements value i).
Proof.
  intros Hex. induction statements as [|s rest IH]; intros value i; simpl.
  - apply unless_error_refl.
  - apply unless_error_bind; [apply Hex|]. intros a i1. apply IH.
Qed.

(** X25: the flag [useCrossAddition] only replaces errors: an expression,
    a statement or a program that returns a value with the flag off
    returns the same value and leaves the same interpreter with the flag
    on.  What the flag changes is [+] on a string and a number: an error
    with the flag off, the two operands printed one after the other with
    the flag on; [+] on any other mix stays an error. *)
Theorem cross_addition_only_replaces_errors :
  (forall fuel expr i v i',
      Evaluate false Sprintf_float Sprintf_v wallClock rangeOrder fuel expr i = Ok v i' ->
      Evaluate true Sprintf_float Sprintf_v wallClock rangeOrder fuel expr i = Ok v i')
  /\ (forall fuel statements i v i',
      Interpret false Sprintf_float Sprintf_v wallClock rangeOrder fuel statements i
      = Ok v i' ->
      Interpret true Sprintf_float Sprintf_v wallClock rangeOrder fuel statements i
      = Ok v i')
  /\ (forall operator l r i,
      Type_ operator = PLUS ->
      variant l <> variant r ->
      binarySwitch false Sprintf_float Sprintf_v operator l r i
      = Err (operandsError operator i) i
      /\ binarySwitch true Sprintf_float Sprintf_v operator l r i
         = if isAllStringOrNumber [l; r]
           then Ok (VString (Stringify Sprintf_float Sprintf_v i l
                             +:+ Stringify Sprintf_float Sprintf_v i r)) i
           else Err (operandsError operator i) i).
Proof.
  split; [| split].
  - intros fuel expr i v i' H.
    pose proof (proj1 (Evaluate_execute_unless_error fuel) expr i) as Hu.
    unfold unless_error in Hu. rewrite H in Hu. exact Hu.
  - intros fuel statements i v i' H. unfold Interpret in *.
    pose proof (interpretLoop_unless_error _ _ statements
                  (proj2 (Evaluate_execute_unless_error fuel)) VNil i) as Hu.
    unfold unless_error in Hu. rewrite H in Hu. exact Hu.
  - intros operator l r i Hop Hk. unfold binarySwitch. rewrite Hop. simpl.
    destruct l, r; simpl in *; try reflexivity; try congruence; auto.
Qed.

End CrossAddition.

(** * The properties on concrete runs *)

(** [executeBlock] of [1 / 0;] in a fresh child environment returns an
    error and the environment is restored; the call [f()] of
    [fun f() { return 1 / 0; }] returns an error and the call stack is
    restored. *)
Lemma block_and_call_restore_state_witness :
  match executeBlock (execute false verbOnly nodeOnly frozenClock sourceOrder 5)
          [ExpressionStmt
             (BinaryExpr 1 (number_ 2 1) (tok SLASH "/") (number_ 3 0))]
          1 (snd (NewEnvironment (Some 0) NewInterpreter))
  with
  | Err _ i' => env i' = 0
  | _ => False
  end
  /\ match VisitCallExpr frozenClock
             (Evaluate false verbOnly nodeOnly frozenClock sourceOrder 6)
             (execute false verbOnly nodeOnly frozenClock sourceOrder 6)
             (VariableExpr 11 (ident "f")) (tok RIGHT_PAREN ")") []
             (interpreterAfter false verbOnly nodeOnly frozenClock sourceOrder 3
                [divideByZero] [])
     with
     | Err _ i' => callStack i' = [] /\ length (callStack i') = 0
     | _ => False
     end.
Proof.
  split.
  - destruct (executeBlock _ _ _ _) as [v j|e j| |] eqn:E;
      try (vm_compute in E; discriminate).
    apply (proj1 (block_and_call_restore_state false verbOnly nodeOnly
                    frozenClock sourceOrder 5)
             [ExpressionStmt
                (BinaryExpr 1 (number_ 2 1) (tok SLASH "/") (number_ 3 0))]
             1 (snd (NewEnvironment (Some 0) NewInterpreter)) j).
    right. exists e. exact E.
  - destruct (VisitCallExpr _ _ _ _ _ _ _) as [v j|e j| |] eqn:E;
      try (vm_compute in E; discriminate).
    apply (proj2 (block_and_call_restore_state false verbOnly nodeOnly
                    frozenClock sourceOrder 6)
             (VariableExpr 11 (ident "f")) (tok RIGHT_PAREN ")") []
             (interpreterAfter false verbOnly nodeOnly frozenClock sourceOrder 3
                [divideByZero] []) j).
    right. exists e. exact E.
Defined.

(** [clock(1)]: the callee is the built-in [clock], of arity 0, and one
    argument is given. *)
Lemma call_checks_callee_and_arity_witness :
  VisitCallExpr frozenClock
    (Evaluate false verbOnly nodeOnly frozenClock sourceOrder 2)
    (execute false verbOnly nodeOnly frozenClock sourceOrder 2)
    (VariableExpr 1 (ident "clock")) (tok RIGHT_PAREN ")") [number_ 2 1]
    NewInterpreter
  = Err (RuntimeError (tok RIGHT_PAREN ")") "Expected 0 arguments but got 1."
           [])
      NewInterpreter.
Proof.
  destruct (call_checks_callee_and_arity false verbOnly nodeOnly frozenClock sourceOrder 2
              (VariableExpr 1 (ident "clock")) (tok RIGHT_PAREN ")")
              [number_ 2 1] NewInterpreter) as [_ H].
  destruct (H VClock NewInterpreter [VNumber 1] NewInterpreter)
    as (_ & Harity & _).
  - vm_compute. reflexivity.
  - eapply inOrder_cons; [vm_compute; reflexivity | apply inOrder_nil].
  - rewrite Harity; [vm_compute; reflexivity | reflexivity |].
    vm_compute. discriminate.
Defined.

(** [1 / 0] *)
Lemma division_checks_operands_and_zero_witness :
  Evaluate false verbOnly nodeOnly frozenClock sourceOrder 2
    (BinaryExpr 1 (number_ 2 1) (tok SLASH "/") (number_ 3 0)) NewInterpreter
  = Err (RuntimeError (tok SLASH "/") "Division by zero." []) NewInterpreter.
Proof.
  rewrite (division_checks_operands_and_zero false verbOnly nodeOnly
             frozenClock sourceOrder 1 1 (number_ 2 1) (tok SLASH "/") (number_ 3 0)
             NewInterpreter (VNumber 1) NewInterpreter (VNumber 0)
             NewInterpreter);
    vm_compute; reflexivity.
Defined.

(** The variable [clock], resolved at depth 0 of the global environment. *)
Lemma variable_and_assign_follow_depth_map_witness :
  Evaluate false verbOnly nodeOnly frozenClock sourceOrder 1
    (VariableExpr 1 (ident "clock"))
    (resolvedInterpreter [(VariableExpr 1 (ident "clock"), 0%Z)])
  = Ok VClock (resolvedInterpreter [(VariableExpr 1 (ident "clock"), 0%Z)]).
Proof.
  destruct (variable_and_assign_follow_depth_map false verbOnly nodeOnly
              frozenClock sourceOrder 0 1 (ident "clock")
              (resolvedInterpreter [(VariableExpr 1 (ident "clock"), 0%Z)]))
    as [Hlocal _].
  - vm_compute. reflexivity.
  - rewrite (Hlocal 0%Z); vm_compute; reflexivity.
Defined.



(** * The further properties on concrete runs *)

(** [fun f() { return 5; } var r = f();] leaves the frame as it was. *)
Lemma evaluation_restores_the_frame_witness :
  match Interpret false verbOnly nodeOnly frozenClock sourceOrder 10 returnInBody
          (resolvedInterpreter [])
  with
  | Ok _ i' => same_frame (resolvedInterpreter []) i'
  | _ => False
  end.
Proof.
  destruct (Interpret _ _ _ _ _ _ _) as [v j|e j| |] eqn:E;
    try (vm_compute in E; discriminate).
  apply (proj2 (proj2 (evaluation_restores_the_frame false verbOnly nodeOnly
                         frozenClock sourceOrder 10))
           returnInBody (resolvedInterpreter []) j).
  left. exists v. exact E.
Defined.

(** [print "hi";] appends to what was printed. *)
Lemma output_is_only_appended_witness :
  match Interpret false verbOnly nodeOnly frozenClock sourceOrder 3 printHi
          (resolvedInterpreter [])
  with
  | Ok _ i' => exists lines, stdout i' = stdout (resolvedInterpreter []) ++ lines
  | _ => False
  end.
Proof.
  destruct (Interpret _ _ _ _ _ _ _) as [v j|e j| |] eqn:E;
    try (vm_compute in E; discriminate).
  apply (proj2 (proj2 (output_is_only_appended false verbOnly nodeOnly
                         frozenClock sourceOrder 3))
           printHi (resolvedInterpreter []) j).
  left. exists v. exact E.
Defined.

(** [true or x]: the undefined [x] is not evaluated. *)
Lemma logical_operators_short_circuit_witness :
  Evaluate false verbOnly nodeOnly frozenClock sourceOrder 2
    (LogicalExpr 3 literalTrue (tok OR "or") (VariableExpr 2 (ident "x")))
    NewInterpreter
  = Ok (VBool true) NewInterpreter.
Proof.
  apply (proj1 (logical_operators_short_circuit false verbOnly nodeOnly
                  frozenClock sourceOrder 1 3 literalTrue (tok OR "or")
                  (VariableExpr 2 (ident "x")) NewInterpreter (VBool true)
                  NewInterpreter eq_refl eq_refl));
    reflexivity.
Defined.

(** [-"a"] *)
Lemma truthiness_and_unary_operators_witness :
  Evaluate false verbOnly nodeOnly frozenClock sourceOrder 2
    (UnaryExpr 2 (tok MINUS "-") (LiteralExpr 1 (LString "a"))) NewInterpreter
  = Err (RuntimeError (tok MINUS "-") "Operand must be a number." [])
      NewInterpreter.
Proof.
  apply (proj2 (proj2 (truthiness_and_unary_operators false verbOnly nodeOnly
                         frozenClock sourceOrder)
                  1 2 (tok MINUS "-") (LiteralExpr 1 (LString "a"))
                  NewInterpreter (VString "a") NewInterpreter eq_refl
                  eq_refl));
    reflexivity.
Defined.

(** Two empty dictionaries. *)
Lemma equality_panics_only_on_two_lists_or_two_dicts_witness :
  binarySwitch false verbOnly nodeOnly (tok EQUAL_EQUAL "==") (VDict [])
    (VDict []) NewInterpreter
  = Panic "runtime error: comparing uncomparable type"
  /\ binarySwitch false verbOnly nodeOnly (tok BANG_EQUAL "!=") (VDict [])
       (VDict []) NewInterpreter
     = Panic "runtime error: comparing uncomparable type".
Proof.
  apply (proj1 (equality_panics_only_on_two_lists_or_two_dicts false verbOnly
                  nodeOnly (tok EQUAL_EQUAL "==") (tok BANG_EQUAL "!=")
                  (VDict []) (VDict []) NewInterpreter eq_refl eq_refl)).
  right. split; reflexivity.
Defined.

(** A number and a string. *)
Lemma equality_by_kind_and_identity_witness :
  interface_eq (VNumber 1) (VString "1") = Some false.
Proof.
  apply (proj1 equality_by_kind_and_identity). simpl. discriminate.
Defined.

(** [3 - 1] *)
Lemma binary_operators_result_kinds_witness :
  match binarySwitch false verbOnly nodeOnly (tok MINUS "-") (VNumber 3)
          (VNumber 1) NewInterpreter
  with
  | Ok v i' => i' = NewInterpreter /\ isNumber v = true
  | _ => False
  end.
Proof.
  destruct (binarySwitch _ _ _ _ _ _ _) as [v j|e j| |] eqn:E;
    try (vm_compute in E; discriminate).
  destruct (binary_operators_result_kinds false verbOnly nodeOnly
              (tok MINUS "-") (VNumber 3) (VNumber 1) NewInterpreter v j E)
    as (H1 & H2 & _).
  split; [exact H1|]. apply H2. left. reflexivity.
Defined.

(** [{ return 1; print "hi"; }]: nothing is printed. *)
Lemma block_stops_at_return_or_error_witness :
  executeBlock (execute false verbOnly nodeOnly frozenClock sourceOrder 3)
    ([returnStmt] ++ printHi) 0 NewInterpreter
  = executeBlock (execute false verbOnly nodeOnly frozenClock sourceOrder 3)
      [returnStmt] 0 NewInterpreter.
Proof.
  apply (block_stops_at_return_or_error
           (execute false verbOnly nodeOnly frozenClock sourceOrder 3)
           [returnStmt] printHi 0 NewInterpreter).
  - discriminate.
  - vm_compute. reflexivity.
Defined.

(** [print "hi"; print "hi";] *)
Lemma interpret_runs_part_after_part_witness :
  Interpret false verbOnly nodeOnly frozenClock sourceOrder 3 (printHi ++ printHi)
    NewInterpreter
  = bind (Interpret false verbOnly nodeOnly frozenClock sourceOrder 3 printHi
            NewInterpreter)
      (fun _ i1 => Interpret false verbOnly nodeOnly frozenClock sourceOrder 3 printHi i1).
Proof.
  apply (interpret_runs_part_after_part false verbOnly nodeOnly frozenClock sourceOrder 3
           printHi printHi NewInterpreter).
  discriminate.
Defined.

(** A run-time error raised while the native clock is on the stack. *)
Lemma error_text_needs_functions_on_the_stack_witness :
  Error NewInterpreter (RuntimeError (tok SLASH "/") "Division by zero."
                          [VClock])
  = None.
Proof.
  apply (proj2 (error_text_needs_functions_on_the_stack NewInterpreter
                  (tok SLASH "/") "Division by zero." [VClock])).
  exists VClock. split; [constructor | reflexivity].
Defined.

(** The literal [{a: 1, b: 2}], ranged over from its last entry to its
    first. *)
Lemma dictionary_literal_has_distinct_keys_witness :
  exists dict i',
    VisitDictionaryExpr reverseOrder
      (Evaluate false verbOnly nodeOnly frozenClock reverseOrder 2)
      twoKeys NewInterpreter
    = Ok (VDict dict) i'
    /\ map fst dict = ["b"; "a"]
    /\ map snd dict = [VNumber 2; VNumber 1]
    /\ NoDup (map fst dict)
    /\ map fst dict ≡ₚ ["a"; "b"].
Proof.
  destruct (VisitDictionaryExpr reverseOrder
              (Evaluate false verbOnly nodeOnly frozenClock reverseOrder 2)
              twoKeys NewInterpreter) as [v j|e j| |] eqn:E;
    try (vm_compute in E; discriminate).
  destruct (dictionary_literal_has_distinct_keys reverseOrder
              (Evaluate false verbOnly nodeOnly frozenClock reverseOrder 2)
              twoKeys NewInterpreter v j E)
    as (dict & Hv & Hkeys & Hnd & _ & _ & Hperm).
  subst v. exists dict, j. split; [reflexivity|].
  split; [exact Hkeys|]. split.
  - vm_compute in E. injection E as Hd _. rewrite <- Hd. reflexivity.
  - split; [exact Hnd|]. apply Hperm.
    symmetry. apply Permutation_rev.
Defined.

(** The literal [[1]]. *)
Lemma list_literal_evaluates_elements_in_order_witness :
  match VisitListExpr (Evaluate false verbOnly nodeOnly frozenClock sourceOrder 2)
          [number_ 1 1] NewInterpreter
  with
  | Ok v _ => exists vs, v = VList vs /\ length vs = 1%nat
  | _ => False
  end.
Proof.
  destruct (VisitListExpr _ _ _) as [v j|e j| |] eqn:E;
    try (vm_compute in E; discriminate).
  destruct (proj1 (list_literal_evaluates_elements_in_order
                     (Evaluate false verbOnly nodeOnly frozenClock sourceOrder 2)
                     [number_ 1 1] NewInterpreter v j) E)
    as (vs & Hv & _ & Hl).
  exists vs. split; assumption.
Defined.

(** [[1][5]] *)
Lemma subscript_checks_bounds_and_keys_witness :
  VisitSelectExpr (Evaluate false verbOnly nodeOnly frozenClock sourceOrder 3)
    (ListExpr 1 [number_ 2 1]) (number_ 3 5) NewInterpreter
  = Err (RuntimeError Token_zero ("Index out of range: " +:+ Sprintf_d 5) [])
      NewInterpreter.
Proof.
  destruct (subscript_checks_bounds_and_keys
              (Evaluate false verbOnly nodeOnly frozenClock sourceOrder 3)
              (ListExpr 1 [number_ 2 1]) (number_ 3 5) NewInterpreter
              (VList [VNumber 1]) NewInterpreter)
    as (Hlist & _).
  - vm_compute. reflexivity.
  - destruct (Hlist [VNumber 1] 5%float NewInterpreter eq_refl) as [_ Hout].
    + vm_compute. reflexivity.
    + apply Hout.
      assert (Hf : float64_to_int 5 = 5%Z) by (vm_compute; reflexivity).
      rewrite Hf. simpl. lia.
Defined.

(** After [a.x = 5; var y = a.x;] the variable [y] holds the node of the
    literal [5], and reading [y] gives the number 5. *)
Lemma literal_nodes_are_unwrapped_witness :
  lookupTable (ident "y") 10
    (interpreterAfter false verbOnly nodeOnly frozenClock sourceOrder 6
       fieldCopy [])
  = Ok (VExpr (number_ 4 5))
      (interpreterAfter false verbOnly nodeOnly frozenClock sourceOrder 6
         fieldCopy [])
  /\ Evaluate false verbOnly nodeOnly frozenClock sourceOrder 1
       (VariableExpr 10 (ident "y"))
       (interpreterAfter false verbOnly nodeOnly frozenClock sourceOrder 6
          fieldCopy [])
     = Ok (VNumber 5)
         (interpreterAfter false verbOnly nodeOnly frozenClock sourceOrder 6
            fieldCopy []).
Proof.
  assert (Hl : lookupTable (ident "y") 10
                 (interpreterAfter false verbOnly nodeOnly frozenClock
                    sourceOrder 6 fieldCopy [])
               = Ok (VExpr (number_ 4 5))
                   (interpreterAfter false verbOnly nodeOnly frozenClock
                      sourceOrder 6 fieldCopy []))
    by (vm_compute; reflexivity).
  split; [exact Hl|].
  apply (proj1 (literal_nodes_are_unwrapped false verbOnly nodeOnly
                  frozenClock sourceOrder)
           0 10 (ident "y")
           (interpreterAfter false verbOnly nodeOnly frozenClock sourceOrder
              6 fieldCopy [])
           4 (LNumber 5)
           (interpreterAfter false verbOnly nodeOnly frozenClock sourceOrder
              6 fieldCopy []));
    [vm_compute; reflexivity | exact Hl].
Defined.


(** [while (false) {}] *)
Lemma flags_are_cleared_on_every_return_witness :
  match execute false verbOnly nodeOnly frozenClock sourceOrder 3
          (WhileStmt (LiteralExpr 1 (LBool false)) (BlockStmt []))
          NewInterpreter
  with
  | Ok _ i' => breakCurrentLoop i' = false /\ currentLoop i' = None
  | _ => False
  end.
Proof.
  destruct (execute _ _ _ _ _ _ _) as [v j|e j| |] eqn:E;
    try (vm_compute in E; discriminate).
  apply (proj1 (flags_are_cleared_on_every_return false verbOnly nodeOnly
                  frozenClock sourceOrder)
           3 (LiteralExpr 1 (LBool false)) (BlockStmt []) NewInterpreter j).
  - reflexivity.
  - left. exists v. exact E.
Defined.

(** With a break pending the literal [1] evaluates to nil. *)
Lemma pending_break_skips_everything_witness :
  Evaluate false verbOnly nodeOnly frozenClock sourceOrder 1 (number_ 1 1)
    (set_breakCurrentLoop NewInterpreter true)
  = Ok VNil (set_breakCurrentLoop NewInterpreter true).
Proof.
  apply (proj1 (pending_break_skips_everything false verbOnly nodeOnly
                  frozenClock sourceOrder 0 (set_breakCurrentLoop NewInterpreter true)
                  eq_refl)).
Defined.

(** [while (true) break;] *)
Lemma break_ends_the_loop_witness :
  exists i1,
    execute false verbOnly nodeOnly frozenClock sourceOrder 2
      (WhileStmt literalTrue BreakStmt) NewInterpreter
    = Ok VNil i1
    /\ breakCurrentLoop i1 = false.
Proof.
  eexists. split.
  - apply (break_ends_the_loop false verbOnly nodeOnly frozenClock sourceOrder 0
             literalTrue BreakStmt NewInterpreter (VBool true)
             (set_currentLoop NewInterpreter
                (Some (WhileStmt literalTrue BreakStmt)))
             VNil
             (set_breakCurrentLoop
                (set_currentLoop NewInterpreter
                   (Some (WhileStmt literalTrue BreakStmt))) true));
      reflexivity.
  - reflexivity.
Defined.

(** The byte [@] starts no token. *)
Lemma only_an_unknown_byte_is_an_error_witness :
  match fst (scanToken (fun _ => None) (NewScanner "@")) with
  | Some msg =>
      snd (scanToken (fun _ => None) (NewScanner "@"))
      = snd (advance (NewScanner "@"))
      /\ msg = "Unexpected Character. - 1: @"
  | None => False
  end.
Proof.
  destruct (fst (scanToken (fun _ => None) (NewScanner "@"))) as [msg|] eqn:E;
    [| vm_compute in E; discriminate].
  destruct (proj1 (only_an_unknown_byte_is_an_error (fun _ => None)
                     (NewScanner "@")) msg E)
    as (_ & _ & Hs & Hm).
  split; [exact Hs | exact Hm].
Defined.

(** [var x = 1;] and then [x]. *)
Lemma declared_global_is_read_back_witness :
  exists i2,
    execute false verbOnly nodeOnly frozenClock sourceOrder 2
      (VarStmt (ident "x") (Some (number_ 1 1))) NewInterpreter
    = Ok VNil i2
    /\ Evaluate false verbOnly nodeOnly frozenClock sourceOrder 2
         (VariableExpr 2 (ident "x")) i2
       = Ok (VNumber 1) i2.
Proof.
  destruct (declared_global_is_read_back false verbOnly nodeOnly frozenClock sourceOrder
              1 2 (ident "x") NewInterpreter eq_refl eq_refl eq_refl)
    as [H _].
  apply (H (number_ 1 1) (VNumber 1) NewInterpreter).
  - reflexivity.
  - reflexivity.
  - vm_compute. lia.
Defined.

(** [a.x = 1 + 2] and then [a.x], with [a] an instance. *)
Lemma field_read_gives_back_the_stored_node_witness :
  exists i',
    Evaluate false verbOnly nodeOnly frozenClock sourceOrder 3
      (SetExpr 3 (VariableExpr 7 (ident "a")) (ident "x") onePlusTwo)
      (interpreterAfter false verbOnly nodeOnly frozenClock sourceOrder 5 newInstance [])
    = Ok VNil i'
    /\ Evaluate false verbOnly nodeOnly frozenClock sourceOrder 3
         (GetExpr 8 (VariableExpr 7 (ident "a")) (ident "x")) i'
       = Ok (VExpr onePlusTwo) i'.
Proof.
  apply (field_read_gives_back_the_stored_node false verbOnly nodeOnly
           frozenClock sourceOrder 1 3 7 8 (ident "a") (ident "x") onePlusTwo
           (interpreterAfter false verbOnly nodeOnly frozenClock sourceOrder 5
              newInstance [])
           0
           (interpreterAfter false verbOnly nodeOnly frozenClock sourceOrder 5
              newInstance [])).
  - vm_compute. reflexivity.
  - vm_compute. reflexivity.
  - vm_compute. lia.
Defined.

(** [1 + 2] gives 3 with the flag on as with the flag off. *)
Lemma cross_addition_only_replaces_errors_witness :
  Evaluate true verbOnly nodeOnly frozenClock sourceOrder 2 onePlusTwo NewInterpreter
  = Ok (VNumber 3) NewInterpreter.
Proof.
  apply (proj1 (cross_addition_only_replaces_errors verbOnly nodeOnly
                  frozenClock sourceOrder)).
  vm_compute. reflexivity.
Defined.

(** The key [AND]. *)
Lemma keyword_type_is_its_key_except_AND_witness :
  ("AND" = "AND" /\ AND = "ADD") \/ ("AND" <> "AND" /\ AND = "AND").
Proof.
  apply (proj1 keyword_type_is_its_key_except_AND "AND" AND).
  vm_compute. reflexivity.
Defined.
